(** * gopiq: a shallow embedding of the image processor and its pixel engines

    The development follows [gopiq.go] and [formats.go].

    - Go's [int] is embedded as [Z]; image sizes are assumed small enough
      that no index computation wraps.  [image.NewRGBA] and [make], which
      refuse a size beyond the limits of the platform, are embedded for
      such sizes; where the caller of the package chooses a size, the
      statement carries the limit ([allocatable]).
    - An [image.Image] is the nil interface value, an image, or an
      interface value that holds a nil pointer; a method call on the last
      panics.
    - Pixel memory is a store of byte arrays; a Go slice is a window into
      one of them, so two images may share bytes ([SubImage], [Clone]).
    - [float64] is IEEE-754 binary64 with every operation rounded on its
      own (round to nearest, ties to even), as the gc compiler emits on
      amd64; it is embedded with the Standard Library's [SpecFloat].
    - A run-time panic is an explicit outcome.
    - The goroutines of [grayscaleParallel] are interleaved pixel by pixel
      by an explicit schedule.
    - Codecs, the font rasteriser and the resampling kernel are outside the
      package; they are fields of a record of collaborators.  What they do
      when they panic, as an encoder does on a nil pointer, is outside the
      embedding.
    - [strings.ToLower] is embedded on ASCII strings; the Unicode case
      tables it applies to any other string are a parameter.
    - [sync.Pool] is the list of the images put back; which of them [Get]
      finds is a parameter.  The pool owns the images it holds. *)

From Stdlib Require Import ZArith Lia Bool String.
From Stdlib Require Import Floats.SpecFloat.
From stdpp Require Import base list.

Open Scope Z_scope.

(** ** Run-time outcomes *)

Inductive panic : Type :=
  | NilDereference     (* method call through a nil interface value or a nil pointer *)
  | IndexOutOfRange    (* slice index outside [0, len) *)
  | DivideByZero       (* integer division by zero *)
  | NegativeDimensions (* image.NewRGBA on a rectangle with negative size *).

Inductive outcome (A : Type) : Type :=
  | Ok (a : A)
  | Panic (p : panic).
Arguments Ok {A} a.
Arguments Panic {A} p.

Definition bindO {A B} (m : outcome A) (k : A -> outcome B) : outcome B :=
  match m with
  | Ok a => k a
  | Panic p => Panic p
  end.

Notation "'let*' x ':=' m 'in' k" := (bindO m (fun x => k))
  (at level 10, x name, m at level 100, k at level 200).

Notation "'let*' ' p ':=' m 'in' k" := (bindO m (fun x => match x with p => k end))
  (at level 10, p pattern, m at level 100, k at level 200).

(** ** Pixel memory and slices *)

(** The store of byte arrays: address [n] is the [n]-th array; [make]
    appends a zeroed array. *)
Abbreviation Heap := (list (list Z)).

Record Slice : Type := mkSlice {
  s_arr : nat;   (* backing array *)
  s_off : Z;     (* first element inside the backing array *)
  s_len : Z      (* len(s) *)
}.

Definition in_len (s : Slice) (i : Z) : bool := (0 <=? i) && (i <? s_len s).

(** [s[i]] *)
Definition slice_get (h : Heap) (s : Slice) (i : Z) : outcome Z :=
  if in_len s i then
    match h !! s_arr s with
    | Some a =>
        match a !! Z.to_nat (s_off s + i) with
        | Some v => Ok v
        | None => Panic IndexOutOfRange
        end
    | None => Panic IndexOutOfRange
    end
  else Panic IndexOutOfRange.

(** [s[i] = v] *)
Definition slice_set (h : Heap) (s : Slice) (i v : Z) : outcome Heap :=
  if in_len s i then
    match h !! s_arr s with
    | Some a =>
        if (Z.to_nat (s_off s + i) <? length a)%nat
        then Ok (<[s_arr s := <[Z.to_nat (s_off s + i) := v]> a]> h)
        else Panic IndexOutOfRange
    | None => Panic IndexOutOfRange
    end
  else Panic IndexOutOfRange.

(** [make([]uint8, n)] *)
Definition make (h : Heap) (n : Z) : Slice * Heap :=
  (mkSlice (length h) 0 n, h ++ [replicate (Z.to_nat n) 0]).

(** Every window of the heap lies inside its backing array. *)
Definition slice_valid (h : Heap) (s : Slice) : Prop :=
  exists a, h !! s_arr s = Some a /\ 0 <= s_off s /\ 0 <= s_len s /\
            s_off s + s_len s <= Z.of_nat (length a).

(** ** float64 *)

Definition prec : Z := 53.
Definition emax : Z := 1024.

(** [float64(n)] for an integer [n] *)
Definition float64_of_int (n : Z) : spec_float := binary_normalize prec emax n 0 false.

Definition fmul : spec_float -> spec_float -> spec_float := SFmul prec emax.
Definition fadd : spec_float -> spec_float -> spec_float := SFadd prec emax.
Definition fsub : spec_float -> spec_float -> spec_float := SFsub prec emax.
Definition fdiv : spec_float -> spec_float -> spec_float := SFdiv prec emax.

(** A decimal literal [n / 10^k]: the nearest float64. *)
Definition decimal (n : Z) (k : Z) : spec_float :=
  fdiv (float64_of_int n) (float64_of_int (10 ^ k)).

(** Conversion of a float to an integer discards the fraction. *)
Definition int_of_float64 (f : spec_float) : Z :=
  match f with
  | S754_finite s m e =>
      let v := if 0 <=? e then Z.pos m * 2 ^ e else Z.pos m / 2 ^ (- e) in
      if s then - v else v
  | _ => 0
  end.

(** [uint8(f)]: the fraction is discarded.  Go leaves the result open when
    the value does not fit a byte; the embedding reduces it modulo 256. *)
Definition uint8_of_float64 (f : spec_float) : Z := int_of_float64 f mod 256.

Definition c_2126 : spec_float := Eval vm_compute in decimal 2126 4.
Definition c_7152 : spec_float := Eval vm_compute in decimal 7152 4.
Definition c_0722 : spec_float := Eval vm_compute in decimal 722 4.

(** [uint8(0.2126*float64(r) + 0.7152*float64(g) + 0.0722*float64(b))] *)
Definition luminosity (r g b : Z) : Z :=
  uint8_of_float64
    (fadd (fadd (fmul c_2126 (float64_of_int r)) (fmul c_7152 (float64_of_int g)))
          (fmul c_0722 (float64_of_int b))).

(** ** Geometry: image.Point and image.Rectangle *)

Record image_Point : Type := Pt { X : Z; Y : Z }.
Record image_Rectangle : Type := mkRect { Min : image_Point; Max : image_Point }.

(** [image.Rect]: the corners are put in order. *)
Definition image_Rect (x0 y0 x1 y1 : Z) : image_Rectangle :=
  let '(x0, x1) := if x1 <? x0 then (x1, x0) else (x0, x1) in
  let '(y0, y1) := if y1 <? y0 then (y1, y0) else (y0, y1) in
  mkRect (Pt x0 y0) (Pt x1 y1).

Definition Dx (r : image_Rectangle) : Z := X (Max r) - X (Min r).
Definition Dy (r : image_Rectangle) : Z := Y (Max r) - Y (Min r).

Definition Empty (r : image_Rectangle) : bool :=
  (X (Max r) <=? X (Min r)) || (Y (Max r) <=? Y (Min r)).

(** [r.In(s)] *)
Definition In_rect (r s : image_Rectangle) : bool :=
  if Empty r then true
  else (X (Min s) <=? X (Min r)) && (X (Max r) <=? X (Max s)) &&
       (Y (Min s) <=? Y (Min r)) && (Y (Max r) <=? Y (Max s)).

(** ** Images *)

(** [*image.RGBA] *)
Record image_RGBA : Type := mkRGBA {
  Pix : Slice;
  Stride : Z;
  Rect : image_Rectangle
}.

(** What [color.Color.RGBA()] returns: alpha-premultiplied 16-bit channels. *)
Record Color16 : Type := mkColor16 { c_r : Z; c_g : Z; c_b : Z; c_a : Z }.

(** A non-nil [image.Image]: either an [*image.RGBA], which the engines
    read through its buffer, or any other implementation, read through
    [At]; or an interface value that is not nil but holds a nil pointer,
    such as a nil pointer to an [image.RGBA], on which every method call
    goes through the nil pointer. *)
Inductive image_Image : Type :=
  | ImgRGBA (m : image_RGBA)
  | ImgOther (bounds : image_Rectangle) (at_ : Z -> Z -> Color16)
  | ImgNilPointer.

(** The bounds of an image that has some. *)
Definition Bounds (img : image_Image) : image_Rectangle :=
  match img with
  | ImgRGBA m => Rect m
  | ImgOther b _ => b
  | ImgNilPointer => mkRect (Pt 0 0) (Pt 0 0)
  end.

(** The method call [img.Bounds()] *)
Definition image_Bounds (img : image_Image) : outcome image_Rectangle :=
  match img with
  | ImgNilPointer => Panic NilDereference
  | _ => Ok (Bounds img)
  end.

(** [image.NewRGBA] *)
Definition image_NewRGBA (r : image_Rectangle) (h : Heap) : outcome (image_RGBA * Heap) :=
  if (Dx r <? 0) || (Dy r <? 0) then Panic NegativeDimensions
  else
    let '(pix, h') := make h (4 * Dx r * Dy r) in
    Ok (mkRGBA pix (4 * Dx r) r, h').

(** [formats.go]: newRGBA *)
Definition newRGBA (bounds : image_Rectangle) (h : Heap) : outcome (image_RGBA * Heap) :=
  image_NewRGBA bounds h.

(** The method [PixOffset] of an RGBA image *)
Definition PixOffset (m : image_RGBA) (x y : Z) : Z :=
  (y - Y (Min (Rect m))) * Stride m + (x - X (Min (Rect m))) * 4.

(** ** Loops *)

(** The values [lo, lo+1, ..., hi-1] of a counting loop. *)
Definition Zrange (lo hi : Z) : list Z :=
  map (fun k => lo + Z.of_nat k) (seq 0 (Z.to_nat (hi - lo))).

(** The iterations [(y, x)] of a row loop around a column loop, in program
    order. *)
Definition for_pixels (ys xs : list Z) : list (Z * Z) :=
  flat_map (fun y => map (fun x => (y, x)) xs) ys.

(** Sequential execution of the iterations. *)
Fixpoint run {I} (body : I -> Heap -> outcome Heap) (l : list I) (h : Heap) : outcome Heap :=
  match l with
  | [] => Ok h
  | i :: l' => let* h' := body i h in run body l' h'
  end.

(** Goroutines: each one owns the list of iterations it still has to do.
    A schedule names, step by step, the goroutine that performs its next
    iteration; a name that is out of range or whose goroutine has finished
    is skipped.  [wg.Wait()] returns only once every goroutine is done, so
    when the schedule is used up the rest is carried out. *)
Fixpoint run_sched {I} (body : I -> Heap -> outcome Heap) (sched : list nat)
    (ws : list (list I)) (h : Heap) : outcome Heap :=
  match sched with
  | [] => run body (concat ws) h
  | g :: sched' =>
      match ws !! g with
      | Some (i :: rest) =>
          let* h' := body i h in run_sched body sched' (<[g := rest]> ws) h'
      | _ => run_sched body sched' ws h
      end
  end.

(** ** The grayscale engines ([gopiq.go]) *)

(** The body of the innermost loop, shared by the three engines: read the
    pixel at [srcIdx], write its luminosity and alpha at [dstIdx]. *)
Definition grayPixel (src dst : image_RGBA) (srcIdx dstIdx : Z) (h : Heap) : outcome Heap :=
  let* r := slice_get h (Pix src) srcIdx in
  let* g := slice_get h (Pix src) (srcIdx + 1) in
  let* b := slice_get h (Pix src) (srcIdx + 2) in
  let* a := slice_get h (Pix src) (srcIdx + 3) in
  let gray := luminosity r g b in
  let* h := slice_set h (Pix dst) dstIdx gray in
  let* h := slice_set h (Pix dst) (dstIdx + 1) gray in
  let* h := slice_set h (Pix dst) (dstIdx + 2) gray in
  slice_set h (Pix dst) (dstIdx + 3) a.

(** ** draw.Draw with the [Src] operator *)

(** [uint8(v >> 8)]: the high byte of a 16-bit channel *)
Definition high_byte (v : Z) : Z := Z.shiftr v 8 mod 256.

(** The four bytes a destination pixel receives from the source pixel at
    [(x, y)]: an RGBA source is copied byte for byte, any other source
    gives the high bytes of [At(x, y).RGBA()]. *)
Definition src_pixel (h : Heap) (src : image_Image) (x y : Z) : outcome (Z * Z * Z * Z) :=
  match src with
  | ImgRGBA m =>
      let i := PixOffset m x y in
      let* r := slice_get h (Pix m) i in
      let* g := slice_get h (Pix m) (i + 1) in
      let* b := slice_get h (Pix m) (i + 2) in
      let* a := slice_get h (Pix m) (i + 3) in
      Ok (r, g, b, a)
  | ImgOther _ at_ =>
      let c := at_ x y in
      Ok (high_byte (c_r c), high_byte (c_g c), high_byte (c_b c), high_byte (c_a c))
  | ImgNilPointer => Panic NilDereference
  end.

Definition set_pixel (h : Heap) (s : Slice) (i : Z) (p : Z * Z * Z * Z) : outcome Heap :=
  let '(r, g, b, a) := p in
  let* h := slice_set h s i r in
  let* h := slice_set h s (i + 1) g in
  let* h := slice_set h s (i + 2) b in
  slice_set h s (i + 3) a.

(** [r.Intersect(s)] *)
Definition Intersect (r s : image_Rectangle) : image_Rectangle :=
  let r' := mkRect (Pt (Z.max (X (Min r)) (X (Min s))) (Z.max (Y (Min r)) (Y (Min s))))
                   (Pt (Z.min (X (Max r)) (X (Max s))) (Z.min (Y (Max r)) (Y (Max s)))) in
  if Empty r' then mkRect (Pt 0 0) (Pt 0 0) else r'.

(** [r.Add(p)] *)
Definition Add_rect (r : image_Rectangle) (p : image_Point) : image_Rectangle :=
  mkRect (Pt (X (Min r) + X p) (Y (Min r) + Y p)) (Pt (X (Max r) + X p) (Y (Max r) + Y p)).

(** The clipping step of the draw package: the rectangle is cut to the
    destination and to the source, and the source point moves with it. *)
Definition clip (dst : image_RGBA) (r : image_Rectangle) (src : image_Image) (sp : image_Point)
  : image_Rectangle * image_Point :=
  let orig := Min r in
  let r := Intersect r (Rect dst) in
  let r := Intersect r (Add_rect (Bounds src) (Pt (X orig - X sp) (Y orig - Y sp))) in
  let dx := X (Min r) - X orig in
  let dy := Y (Min r) - Y orig in
  (r, Pt (X sp + dx) (Y sp + dy)).

Definition drawPixel (dst : image_RGBA) (src : image_Image) (r : image_Rectangle)
    (sp : image_Point) (yx : Z * Z) (h : Heap) : outcome Heap :=
  let '(y, x) := yx in
  let* p := src_pixel h src (X sp + x) (Y sp + y) in
  set_pixel h (Pix dst) (PixOffset dst (X (Min r) + x) (Y (Min r) + y)) p.

(** [draw.Draw(dst, r, src, sp, draw.Src)] for a destination that shares no
    bytes with the source (every destination below is freshly made).  The
    clipping step calls [src.Bounds()]. *)
Definition draw_Draw (dst : image_RGBA) (r : image_Rectangle) (src : image_Image)
    (sp : image_Point) (h : Heap) : outcome Heap :=
  let* _ := image_Bounds src in
  let '(r, sp) := clip dst r src sp in
  if Empty r then Ok h
  else run (drawPixel dst src r sp) (for_pixels (Zrange 0 (Dy r)) (Zrange 0 (Dx r))) h.

(** ** The grayscale engines, on an image in memory *)

(** The source as an RGBA image: the image itself when it is one, else a
    fresh RGBA image it is drawn onto.  A nil pointer to an [image.RGBA]
    passes the type assertion and fails at its first use. *)
Definition toRGBA (img : image_Image) (h : Heap) : outcome (image_RGBA * Heap) :=
  match img with
  | ImgRGBA m => Ok (m, h)
  | ImgOther bounds _ =>
      let* '(srcRGBA, h) := image_NewRGBA bounds h in
      let* h := draw_Draw srcRGBA bounds img (Min bounds) h in
      Ok (srcRGBA, h)
  | ImgNilPointer => Panic NilDereference
  end.

(** The loop nest of [Grayscale]. *)
Definition Grayscale_body (srcRGBA dstRGBA : image_RGBA) (yx : Z * Z) : Heap -> outcome Heap :=
  let '(y, x) := yx in
  let srcRowStart := y * Stride srcRGBA in
  let dstRowStart := y * Stride dstRGBA in
  let srcIdx := srcRowStart + x * 4 in
  let dstIdx := dstRowStart + x * 4 in
  grayPixel srcRGBA dstRGBA srcIdx dstIdx.

Definition Grayscale_image (img : image_Image) (h : Heap) : outcome (image_RGBA * Heap) :=
  let* bounds := image_Bounds img in
  let* '(srcRGBA, h) := toRGBA img h in
  let* '(dstRGBA, h) := image_NewRGBA bounds h in
  let width := Dx bounds in
  let height := Dy bounds in
  let* h := run (Grayscale_body srcRGBA dstRGBA)
                (for_pixels (Zrange 0 height) (Zrange 0 width)) h in
  Ok (dstRGBA, h).

(** The loop nest of [grayscaleDirect]. *)
Definition grayscaleDirect_body (srcRGBA dstRGBA : image_RGBA) (yx : Z * Z) : Heap -> outcome Heap :=
  let '(y, x) := yx in
  let rowStart := y * Stride srcRGBA in
  let dstRowStart := y * Stride dstRGBA in
  let pixelIdx := rowStart + x * 4 in
  let dstPixelIdx := dstRowStart + x * 4 in
  grayPixel srcRGBA dstRGBA pixelIdx dstPixelIdx.

Definition grayscaleDirect_image (img : image_Image) (h : Heap) : outcome (image_RGBA * Heap) :=
  let* bounds := image_Bounds img in
  let width := Dx bounds in
  let height := Dy bounds in
  let* '(srcRGBA, h) := toRGBA img h in
  let* '(dstRGBA, h) := image_NewRGBA bounds h in
  let* h := run (grayscaleDirect_body srcRGBA dstRGBA)
                (for_pixels (Zrange 0 height) (Zrange 0 width)) h in
  Ok (dstRGBA, h).

(** [PerformanceOptions] *)
Record PerformanceOptions : Type := mkPerf {
  MaxGoroutines : Z;
  EnableParallelProcessing : bool;
  MinSizeForParallel : Z
}.

(** The number of goroutines [grayscaleParallel] starts. *)
Definition numGoroutines (NumCPU : Z) (opts : PerformanceOptions) (height : Z) : Z :=
  let n := MaxGoroutines opts in
  let n := if n <=? 0 then NumCPU else n in
  if height <? n then height else n.

(** The strip of goroutine [goroutineID]: rows [startRow] up to, not
    including, [endRow]. *)
Definition startRow (rowsPerGoroutine goroutineID : Z) : Z := goroutineID * rowsPerGoroutine.

Definition endRow (n height rowsPerGoroutine goroutineID : Z) : Z :=
  if goroutineID =? n - 1 then height
  else startRow rowsPerGoroutine goroutineID + rowsPerGoroutine.

(** The body of the loop nest inside each goroutine. *)
Definition grayscaleParallel_body (bounds : image_Rectangle) (srcRGBA dstRGBA : image_RGBA)
    (yx : Z * Z) : Heap -> outcome Heap :=
  let '(y, x) := yx in
  let rowStart := (y - Y (Min bounds)) * Stride srcRGBA + (0 - X (Min bounds)) * 4 in
  let pixelIdx := rowStart + x * 4 in
  let dstRowStart := (y - Y (Min bounds)) * Stride dstRGBA + (0 - X (Min bounds)) * 4 in
  let dstPixelIdx := dstRowStart + x * 4 in
  grayPixel srcRGBA dstRGBA pixelIdx dstPixelIdx.

(** The iterations each goroutine is started with. *)
Definition strips (n width height : Z) : list (list (Z * Z)) :=
  let rowsPerGoroutine := Z.quot height n in
  map (fun goroutineID =>
         for_pixels (Zrange (startRow rowsPerGoroutine goroutineID)
                            (endRow n height rowsPerGoroutine goroutineID))
                    (Zrange 0 width))
      (Zrange 0 n).

Definition grayscaleParallel_image (NumCPU : Z) (opts : PerformanceOptions) (sched : list nat)
    (img : image_Image) (h : Heap) : outcome (image_RGBA * Heap) :=
  let* bounds := image_Bounds img in
  let width := Dx bounds in
  let height := Dy bounds in
  let* '(srcRGBA, h) := toRGBA img h in
  let* '(dstRGBA, h) := image_NewRGBA bounds h in
  let n := numGoroutines NumCPU opts height in
  if n =? 0 then Panic DivideByZero
  else
    let* h := run_sched (grayscaleParallel_body bounds srcRGBA dstRGBA) sched
                        (strips n width height) h in
    Ok (dstRGBA, h).

(** ** The pool of RGBA buffers ([gopiq.go]) *)

(** [rgbaPool] holds the images put back and not handed out again.  [Get]
    hands out one of them or, when it finds none, the image [New] makes;
    which one it finds is not for the caller to say, and is the parameter
    [pick] here.  The pool owns its images: whoever puts an image back
    does not use it any more. *)
Abbreviation Pool := (list image_RGBA).

Definition rgbaPool_New (h : Heap) : outcome (image_RGBA * Heap) :=
  image_NewRGBA (image_Rect 0 0 100 100) h.

Definition rgbaPool_Get (pick : option nat) (pool : Pool) (h : Heap)
  : outcome (image_RGBA * Pool * Heap) :=
  let made := let* '(img, h) := rgbaPool_New h in Ok (img, pool, h) in
  match pick with
  | Some k =>
      match pool !! k with
      | Some img => Ok (img, delete k pool, h)
      | None => made
      end
  | None => made
  end.

Definition rgbaPool_Put (img : image_RGBA) (pool : Pool) : Pool := pool ++ [img].

(** getPooledRGBA *)
Definition getPooledRGBA (pick : option nat) (bounds : image_Rectangle) (pool : Pool) (h : Heap)
  : outcome (image_RGBA * Pool * Heap) :=
  let* '(img, pool, h) := rgbaPool_Get pick pool h in
  let width := Dx bounds in
  let height := Dy bounds in
  if (Dx (Rect img) <? width) || (Dy (Rect img) <? height) then
    let* '(img, h) := image_NewRGBA bounds h in
    Ok (img, pool, h)
  else
    let pixelsNeeded := width * height * 4 in
    if s_len (Pix img) <? pixelsNeeded then
      let '(pix, h) := make h pixelsNeeded in
      Ok (mkRGBA pix (4 * width) bounds, pool, h)
    else
      let* h := run (fun i h => slice_set h (Pix img) i 0) (Zrange 0 pixelsNeeded) h in
      Ok (mkRGBA (Pix img) (4 * width) bounds, pool, h).

(** returnPooledRGBA *)
Definition returnPooledRGBA (img : image_RGBA) (pool : Pool) : Pool :=
  if Dx (Rect img) * Dy (Rect img) <=? 2000 * 2000 then rgbaPool_Put img pool else pool.

(** ** Errors *)

(** The error values of the package.  Each constructor is one [fmt.Errorf]
    call site with the values it formats; [ErrWrap] is a [%w] wrapping with
    its context; [ErrLibrary] is an error made by a collaborator. *)
Inductive error : Type :=
  | ErrNilImage                                        (* initial image cannot be nil *)
  | ErrEmptyInput                                      (* input byte slice is empty *)
  | ErrNoImage                                         (* no image available to convert to bytes *)
  | ErrCropDimensions (width height : Z)               (* crop dimensions must be positive *)
  | ErrCropOutOfBounds (cropRect bounds : image_Rectangle)
  | ErrResizeDimensions (width height : Z)             (* resize dimensions must be positive *)
  | ErrEmptyText                                       (* watermark text cannot be empty *)
  | ErrGIFEncoding                                     (* GIF encoding is not directly supported *)
  | ErrUnsupportedFormat (name : string)               (* unsupported image format for encoding *)
  | ErrLibrary (msg : string)
  | ErrWrap (context : string) (cause : error).

(** ** formats.go *)

(** [ImageFormat] is an integer type; the named tags are its first values. *)
Definition ImageFormat : Type := Z.
Definition FormatUnknown : ImageFormat := 0.
Definition FormatJPEG : ImageFormat := 1.
Definition FormatPNG : ImageFormat := 2.
Definition FormatGIF : ImageFormat := 3.

Definition ImageFormat_String (f : ImageFormat) : string :=
  if f =? FormatJPEG then "jpeg"
  else if f =? FormatPNG then "png"
  else if f =? FormatGIF then "gif"
  else "unknown".

(** [strings.ToLower], which [FormatFromString] applies to its argument.
    On a string of ASCII bytes it maps the letters [A] to [Z] to [a] to [z]
    and keeps every other byte; a string with a byte of 0x80 or more goes
    through the Unicode case tables, which are outside the package and a
    parameter here. *)
Definition is_upper (c : Ascii.ascii) : bool :=
  (65 <=? Ascii.nat_of_ascii c)%nat && (Ascii.nat_of_ascii c <=? 90)%nat.

Definition lower_byte (c : Ascii.ascii) : Ascii.ascii :=
  if is_upper c then Ascii.ascii_of_nat (Ascii.nat_of_ascii c + 32) else c.

Fixpoint isASCII (s : string) : bool :=
  match s with
  | EmptyString => true
  | String c s' => (Ascii.nat_of_ascii c <? 128)%nat && isASCII s'
  end.

Fixpoint map_bytes (f : Ascii.ascii -> Ascii.ascii) (s : string) : string :=
  match s with
  | EmptyString => EmptyString
  | String c s' => String (f c) (map_bytes f s')
  end.

Definition strings_ToLower (unicode_ToLower : string -> string) (s : string) : string :=
  if isASCII s then map_bytes lower_byte s else unicode_ToLower s.

(** FormatFromString *)
Definition FormatFromString (unicode_ToLower : string -> string) (s : string) : ImageFormat :=
  let l := strings_ToLower unicode_ToLower s in
  if String.eqb l "jpeg" || String.eqb l "jpg" then FormatJPEG
  else if String.eqb l "png" then FormatPNG
  else if String.eqb l "gif" then FormatGIF
  else FormatUnknown.

(** What a decoder hands back: a fresh RGBA image with its bytes, or an
    image of another kind. *)
Inductive Decoded : Type :=
  | DecodedRGBA (rect : image_Rectangle) (pix : list Z)
  | DecodedOther (bounds : image_Rectangle) (at_ : Z -> Z -> Color16).

(** ** Collaborators outside the package *)

Record Collaborators : Type := mkCollaborators {
  Font : Type;
  Face : Type;
  runtime_NumCPU : Z;
  image_Decode : list Z -> Decoded + error;
  jpeg_Encode : Heap -> image_Image -> Z -> list Z + error;
  png_Encode : Heap -> image_Image -> list Z + error;
  goregular_TTF : list Z;
  opentype_Parse : list Z -> Font + error;
  (* size in points; the resolution and the hinting are constants of the call *)
  opentype_NewFace : Font -> spec_float -> Face + error;
  (* Height, Ascent, Descent in 26.6 fixed point *)
  face_Metrics : Face -> Z * Z * Z;
  drawer_BoundString : Face -> string -> image_Rectangle;
  (* the bytes of the destination after the text is drawn on it *)
  drawer_DrawString : Face -> Color16 -> image_Point -> string -> Heap -> image_RGBA -> list Z;
  (* the bytes of the destination after the source is resampled onto it *)
  catmullRom_Scale : Heap -> image_RGBA -> image_Rectangle -> image_Image -> image_Rectangle -> list Z
}.

(** A collaborator writes into the destination it is given and nowhere
    else; the destination is always a whole fresh array here. *)
Definition fit (n : nat) (l : list Z) : list Z := take n (l ++ replicate n 0).

Definition overwrite (h : Heap) (dst : image_RGBA) (bytes : list Z) : Heap :=
  match h !! s_arr (Pix dst) with
  | Some a => <[s_arr (Pix dst) := fit (length a) bytes]> h
  | None => h
  end.

Section Package.

Context (E : Collaborators).

(** decodeImage *)
Definition decodeImage (data : list Z) : Decoded + error :=
  match image_Decode E data with
  | inr e => inr (ErrWrap "failed to decode image" e)
  | inl img => inl img
  end.

(** encodeImage *)
Definition encodeImage (h : Heap) (img : image_Image) (format : ImageFormat) : list Z + error :=
  if format =? FormatJPEG then jpeg_Encode E h img 90
  else if format =? FormatPNG then png_Encode E h img
  else if format =? FormatGIF then inr ErrGIFEncoding
  else inr (ErrUnsupportedFormat (ImageFormat_String format)).

(** ** gopiq.go: the processor *)

Definition DefaultPerformanceOptions : PerformanceOptions :=
  mkPerf (runtime_NumCPU E) true 10000.

(** [ImageProcessor] without its lock: calls on one processor are
    serialised by the lock, and are embedded as state transformers. *)
Record ImageProcessor : Type := mkIP {
  currentImage : option image_Image;   (* None is the nil interface *)
  err : option error;                  (* None is nil *)
  perfOpts : PerformanceOptions
}.

(** The program state: pixel memory and the processors allocated so far.
    A [*ImageProcessor] is an index into [procs]. *)
Record Store : Type := mkStore {
  mem : Heap;
  procs : list ImageProcessor
}.

Definition deref (s : Store) (ip : nat) : outcome ImageProcessor :=
  match procs s !! ip with
  | Some p => Ok p
  | None => Panic NilDereference
  end.

Definition nonnil {A} (o : option A) : outcome A :=
  match o with
  | Some a => Ok a
  | None => Panic NilDereference
  end.

(** [&ImageProcessor{...}] *)
Definition alloc (s : Store) (h : Heap) (p : ImageProcessor) : nat * Store :=
  (length (procs s), mkStore h (procs s ++ [p])).

(** [ip.err = e] *)
Definition set_err (s : Store) (ip : nat) (p : ImageProcessor) (e : error) : Store :=
  mkStore (mem s) (<[ip := mkIP (currentImage p) (Some e) (perfOpts p)]> (procs s)).

(** [ip.currentImage = img], with the memory the operation leaves *)
Definition set_image (s : Store) (h : Heap) (ip : nat) (p : ImageProcessor) (img : image_RGBA)
  : Store :=
  mkStore h (<[ip := mkIP (Some (ImgRGBA img)) (err p) (perfOpts p)]> (procs s)).

Definition zeroPerf : PerformanceOptions := mkPerf 0 false 0.

Definition New (img : option image_Image) (s : Store) : nat * Store :=
  match img with
  | None => alloc s (mem s) (mkIP None (Some ErrNilImage) zeroPerf)
  | Some i => alloc s (mem s) (mkIP (Some i) None DefaultPerformanceOptions)
  end.

Definition NewWithPerformanceOptions (img : option image_Image) (opts : PerformanceOptions)
    (s : Store) : nat * Store :=
  match img with
  | None => alloc s (mem s) (mkIP None (Some ErrNilImage) zeroPerf)
  | Some i => alloc s (mem s) (mkIP (Some i) None opts)
  end.

Definition SetPerformanceOptions (ip : nat) (opts : PerformanceOptions) (s : Store)
  : outcome (nat * Store) :=
  let* p := deref s ip in
  Ok (ip, mkStore (mem s) (<[ip := mkIP (currentImage p) (err p) opts]> (procs s))).

(** A decoded image placed in memory. *)
Definition place (d : Decoded) (h : Heap) : image_Image * Heap :=
  match d with
  | DecodedRGBA rect pix =>
      (ImgRGBA (mkRGBA (mkSlice (length h) 0 (Z.of_nat (length pix))) (4 * Dx rect) rect),
       h ++ [pix])
  | DecodedOther bounds at_ => (ImgOther bounds at_, h)
  end.

Definition FromBytes (data : list Z) (s : Store) : nat * Store :=
  if (length data =? 0)%nat then alloc s (mem s) (mkIP None (Some ErrEmptyInput) zeroPerf)
  else
    match decodeImage data with
    | inr e => alloc s (mem s) (mkIP None (Some e) zeroPerf)
    | inl d =>
        let '(img, h) := place d (mem s) in
        alloc s h (mkIP (Some img) None DefaultPerformanceOptions)
    end.

Definition ToBytes (ip : nat) (format : ImageFormat) (s : Store)
  : outcome (option (list Z) * option error) :=
  let* p := deref s ip in
  match err p with
  | Some e => Ok (None, Some e)
  | None =>
      match currentImage p with
      | None => Ok (None, Some ErrNoImage)
      | Some img =>
          match encodeImage (mem s) img format with
          | inr e => Ok (None, Some (ErrWrap "failed to encode image to bytes" e))
          | inl bytes => Ok (Some bytes, None)
          end
      end
  end.

Definition Image (ip : nat) (s : Store) : outcome (option image_Image * option error) :=
  let* p := deref s ip in
  Ok (currentImage p, err p).

Definition Err (ip : nat) (s : Store) : outcome (option error) :=
  let* p := deref s ip in
  Ok (err p).

Definition Clone (ip : nat) (s : Store) : outcome (nat * Store) :=
  let* p := deref s ip in
  Ok (alloc s (mem s) (mkIP (currentImage p) (err p) (perfOpts p))).

Definition Crop (ip : nat) (x y width height : Z) (s : Store) : outcome (nat * Store) :=
  let* p := deref s ip in
  match err p with
  | Some _ => Ok (ip, s)
  | None =>
      if (width <=? 0) || (height <=? 0)
      then Ok (ip, set_err s ip p (ErrCropDimensions width height))
      else
        let* img := nonnil (currentImage p) in
        let* bounds := image_Bounds img in
        let cropRect := image_Rect x y (x + width) (y + height) in
        if negb (In_rect cropRect bounds)
        then Ok (ip, set_err s ip p (ErrCropOutOfBounds cropRect bounds))
        else
          let* '(croppedImg, h) := newRGBA (image_Rect 0 0 width height) (mem s) in
          let* h := draw_Draw croppedImg (Rect croppedImg) img (Min cropRect) h in
          Ok (ip, set_image s h ip p croppedImg)
  end.

Definition Resize (ip : nat) (width height : Z) (s : Store) : outcome (nat * Store) :=
  let* p := deref s ip in
  match err p with
  | Some _ => Ok (ip, s)
  | None =>
      if (width <=? 0) || (height <=? 0)
      then Ok (ip, set_err s ip p (ErrResizeDimensions width height))
      else
        let* img := nonnil (currentImage p) in
        let* originalBounds := image_Bounds img in
        let dstRect := image_Rect 0 0 width height in
        let* '(newImg, h) := newRGBA dstRect (mem s) in
        let h := overwrite h newImg (catmullRom_Scale E h newImg dstRect img originalBounds) in
        Ok (ip, set_image s h ip p newImg)
  end.

Definition Grayscale (ip : nat) (s : Store) : outcome (nat * Store) :=
  let* p := deref s ip in
  match err p with
  | Some _ => Ok (ip, s)
  | None =>
      let* img := nonnil (currentImage p) in
      let* '(dstRGBA, h) := Grayscale_image img (mem s) in
      Ok (ip, set_image s h ip p dstRGBA)
  end.

Definition grayscaleParallel (sched : list nat) (ip : nat) (p : ImageProcessor) (s : Store)
  : outcome (nat * Store) :=
  let* img := nonnil (currentImage p) in
  let* '(dstRGBA, h) :=
    grayscaleParallel_image (runtime_NumCPU E) (perfOpts p) sched img (mem s) in
  Ok (ip, set_image s h ip p dstRGBA).

Definition grayscaleDirect (ip : nat) (p : ImageProcessor) (s : Store) : outcome (nat * Store) :=
  let* img := nonnil (currentImage p) in
  let* '(dstRGBA, h) := grayscaleDirect_image img (mem s) in
  Ok (ip, set_image s h ip p dstRGBA).

(** [sched] is the order in which the scheduler lets the goroutines run. *)
Definition GrayscaleFast (sched : list nat) (ip : nat) (s : Store) : outcome (nat * Store) :=
  let* p := deref s ip in
  match err p with
  | Some _ => Ok (ip, s)
  | None =>
      let* img := nonnil (currentImage p) in
      let* bounds := image_Bounds img in
      let width := Dx bounds in
      let height := Dy bounds in
      if EnableParallelProcessing (perfOpts p) && (MinSizeForParallel (perfOpts p) <=? width * height)
      then grayscaleParallel sched ip p s
      else grayscaleDirect ip p s
  end.

(** ** The text watermark *)

Definition WatermarkPosition : Type := Z.
Definition PositionTopLeft : WatermarkPosition := 0.
Definition PositionTopRight : WatermarkPosition := 1.
Definition PositionBottomLeft : WatermarkPosition := 2.
Definition PositionBottomRight : WatermarkPosition := 3.
Definition PositionCenter : WatermarkPosition := 4.

Record watermarkConfig : Type := mkWC {
  Text : string;
  FontPath : string;
  FontBytes : list Z;
  FontSize : spec_float;
  Color : Color16;
  Position : WatermarkPosition;
  OffsetX : spec_float;
  OffsetY : spec_float
}.

Definition defaultWatermarkConfig : watermarkConfig :=
  mkWC EmptyString EmptyString (goregular_TTF E) (float64_of_int 24)
       (mkColor16 65535 65535 65535 32896)   (* color.RGBA{255, 255, 255, 128} *)
       PositionBottomRight (float64_of_int 10) (float64_of_int 10).

(** A functional option updates the configuration it is applied to. *)
Definition WatermarkOption : Type := watermarkConfig -> watermarkConfig.

Definition WithFontPath (path : string) : WatermarkOption :=
  fun wc => mkWC (Text wc) path (FontBytes wc) (FontSize wc) (Color wc) (Position wc)
                 (OffsetX wc) (OffsetY wc).
Definition WithFontBytes (data : list Z) : WatermarkOption :=
  fun wc => mkWC (Text wc) (FontPath wc) data (FontSize wc) (Color wc) (Position wc)
                 (OffsetX wc) (OffsetY wc).
Definition WithFontSize (size : spec_float) : WatermarkOption :=
  fun wc => mkWC (Text wc) (FontPath wc) (FontBytes wc) size (Color wc) (Position wc)
                 (OffsetX wc) (OffsetY wc).
Definition WithColor (c : Color16) : WatermarkOption :=
  fun wc => mkWC (Text wc) (FontPath wc) (FontBytes wc) (FontSize wc) c (Position wc)
                 (OffsetX wc) (OffsetY wc).
Definition WithPosition (pos : WatermarkPosition) : WatermarkOption :=
  fun wc => mkWC (Text wc) (FontPath wc) (FontBytes wc) (FontSize wc) (Color wc) pos
                 (OffsetX wc) (OffsetY wc).
Definition WithOffset (x y : spec_float) : WatermarkOption :=
  fun wc => mkWC (Text wc) (FontPath wc) (FontBytes wc) (FontSize wc) (Color wc) (Position wc)
                 x y.

Definition with_text (text : string) (wc : watermarkConfig) : watermarkConfig :=
  mkWC text (FontPath wc) (FontBytes wc) (FontSize wc) (Color wc) (Position wc)
       (OffsetX wc) (OffsetY wc).

(** Pixels from 26.6 fixed point: [float64(v) / 64] *)
Definition pixels_of_fixed (v : Z) : spec_float := fdiv (float64_of_int v) (float64_of_int 64).

(** The switch over [cfg.Position]: where the text baseline starts. *)
Definition anchor (cfg : watermarkConfig) (bounds : image_Rectangle)
    (textWidth textHeight ascent descent : spec_float) : spec_float * spec_float :=
  let two := float64_of_int 2 in
  let right := fsub (fsub (float64_of_int (Dx bounds)) textWidth) (OffsetX cfg) in
  let bottom := fsub (fsub (float64_of_int (Dy bounds)) (OffsetY cfg)) descent in
  if Position cfg =? PositionTopLeft then (OffsetX cfg, fadd (OffsetY cfg) ascent)
  else if Position cfg =? PositionTopRight then (right, fadd (OffsetY cfg) ascent)
  else if Position cfg =? PositionBottomLeft then (OffsetX cfg, bottom)
  else if Position cfg =? PositionBottomRight then (right, bottom)
  else if Position cfg =? PositionCenter then
    (fdiv (fsub (float64_of_int (Dx bounds)) textWidth) two,
     fadd (fdiv (fsub (float64_of_int (Dy bounds)) textHeight) two) ascent)
  else (S754_zero false, S754_zero false).

Definition AddTextWatermark (text : string) (options : list WatermarkOption) (ip : nat)
    (s : Store) : outcome (nat * Store) :=
  let* p := deref s ip in
  match err p with
  | Some _ => Ok (ip, s)
  | None =>
      if String.eqb text EmptyString then Ok (ip, set_err s ip p ErrEmptyText)
      else
        let cfg := fold_left (fun c opt => opt c) options (with_text text defaultWatermarkConfig) in
        match opentype_Parse E (FontBytes cfg) with
        | inr e => Ok (ip, set_err s ip p (ErrWrap "failed to parse font bytes for watermark" e))
        | inl fnt =>
            match opentype_NewFace E fnt (FontSize cfg) with
            | inr e =>
                Ok (ip, set_err s ip p (ErrWrap "failed to create font face for watermark" e))
            | inl face =>
                let* img := nonnil (currentImage p) in
                let* bounds := image_Bounds img in
                let* '(imgWithWatermark, h) := newRGBA bounds (mem s) in
                let* h := draw_Draw imgWithWatermark bounds img (Min bounds) h in
                let textBounds := drawer_BoundString E face (Text cfg) in
                let textWidth := pixels_of_fixed (X (Max textBounds) - X (Min textBounds)) in
                let '(mHeight, mAscent, mDescent) := face_Metrics E face in
                let textHeight := pixels_of_fixed mHeight in
                let '(x, y) := anchor cfg bounds textWidth textHeight
                                      (pixels_of_fixed mAscent) (pixels_of_fixed mDescent) in
                let dot := Pt (Z.shiftl (int_of_float64 x) 6) (Z.shiftl (int_of_float64 y) 6) in
                let h := overwrite h imgWithWatermark
                           (drawer_DrawString E face (Color cfg) dot (Text cfg) h imgWithWatermark) in
                Ok (ip, set_image s h ip p imgWithWatermark)
            end
        end
  end.

End Package.

(** ** The earlier revision of Grayscale

    The second copy of [gopiq.go] is an earlier revision of the file,
    without performance options; [performance_test.go] keeps its
    [Grayscale] as the slow method.  It reads every pixel with [At],
    converts it with [color.GrayModel] and stores it with [Set]. *)

(** [image.Point{x, y}.In(r)] *)
Definition Point_In (x y : Z) (r : image_Rectangle) : bool :=
  (X (Min r) <=? x) && (x <? X (Max r)) && (Y (Min r) <=? y) && (y <? Y (Max r)).

(** [img.At(x, y).RGBA()]: an RGBA image widens each byte [v] to [v * 0x101],
    and is transparent black outside its rectangle. *)
Definition At (h : Heap) (img : image_Image) (x y : Z) : outcome Color16 :=
  match img with
  | ImgRGBA m =>
      if Point_In x y (Rect m) then
        let i := PixOffset m x y in
        let* r := slice_get h (Pix m) i in
        let* g := slice_get h (Pix m) (i + 1) in
        let* b := slice_get h (Pix m) (i + 2) in
        let* a := slice_get h (Pix m) (i + 3) in
        Ok (mkColor16 (r * 257) (g * 257) (b * 257) (a * 257))
      else Ok (mkColor16 0 0 0 0)
  | ImgOther _ at_ => Ok (at_ x y)
  | ImgNilPointer => Panic NilDereference
  end.

(** [color.GrayModel.Convert(c).(color.Gray).Y], on 16-bit channels:
    [(19595*r + 38470*g + 7471*b + 1<<15) >> 24] *)
Definition GrayModel_Convert (c : Color16) : Z :=
  Z.shiftr (19595 * c_r c + 38470 * c_g c + 7471 * c_b c + Z.shiftl 1 15) 24 mod 256.

(** [grayImg.Set(x, y, color.Gray{Y})]: the gray level in the three colour
    channels, alpha opaque; nothing outside the rectangle. *)
Definition Set_Gray (m : image_RGBA) (x y gray : Z) (h : Heap) : outcome Heap :=
  if Point_In x y (Rect m) then set_pixel h (Pix m) (PixOffset m x y) (gray, gray, gray, 255)
  else Ok h.

Definition Grayscale_earlier_body (img : image_Image) (grayImg : image_RGBA) (yx : Z * Z) (h : Heap)
  : outcome Heap :=
  let '(y, x) := yx in
  let* originalColor := At h img x y in
  let grayColor := GrayModel_Convert originalColor in
  Set_Gray grayImg x y grayColor h.

Definition Grayscale_earlier (ip : nat) (s : Store) : outcome (nat * Store) :=
  let* p := deref s ip in
  match err p with
  | Some _ => Ok (ip, s)
  | None =>
      let* img := nonnil (currentImage p) in
      let* bounds := image_Bounds img in
      let* '(grayImg, h) := newRGBA bounds (mem s) in
      let* h := run (Grayscale_earlier_body img grayImg)
                    (for_pixels (Zrange (Y (Min bounds)) (Y (Max bounds)))
                                (Zrange (X (Min bounds)) (X (Max bounds)))) h in
      Ok (ip, set_image s h ip p grayImg)
  end.

(** ** Calls, as data *)

(** The operations that write to a processor. *)
Inductive Call : Type :=
  | CallSetPerformanceOptions (opts : PerformanceOptions)
  | CallCrop (x y width height : Z)
  | CallResize (width height : Z)
  | CallGrayscale
  | CallGrayscaleFast (sched : list nat)
  | CallAddTextWatermark (text : string) (options : list WatermarkOption).

Definition call (E : Collaborators) (c : Call) (ip : nat) (s : Store) : outcome (nat * Store) :=
  match c with
  | CallSetPerformanceOptions opts => SetPerformanceOptions ip opts s
  | CallCrop x y width height => Crop ip x y width height s
  | CallResize width height => Resize E ip width height s
  | CallGrayscale => Grayscale ip s
  | CallGrayscaleFast sched => GrayscaleFast E sched ip s
  | CallAddTextWatermark text options => AddTextWatermark E text options ip s
  end.

(** Calls made one after the other on the same processor. *)
Fixpoint calls (E : Collaborators) (cs : list Call) (ip : nat) (s : Store) : outcome Store :=
  match cs with
  | [] => Ok s
  | c :: cs' => let* r := call E c ip s in calls E cs' ip (snd r)
  end.

(** Everything a client can do with the package. *)
Inductive Action : Type :=
  | ActNew (img : option image_Image)
  | ActNewWithPerformanceOptions (img : option image_Image) (opts : PerformanceOptions)
  | ActFromBytes (data : list Z)
  | ActClone (ip : nat)
  | ActCall (c : Call) (ip : nat).

Definition perform (E : Collaborators) (a : Action) (s : Store) : outcome Store :=
  match a with
  | ActNew img => Ok (snd (New E img s))
  | ActNewWithPerformanceOptions img opts => Ok (snd (NewWithPerformanceOptions img opts s))
  | ActFromBytes data => Ok (snd (FromBytes E data s))
  | ActClone ip => let* r := Clone ip s in Ok (snd r)
  | ActCall c ip => let* r := call E c ip s in Ok (snd r)
  end.

(** The interface value an action hands to a constructor, when it is not
    nil. *)
Definition handed (a : Action) : option image_Image :=
  match a with
  | ActNew img => img
  | ActNewWithPerformanceOptions img _ => img
  | _ => None
  end.

(** The stores a program reaches: it starts with no processor and whatever
    pixel memory, and goes on through the package, handing to the
    constructors only images that satisfy [given]. *)
Inductive reachable (E : Collaborators) (given : image_Image -> Prop) : Store -> Prop :=
  | reach_start (h : Heap) : reachable E given (mkStore h [])
  | reach_perform (s s' : Store) (a : Action) :
      reachable E given s -> (forall img, handed a = Some img -> given img) ->
      perform E a s = Ok s' -> reachable E given s'.

(** No condition on the images handed to the constructors. *)
Definition any_image (img : image_Image) : Prop := True.

(** An interface value that holds an image, not a nil pointer. *)
Definition usable (img : image_Image) : Prop := img <> ImgNilPointer.

(** A processor without an error has an image. *)
Definition has_image_unless_failed (s : Store) : Prop :=
  forall ip p, procs s !! ip = Some p -> err p = None -> currentImage p <> None.

(** A processor without an error has an image that is not a nil pointer. *)
Definition has_usable_image_unless_failed (s : Store) : Prop :=
  forall ip p, procs s !! ip = Some p -> err p = None ->
    exists img, currentImage p = Some img /\ usable img.

(** The chainable transformations: every call but the change of options. *)
Definition chainable (c : Call) : bool :=
  match c with
  | CallSetPerformanceOptions _ => false
  | _ => true
  end.

(** The formats [encodeImage] has an encoder for. *)
Definition has_encoder (format : ImageFormat) : bool :=
  (format =? FormatJPEG) || (format =? FormatPNG).

(** ** Sample collaborators and stores *)

Definition sample_env : Collaborators :=
  mkCollaborators unit unit 4
    (fun _ => inr (ErrLibrary "image: unknown format"))
    (fun _ _ _ => inl [])
    (fun _ _ => inl [])
    []
    (fun _ => inl tt)
    (fun _ _ => inl tt)
    (fun _ => (0, 0, 0))
    (fun _ _ => mkRect (Pt 0 0) (Pt 0 0))
    (fun _ _ _ _ h dst => default [] (h !! s_arr (Pix dst)))
    (fun _ _ _ _ _ => []).

(** The JPEG encoder refuses an image with a side of 65536 pixels or more. *)
Definition jpeg_limit_env : Collaborators :=
  mkCollaborators unit unit 4
    (fun _ => inr (ErrLibrary "image: unknown format"))
    (fun _ img _ =>
       if (65536 <=? Dx (Bounds img)) || (65536 <=? Dy (Bounds img))
       then inr (ErrLibrary "jpeg: image is too large to encode")
       else inl [])
    (fun _ _ => inl [])
    []
    (fun _ => inl tt)
    (fun _ _ => inl tt)
    (fun _ => (0, 0, 0))
    (fun _ _ => mkRect (Pt 0 0) (Pt 0 0))
    (fun _ _ _ _ h dst => default [] (h !! s_arr (Pix dst)))
    (fun _ _ _ _ _ => []).

(** One RGBA image of two by two pixels at the origin, and a processor on it. *)
Definition sample_heap : Heap :=
  [[3; 0; 0; 255;  14; 14; 14; 200;  100; 150; 200; 255;  255; 255; 255; 7]].

Definition sample_image : image_Image :=
  ImgRGBA (mkRGBA (mkSlice 0 0 16) 8 (image_Rect 0 0 2 2)).

Definition sample_store : Store :=
  mkStore sample_heap [mkIP (Some sample_image) None (mkPerf 2 true 0)].

(** A processor born failed. *)
Definition failed_store : Store :=
  mkStore sample_heap [mkIP None (Some ErrNilImage) zeroPerf].

(** A processor on [image.NewRGBA(image.Rect(1, 0, 2, 1))] with its pixel
    set to (100, 150, 200, 255), one goroutine, no size threshold. *)
Definition offset_image : image_Image :=
  ImgRGBA (mkRGBA (mkSlice 0 0 4) 4 (image_Rect 1 0 2 1)).

Definition offset_store : Store :=
  mkStore [[100; 150; 200; 255]] [mkIP (Some offset_image) None (mkPerf 1 true 0)].

(** An empty image with the same options. *)
Definition empty_store : Store :=
  mkStore [[]] [mkIP (Some (ImgRGBA (mkRGBA (mkSlice 0 0 0) 0 (image_Rect 0 0 0 0)))) None
                     (mkPerf 1 true 0)].

(** A processor without an error on an image 65536 pixels wide. *)
Definition wide_store : Store :=
  mkStore [] [mkIP (Some (ImgOther (image_Rect 0 0 65536 1) (fun _ _ => mkColor16 0 0 0 65535)))
                   None zeroPerf].

(** A processor on an image with sixteen bits a channel, such as an
    [image.RGBA64]: its only pixel is (0x1234, 0x5678, 0x9abc, 0xffff). *)
Definition deep_image : image_Image :=
  ImgOther (image_Rect 0 0 1 1) (fun _ _ => mkColor16 4660 22136 39612 65535).

Definition deep_store : Store :=
  mkStore [] [mkIP (Some deep_image) None zeroPerf].

(** * The vocabulary of the statements *)

(** ** Frames *)

(** A step that returns leaves the number of arrays as it was and touches
    the destination array only. *)
Definition touches_only (d : nat) (f : Heap -> outcome Heap) : Prop :=
  forall h h', f h = Ok h' ->
    length h' = length h /\ forall j, j <> d -> h' !! j = h !! j.

(** The memory grew at its end; what was there is as it was. *)
Definition extends (h h' : Heap) : Prop := exists t, h' = h ++ t.

(** Only processor [ip] may have changed, and the memory only grew; the
    processor kept its image and its error, or it has an error, or it has
    an RGBA image. *)
Definition frame (ip : nat) (s s' : Store) : Prop :=
  extends (mem s) (mem s') /\ length (procs s') = length (procs s) /\
  (forall jp, jp <> ip -> procs s' !! jp = procs s !! jp) /\
  (forall p, procs s !! ip = Some p ->
     exists p', procs s' !! ip = Some p' /\
       ((currentImage p' = currentImage p /\ err p' = err p) \/ err p' <> None \/
        exists m, currentImage p' = Some (ImgRGBA m))).

(** ** Rendered buffers *)

(** Channel [c] of a pixel. *)
Definition chan (c : Z) (p : Z * Z * Z * Z) : Z :=
  let '(r, g, b, a) := p in
  if c =? 0 then r else if c =? 1 then g else if c =? 2 then b else a.

(** The bytes of a [w] by [hgt] buffer without padding whose pixel [(x, y)]
    is [F x y]. *)
Definition render (w hgt : Z) (F : Z -> Z -> Z * Z * Z * Z) : list Z :=
  map (fun k => let i := Z.of_nat k in chan (i mod 4) (F ((i / 4) mod w) ((i / 4) / w)))
      (seq 0 (Z.to_nat (4 * w * hgt))).

Definition write4 (dc : list Z) (i : Z) (p : Z * Z * Z * Z) : list Z :=
  let '(r, g, b, a) := p in
  <[Z.to_nat (i + 3) := a]> (<[Z.to_nat (i + 2) := b]> (<[Z.to_nat (i + 1) := g]>
    (<[Z.to_nat i := r]> dc))).

Definition paint (w : Z) (F : Z -> Z -> Z * Z * Z * Z) (dc : list Z) (l : list (Z * Z)) : list Z :=
  foldl (fun dc yx => write4 dc (4 * (fst yx * w + snd yx)) (F (snd yx) (fst yx))) dc l.

Definition in_image (w hgt : Z) (yx : Z * Z) : Prop :=
  0 <= fst yx < hgt /\ 0 <= snd yx < w.

(** The body, run on the old heap followed by the buffer being filled,
    writes pixel [(x, y)] of [F] at its place and does nothing else. *)
Definition paints (h0 : Heap) (w hgt : Z) (F : Z -> Z -> Z * Z * Z * Z)
    (body : Z * Z -> Heap -> outcome Heap) : Prop :=
  forall yx dc, in_image w hgt yx -> length dc = Z.to_nat (4 * w * hgt) ->
    body yx (h0 ++ [dc]) =
    Ok (h0 ++ [write4 dc (4 * (fst yx * w + snd yx)) (F (snd yx) (fst yx))]).

(** ** Well-formed images and the pixels they show *)

(** An RGBA image is well formed in a heap when its window is valid and
    holds every pixel of its rectangle. *)
Definition wf_RGBA (h : Heap) (m : image_RGBA) : Prop :=
  slice_valid h (Pix m) /\ 0 <= Dx (Rect m) /\ 0 <= Dy (Rect m) /\ 0 <= Stride m /\
  (0 < Dx (Rect m) -> 0 < Dy (Rect m) ->
   (Dy (Rect m) - 1) * Stride m + 4 * Dx (Rect m) <= s_len (Pix m)).

Definition wf_image (h : Heap) (img : image_Image) : Prop :=
  match img with
  | ImgRGBA m => wf_RGBA h m
  | ImgOther b _ => 0 <= Dx b /\ 0 <= Dy b
  | ImgNilPointer => False
  end.

(** Reading without the bounds check, for statements. *)
Definition peek (h : Heap) (s : Slice) (i : Z) : Z :=
  match slice_get h s i with
  | Ok v => v
  | Panic _ => 0
  end.

Definition peek4 (h : Heap) (s : Slice) (i : Z) : Z * Z * Z * Z :=
  (peek h s i, peek h s (i + 1), peek h s (i + 2), peek h s (i + 3)).

(** The 8-bit pixel an image shows at [(x, y)]. *)
Definition pixel_at (h : Heap) (img : image_Image) (x y : Z) : Z * Z * Z * Z :=
  match src_pixel h img x y with
  | Ok p => p
  | Panic _ => (0, 0, 0, 0)
  end.

(** The colour an image shows at a point, as [At] returns it. *)
Definition color_at (h : Heap) (img : image_Image) (x y : Z) : Color16 :=
  match At h img x y with
  | Ok c => c
  | Panic _ => mkColor16 0 0 0 0
  end.

(** What the grayscale engines make of a pixel. *)
Definition gray_of (p : Z * Z * Z * Z) : Z * Z * Z * Z :=
  let '(r, g, b, a) := p in
  let gray := luminosity r g b in
  (gray, gray, gray, a).

(** ** What the operations leave in memory *)

(** The image [image.NewRGBA(r)] returns in heap [h]. *)
Definition fresh_RGBA (h : Heap) (r : image_Rectangle) : image_RGBA :=
  mkRGBA (mkSlice (length h) 0 (4 * Dx r * Dy r)) (4 * Dx r) r.

Definition zeros (r : image_Rectangle) : list Z := replicate (Z.to_nat (4 * Dx r * Dy r)) 0.

(** The pixels an image shows, row by row without padding. *)
Definition pixels_of (h : Heap) (img : image_Image) : list Z :=
  let b := Bounds img in
  render (Dx b) (Dy b) (fun x y => pixel_at h img (X (Min b) + x) (Y (Min b) + y)).

(** What [toRGBA] allocates, and the image it returns. *)
Definition conv_arrays (h : Heap) (img : image_Image) : Heap :=
  match img with
  | ImgRGBA _ => []
  | ImgOther _ _ => [pixels_of h img]
  | ImgNilPointer => []
  end.

Definition as_RGBA (h : Heap) (img : image_Image) : image_RGBA :=
  match img with
  | ImgRGBA m => m
  | ImgOther b _ => fresh_RGBA h b
  | ImgNilPointer => fresh_RGBA h (Bounds img)
  end.

(** The bytes the grayscale engines leave in the destination. *)
Definition gray_pixels (h : Heap) (img : image_Image) : list Z :=
  let b := Bounds img in
  render (Dx b) (Dy b) (fun x y => gray_of (pixel_at h img (X (Min b) + x) (Y (Min b) + y))).

(** The image and the memory [Grayscale] leaves. *)
Definition gray_image (h : Heap) (img : image_Image) : image_RGBA :=
  fresh_RGBA (h ++ conv_arrays h img) (Bounds img).

Definition gray_heap (h : Heap) (img : image_Image) : Heap :=
  (h ++ conv_arrays h img) ++ [gray_pixels h img].

(** ** Words of the spec *)

(** The configured number of goroutines: [MaxGoroutines], or the number of
    CPUs when that is not positive. *)
Definition configured (NumCPU : Z) (opts : PerformanceOptions) : Z :=
  if MaxGoroutines opts <=? 0 then NumCPU else MaxGoroutines opts.

(** The iterations of goroutine [g], each with the number of its
    goroutine. *)
Definition tagged {I} (g : nat) (l : list I) : list (nat * I) := map (pair g) l.

(** The order in which a schedule lets the goroutines perform their
    iterations: the steps of the run, each with the number of the
    goroutine that performs it. *)
Fixpoint interleaving {I} (sched : list nat) (ws : list (list I)) : list (nat * I) :=
  match sched with
  | [] => concat (imap tagged ws)
  | g :: sched' =>
      match ws !! g with
      | Some (i :: rest) => (g, i) :: interleaving sched' (<[g := rest]> ws)
      | _ => interleaving sched' ws
      end
  end.

(** A 16-bit channel that went through a byte: its high byte, widened
    again as [RGBA()] widens the bytes of an RGBA image. *)
Definition through_byte (v : Z) : Z := (v / 256) mod 256 * 257.

Definition through_bytes (c : Color16) : Color16 :=
  mkColor16 (through_byte (c_r c)) (through_byte (c_g c)) (through_byte (c_b c))
            (through_byte (c_a c)).

(** What an RGBA copy of a pixel shows: an RGBA source is copied byte for
    byte, any other source through its high bytes. *)
Definition copied (img : image_Image) (c : Color16) : Color16 :=
  match img with
  | ImgRGBA _ => c
  | _ => through_bytes c
  end.

(** The spec's formula, in exact arithmetic: the integer nearest to
    [0.2126*R + 0.7152*G + 0.0722*B]. *)
Definition spec_gray (r g b : Z) : Z :=
  (2 * (2126 * r + 7152 * g + 722 * b) + 10000) / 20000.

(** A gray level the formula sends to itself or to the level below. *)
Definition gray_stable_or_one_less (g : Z) : bool :=
  (luminosity g g g =? g) || (luminosity g g g =? g - 1).

(** The computation does not panic on a nil dereference. *)
Definition no_nil {A} (m : outcome A) : Prop := m <> Panic NilDereference.

(** ** Words of the further properties *)

(** The largest byte slice the runtime makes on a 64-bit platform.
    [image.NewRGBA] refuses a rectangle whose byte count does not fit an
    [int], and [make] a length above this limit; running out of memory
    below it is not modelled. *)
Definition maxAlloc : Z := 2 ^ 48.

(** The rows and the pixel buffer of a [width] by [height] RGBA image are
    within the limit. *)
Definition allocatable (width height : Z) : Prop :=
  4 * width <= maxAlloc /\ 4 * height <= maxAlloc /\ 4 * width * height <= maxAlloc.


(** The tags with a name of their own. *)
Definition named (f : ImageFormat) : bool :=
  (f =? FormatJPEG) || (f =? FormatPNG) || (f =? FormatGIF).

(** The configuration [AddTextWatermark] works with: the defaults, the
    text, then the options in the order given. *)
Definition configure (E : Collaborators) (text : string) (options : list WatermarkOption)
  : watermarkConfig :=
  fold_left (fun c opt => opt c) options (with_text text (defaultWatermarkConfig E)).

(** The point the drawer starts at. *)
Definition watermark_dot (E : Collaborators) (face : Face E) (cfg : watermarkConfig)
    (bounds : image_Rectangle) : image_Point :=
  let textBounds := drawer_BoundString E face (Text cfg) in
  let textWidth := pixels_of_fixed (X (Max textBounds) - X (Min textBounds)) in
  let '(mHeight, mAscent, mDescent) := face_Metrics E face in
  let textHeight := pixels_of_fixed mHeight in
  let '(x, y) := anchor cfg bounds textWidth textHeight
                        (pixels_of_fixed mAscent) (pixels_of_fixed mDescent) in
  Pt (Z.shiftl (int_of_float64 x) 6) (Z.shiftl (int_of_float64 y) 6).

(** The error [AddTextWatermark] ends with on a processor that had none. *)
Definition watermark_error (E : Collaborators) (text : string) (options : list WatermarkOption)
  : option error :=
  if String.eqb text EmptyString then Some ErrEmptyText
  else
    match opentype_Parse E (FontBytes (configure E text options)) with
    | inr e => Some (ErrWrap "failed to parse font bytes for watermark" e)
    | inl fnt =>
        match opentype_NewFace E fnt (FontSize (configure E text options)) with
        | inr e => Some (ErrWrap "failed to create font face for watermark" e)
        | inl _ => None
        end
    end.

(** The processor has failed, or has an image that is well formed in memory
    and whose bounds satisfy [Q]. *)
Definition ready_with (Q : image_Rectangle -> Prop) (s : Store) (ip : nat) : Prop :=
  exists p, procs s !! ip = Some p /\
    (err p = None ->
     exists img, currentImage p = Some img /\ wf_image (mem s) img /\ Q (Bounds img)).

Definition wf_proc : Store -> nat -> Prop := ready_with (fun _ => True).

(** Bounds that start at the origin and have a row. *)
Definition origin_rows (b : image_Rectangle) : Prop := Min b = Pt 0 0 /\ 1 <= Dy b.






(** What the earlier revision makes of a colour: its gray level in the
    three colour channels, opaque. *)
Definition gray_opaque (c : Color16) : Z * Z * Z * Z :=
  (GrayModel_Convert c, GrayModel_Convert c, GrayModel_Convert c, 255).

(** The arrays of [h] are in [h'] at their place and with their length. *)
Definition same_shape (h h' : Heap) : Prop :=
  forall j a, h !! j = Some a -> exists a', h' !! j = Some a' /\ length a' = length a.

(** Every pixel of the image is transparent black. *)
Definition blank (h : Heap) (m : image_RGBA) : Prop :=
  forall x y, X (Min (Rect m)) <= x < X (Max (Rect m)) ->
              Y (Min (Rect m)) <= y < Y (Max (Rect m)) ->
    pixel_at h (ImgRGBA m) x y = (0, 0, 0, 0).

(** The options the package makes. *)
Inductive package_option : WatermarkOption -> Prop :=
  | option_FontPath path : package_option (WithFontPath path)
  | option_FontBytes data : package_option (WithFontBytes data)
  | option_FontSize size : package_option (WithFontSize size)
  | option_Color c : package_option (WithColor c)
  | option_Position pos : package_option (WithPosition pos)
  | option_Offset x y : package_option (WithOffset x y).

(** The upper-case counterpart of [lower_byte], to state that letter case
    does not matter. *)
Definition is_lower (c : Ascii.ascii) : bool :=
  (97 <=? Ascii.nat_of_ascii c)%nat && (Ascii.nat_of_ascii c <=? 122)%nat.

Definition upper_byte (c : Ascii.ascii) : Ascii.ascii :=
  if is_lower c then Ascii.ascii_of_nat (Ascii.nat_of_ascii c - 32) else c.

(** * Reasoning about the pixel engines *)

(** ** Slices over a heap that grows at its end *)

Lemma in_len_true s i : in_len s i = true <-> 0 <= i < s_len s.
Proof. unfold in_len. rewrite andb_true_iff, Z.leb_le, Z.ltb_lt. tauto. Qed.

Lemma slice_get_old (h0 t : Heap) s i :
  (s_arr s < length h0)%nat -> slice_get (h0 ++ t) s i = slice_get h0 s i.
Proof. intros Hlt. unfold slice_get. by rewrite lookup_app_l. Qed.

Lemma slice_set_fresh (h0 : Heap) (dc : list Z) s i v :
  s_arr s = length h0 -> s_off s = 0 -> s_len s = Z.of_nat (length dc) ->
  0 <= i < s_len s ->
  slice_set (h0 ++ [dc]) s i v = Ok (h0 ++ [<[Z.to_nat i := v]> dc]).
Proof.
  intros Ha Ho Hl Hi. unfold slice_set.
  destruct (in_len s i) eqn:Hin; [|apply not_true_iff_false in Hin; rewrite in_len_true in Hin; lia].
  rewrite Ha, Ho, list_lookup_middle by done. rewrite Z.add_0_l.
  destruct (Nat.ltb_spec (Z.to_nat i) (length dc)); [|lia].
  f_equal. rewrite insert_app_r_alt by lia. by rewrite Nat.sub_diag.
Qed.

Lemma slice_set_touches s i v : touches_only (s_arr s) (fun h => slice_set h s i v).
Proof.
  intros h h'. unfold slice_set.
  destruct (in_len s i); [|done]. destruct (h !! s_arr s) as [a|] eqn:Ha; [|done].
  destruct (_ <? _)%nat; [|done]. intros [= <-]. split.
  - by rewrite length_insert.
  - intros j Hj. by rewrite list_lookup_insert_ne.
Qed.

Lemma touches_only_bind d (f g : Heap -> outcome Heap) :
  touches_only d f -> touches_only d g ->
  touches_only d (fun h => let* h1 := f h in g h1).
Proof.
  intros Hf Hg h h'. simpl. destruct (f h) as [h1|] eqn:E1; simpl; [|done].
  intros E2. destruct (Hf _ _ E1) as [L1 F1], (Hg _ _ E2) as [L2 F2]. split.
  - congruence.
  - intros j Hj. rewrite F2, F1; done.
Qed.

Lemma set_pixel_touches s i p : touches_only (s_arr s) (fun h => set_pixel h s i p).
Proof.
  destruct p as [[[r g] b] a]. unfold set_pixel.
  repeat apply (touches_only_bind _ (fun h => slice_set h s _ _)); apply slice_set_touches.
Qed.

Lemma run_touches {I} d (body : I -> Heap -> outcome Heap) l :
  (forall i, touches_only d (body i)) -> touches_only d (run body l).
Proof.
  intros Hb. induction l as [|i l IH]; simpl.
  - intros h h' [= <-]. done.
  - apply (touches_only_bind _ (body i)); auto.
Qed.

Lemma run_sched_touches {I} d (body : I -> Heap -> outcome Heap) sched ws :
  (forall i, touches_only d (body i)) -> touches_only d (run_sched body sched ws).
Proof.
  intros Hb. revert ws. induction sched as [|g sched IH]; intros ws; simpl.
  - by apply run_touches.
  - destruct (ws !! g) as [[|i rest]|]; try apply IH.
    apply (touches_only_bind _ (body i)); auto.
Qed.

(** ** Painting a fresh tight buffer *)

Lemma write4_length dc i p : length (write4 dc i p) = length dc.
Proof. destruct p as [[[r g] b] a]. unfold write4. by rewrite !length_insert. Qed.

Lemma paint_cons w F dc yx l :
  paint w F dc (yx :: l) = paint w F (write4 dc (4 * (fst yx * w + snd yx)) (F (snd yx) (fst yx))) l.
Proof. reflexivity. Qed.

Lemma paint_length w F l dc : length (paint w F dc l) = length dc.
Proof.
  revert dc. induction l as [|yx l IH]; intros dc; [done|].
  rewrite paint_cons, IH. apply write4_length.
Qed.

Lemma write4_lookup dc i p c :
  0 <= i -> i + 3 < Z.of_nat (length dc) -> 0 <= c < 4 ->
  write4 dc i p !! Z.to_nat (i + c) = Some (chan c p).
Proof.
  intros Hi Hl Hc. destruct p as [[[r g] b] a]. unfold write4, chan.
  assert (c = 0 \/ c = 1 \/ c = 2 \/ c = 3) as [-> | [-> | [-> | ->]]] by lia; simpl;
    rewrite ?Z.add_0_r;
    repeat (rewrite list_lookup_insert_ne by lia);
    rewrite list_lookup_insert_eq; rewrite ?length_insert; try done; lia.
Qed.

Lemma write4_lookup_other dc i p k :
  0 <= i -> (k < Z.to_nat i \/ Z.to_nat (i + 3) < k)%nat ->
  write4 dc i p !! k = dc !! k.
Proof.
  intros Hi Hk. destruct p as [[[r g] b] a]. unfold write4.
  repeat (rewrite list_lookup_insert_ne by lia). done.
Qed.

Section Paint.

Context (w hgt : Z) (F : Z -> Z -> Z * Z * Z * Z).

Lemma paint_lookup_notin l dc y x c :
  Forall (in_image w hgt) l -> in_image w hgt (y, x) -> 0 <= c < 4 ->
  (y, x) ∉ l ->
  paint w F dc l !! Z.to_nat (4 * (y * w + x) + c) = dc !! Z.to_nat (4 * (y * w + x) + c).
Proof.
  intros Hl [Hy Hx] Hc. simpl in Hy, Hx. revert dc.
  induction Hl as [|[y0 x0] l [Hy0 Hx0] Hl IH]; intros dc Hn; [done|].
  simpl in Hy0, Hx0. apply not_elem_of_cons in Hn as [Hne Hn].
  rewrite paint_cons, IH by done. simpl.
  apply write4_lookup_other; [nia|].
  assert (y <> y0 \/ x <> x0) as Hd by (destruct (decide (y = y0)); [right|left]; congruence).
  destruct (Z.lt_trichotomy y y0) as [? | [-> | ?]].
  - left. nia.
  - destruct Hd as [?|?]; [done|]. destruct (Z.lt_trichotomy x x0) as [? | [-> | ?]]; [left|done|right]; nia.
  - right. nia.
Qed.

Lemma paint_lookup_in l dc y x c :
  length dc = Z.to_nat (4 * w * hgt) ->
  Forall (in_image w hgt) l -> in_image w hgt (y, x) -> 0 <= c < 4 ->
  (y, x) ∈ l ->
  paint w F dc l !! Z.to_nat (4 * (y * w + x) + c) = Some (chan c (F x y)).
Proof.
  intros Hlen Hl Hin Hc. revert dc Hlen.
  induction Hl as [|[y0 x0] l Hyx Hl IH]; intros dc Hlen He; [by apply elem_of_nil in He|].
  rewrite paint_cons. destruct (decide ((y, x) ∈ l)) as [Hm|Hm].
  - apply IH; [|done]. by rewrite write4_length.
  - apply elem_of_cons in He as [[= -> ->]|?]; [|done].
    rewrite paint_lookup_notin by done. destruct Hin as [Hy Hx]. simpl in *.
    apply write4_lookup; [nia| |done]. rewrite Hlen. nia.
Qed.

(** Once every pixel has been written, by whichever iterations and in
    whichever order, the buffer is the rendering of [F]. *)
Lemma paint_cover l dc :
  0 <= w -> 0 <= hgt ->
  length dc = Z.to_nat (4 * w * hgt) ->
  Forall (in_image w hgt) l ->
  (forall y x, in_image w hgt (y, x) -> (y, x) ∈ l) ->
  paint w F dc l = render w hgt F.
Proof.
  intros Hw0 Hh0 Hlen Hl Hcov. apply list_eq. intros k.
  destruct (decide (k < Z.to_nat (4 * w * hgt))%nat) as [Hk|Hk].
  - unfold render. rewrite list_lookup_fmap, lookup_seq_lt by done. simpl.
    set (i := Z.of_nat k).
    assert (0 < w /\ 0 < hgt) as [Hw Hh] by nia.
    assert (0 <= i < 4 * w * hgt) as Hi by lia.
    pose proof (Z.mod_pos_bound i 4 ltac:(lia)) as Hc.
    pose proof (Z.div_mod i 4 ltac:(lia)) as Hdm.
    pose proof (Z.mod_pos_bound (i / 4) w Hw) as Hx.
    pose proof (Z.div_mod (i / 4) w ltac:(lia)) as Hdm2.
    assert (0 <= i / 4 < w * hgt) as Hq by (split; [apply Z.div_pos; lia|apply Z.div_lt_upper_bound; lia]).
    assert (0 <= i / 4 / w < hgt) as Hy
      by (split; [apply Z.div_pos; lia|apply Z.div_lt_upper_bound; lia]).
    replace k with (Z.to_nat (4 * ((i / 4 / w) * w + (i / 4) mod w) + i mod 4)) at 1 by lia.
    apply paint_lookup_in; try done. apply Hcov. done.
  - rewrite !lookup_ge_None_2; [done| |].
    + unfold render. rewrite length_map, length_seq. lia.
    + rewrite paint_length. lia.
Qed.

Lemma render_length : length (render w hgt F) = Z.to_nat (4 * w * hgt).
Proof. unfold render. by rewrite length_map, length_seq. Qed.

Lemma render_lookup x y c :
  0 <= x < w -> 0 <= y < hgt -> 0 <= c < 4 ->
  render w hgt F !! Z.to_nat (4 * (y * w + x) + c) = Some (chan c (F x y)).
Proof.
  intros Hx Hy Hc. unfold render.
  rewrite list_lookup_fmap, lookup_seq_lt by nia. simpl.
  rewrite Z2Nat.id by nia.
  replace (4 * (y * w + x) + c) with (c + (y * w + x) * 4) by lia.
  rewrite Z_mod_plus_full, Z.div_add, (Z.mod_small c 4), (Z.div_small c 4) by lia.
  rewrite Z.add_0_l. replace (y * w + x) with (x + y * w) by lia.
  rewrite Z_mod_plus_full, Z.div_add, (Z.mod_small x w), (Z.div_small x w) by lia.
  by rewrite Z.add_0_l.
Qed.

End Paint.

(** ** Loops that paint a fresh buffer *)

Lemma concat_pop {A} (ws : list (list A)) g i rest :
  ws !! g = Some (i :: rest) -> concat ws ≡ₚ i :: concat (<[g := rest]> ws).
Proof.
  intros Hg. rewrite <- (take_drop_middle ws g (i :: rest) Hg) at 1.
  rewrite insert_take_drop by (eapply lookup_lt_Some; eauto).
  rewrite !concat_app, !concat_cons. simpl.
  symmetry. apply Permutation_middle.
Qed.

Section Fill.

Context (h0 : Heap) (w hgt : Z) (F : Z -> Z -> Z * Z * Z * Z).
Context (body : Z * Z -> Heap -> outcome Heap).

Lemma run_paint l dc :
  paints h0 w hgt F body -> Forall (in_image w hgt) l -> length dc = Z.to_nat (4 * w * hgt) ->
  run body l (h0 ++ [dc]) = Ok (h0 ++ [paint w F dc l]).
Proof.
  intros Hb Hl. revert dc. induction Hl as [|yx l Hyx Hl IH]; intros dc Hlen; [done|].
  rewrite paint_cons. cbn [run]. rewrite Hb by done. cbn [bindO].
  by rewrite IH by (by rewrite write4_length).
Qed.

(** Under every schedule the goroutines together perform the iterations of
    all of them, in some order. *)
Lemma run_sched_paint sched ws dc :
  paints h0 w hgt F body -> Forall (Forall (in_image w hgt)) ws -> length dc = Z.to_nat (4 * w * hgt) ->
  exists l, l ≡ₚ concat ws /\
    run_sched body sched ws (h0 ++ [dc]) = Ok (h0 ++ [paint w F dc l]).
Proof.
  intros Hb. revert ws dc. induction sched as [|g sched IH]; intros ws dc Hws Hlen; cbn [run_sched].
  - exists (concat ws). split; [done|]. apply run_paint; try done.
    by apply Forall_concat.
  - destruct (ws !! g) as [[|i rest]|] eqn:Hg; try (by apply IH).
    pose proof (proj1 (Forall_lookup _ _) Hws _ _ Hg) as Hi.
    apply Forall_cons in Hi as [Hi Hrest].
    rewrite Hb by done. cbn [bindO].
    destruct (IH (<[g := rest]> ws) (write4 dc (4 * (fst i * w + snd i)) (F (snd i) (fst i))))
      as (l & Hp & Hr).
    + by apply Forall_insert.
    + by rewrite write4_length.
    + exists (i :: l). split; [|by rewrite paint_cons].
      rewrite Hp. symmetry. by apply concat_pop.
Qed.

Lemma run_fill l :
  paints h0 w hgt F body -> 0 <= w -> 0 <= hgt -> Forall (in_image w hgt) l ->
  (forall y x, in_image w hgt (y, x) -> (y, x) ∈ l) ->
  run body l (h0 ++ [replicate (Z.to_nat (4 * w * hgt)) 0]) = Ok (h0 ++ [render w hgt F]).
Proof.
  intros Hb Hw Hh Hl Hcov. rewrite run_paint by (try done; by rewrite length_replicate).
  do 3 f_equal. apply paint_cover; try done. by rewrite length_replicate.
Qed.

Lemma run_sched_fill sched ws :
  paints h0 w hgt F body -> 0 <= w -> 0 <= hgt -> Forall (Forall (in_image w hgt)) ws ->
  (forall y x, in_image w hgt (y, x) -> (y, x) ∈ concat ws) ->
  run_sched body sched ws (h0 ++ [replicate (Z.to_nat (4 * w * hgt)) 0])
  = Ok (h0 ++ [render w hgt F]).
Proof.
  intros Hb Hw Hh Hws Hcov.
  destruct (run_sched_paint sched ws (replicate (Z.to_nat (4 * w * hgt)) 0) Hb Hws)
    as (l & Hp & ->); [by rewrite length_replicate|].
  do 3 f_equal. apply paint_cover; try done.
  - by rewrite length_replicate.
  - rewrite Hp. by apply Forall_concat.
  - intros y x Hyx. rewrite Hp. by apply Hcov.
Qed.

End Fill.

(** ** Iteration spaces *)

Lemma elem_of_Zrange lo hi k : k ∈ Zrange lo hi <-> lo <= k < hi.
Proof.
  unfold Zrange. rewrite list_elem_of_fmap. split.
  - intros (n & -> & Hn). apply elem_of_seq in Hn. lia.
  - intros Hk. exists (Z.to_nat (k - lo)). split; [lia|]. apply elem_of_seq. lia.
Qed.

Lemma elem_of_for_pixels ys xs y x : (y, x) ∈ for_pixels ys xs <-> y ∈ ys /\ x ∈ xs.
Proof.
  unfold for_pixels. rewrite list_elem_of_In, in_flat_map. setoid_rewrite in_map_iff.
  rewrite !list_elem_of_In. split.
  - intros (y' & Hy & x' & [= -> ->] & Hx). done.
  - intros [Hy Hx]. exists y. split; [done|]. by exists x.
Qed.

Lemma for_pixels_in_image w hgt y0 y1 :
  0 <= y0 -> y1 <= hgt ->
  Forall (in_image w hgt) (for_pixels (Zrange y0 y1) (Zrange 0 w)).
Proof.
  intros H0 H1. apply Forall_forall. intros [y x] Hyx.
  apply elem_of_for_pixels in Hyx as [Hy Hx].
  apply elem_of_Zrange in Hy, Hx. split; simpl; lia.
Qed.

(** ** Well-formed images and what they show *)

Lemma slice_valid_lt h s : slice_valid h s -> (s_arr s < length h)%nat.
Proof. intros (a & Ha & _). by eapply lookup_lt_Some. Qed.

Lemma slice_valid_app h t s : slice_valid h s -> slice_valid (h ++ t) s.
Proof.
  intros (a & Ha & Hr). exists a. split; [|done].
  rewrite lookup_app_l; [done|]. by eapply lookup_lt_Some.
Qed.

Lemma slice_get_valid h s i :
  slice_valid h s -> 0 <= i < s_len s -> slice_get h s i = Ok (peek h s i).
Proof.
  intros (a & Ha & Ho & Hl & Hb) Hi. unfold peek, slice_get.
  destruct (in_len s i) eqn:Hin; [|apply not_true_iff_false in Hin; rewrite in_len_true in Hin; lia].
  rewrite Ha. destruct (lookup_lt_is_Some_2 a (Z.to_nat (s_off s + i)) ltac:(lia)) as [v ->].
  done.
Qed.

Lemma peek_old (h0 t : Heap) s i : (s_arr s < length h0)%nat -> peek (h0 ++ t) s i = peek h0 s i.
Proof. intros Hlt. unfold peek. by rewrite slice_get_old. Qed.

Lemma set_pixel_fresh (h0 : Heap) (dc : list Z) s i p :
  s_arr s = length h0 -> s_off s = 0 -> s_len s = Z.of_nat (length dc) ->
  0 <= i -> i + 3 < s_len s ->
  set_pixel (h0 ++ [dc]) s i p = Ok (h0 ++ [write4 dc i p]).
Proof.
  intros Ha Ho Hl Hi Hi3. destruct p as [[[r g] b] a]. unfold set_pixel, write4.
  rewrite slice_set_fresh by (try done; lia). cbn [bindO].
  rewrite slice_set_fresh by (rewrite ?length_insert; try done; lia). cbn [bindO].
  rewrite slice_set_fresh by (rewrite ?length_insert; try done; lia). cbn [bindO].
  rewrite slice_set_fresh by (rewrite ?length_insert; try done; lia).
  done.
Qed.

Lemma grayPixel_set_pixel src dst srcIdx dstIdx h :
  grayPixel src dst srcIdx dstIdx h =
  let* p := (let* r := slice_get h (Pix src) srcIdx in
             let* g := slice_get h (Pix src) (srcIdx + 1) in
             let* b := slice_get h (Pix src) (srcIdx + 2) in
             let* a := slice_get h (Pix src) (srcIdx + 3) in
             Ok (r, g, b, a)) in
  set_pixel h (Pix dst) dstIdx (gray_of p).
Proof.
  unfold grayPixel.
  destruct (slice_get h (Pix src) srcIdx); [|done].
  destruct (slice_get h (Pix src) (srcIdx + 1)); [|done].
  destruct (slice_get h (Pix src) (srcIdx + 2)); [|done].
  destruct (slice_get h (Pix src) (srcIdx + 3)); done.
Qed.

Lemma grayPixel_fresh (h0 : Heap) (dc : list Z) src dst srcIdx dstIdx :
  slice_valid h0 (Pix src) -> 0 <= srcIdx -> srcIdx + 3 < s_len (Pix src) ->
  Pix dst = mkSlice (length h0) 0 (Z.of_nat (length dc)) ->
  0 <= dstIdx -> dstIdx + 3 < Z.of_nat (length dc) ->
  grayPixel src dst srcIdx dstIdx (h0 ++ [dc]) =
  Ok (h0 ++ [write4 dc dstIdx (gray_of (peek4 h0 (Pix src) srcIdx))]).
Proof.
  intros Hv Hs Hs3 Hd Hi Hi3. rewrite grayPixel_set_pixel.
  pose proof (slice_valid_lt _ _ Hv) as Hlt.
  rewrite !slice_get_old by done.
  rewrite !slice_get_valid by (try done; lia). cbn [bindO].
  rewrite Hd. apply set_pixel_fresh; simpl; try done; lia.
Qed.

Lemma src_pixel_RGBA h m x y :
  slice_valid h (Pix m) -> 0 <= PixOffset m x y -> PixOffset m x y + 3 < s_len (Pix m) ->
  src_pixel h (ImgRGBA m) x y = Ok (peek4 h (Pix m) (PixOffset m x y)).
Proof.
  intros Hv H0 H3. unfold src_pixel.
  rewrite !slice_get_valid by (try done; lia). done.
Qed.

Lemma PixOffset_rel m x y :
  PixOffset m (X (Min (Rect m)) + x) (Y (Min (Rect m)) + y) = y * Stride m + x * 4.
Proof. unfold PixOffset. lia. Qed.

Lemma wf_RGBA_index h m x y :
  wf_RGBA h m -> 0 <= x < Dx (Rect m) -> 0 <= y < Dy (Rect m) ->
  0 <= y * Stride m + x * 4 /\ y * Stride m + x * 4 + 3 < s_len (Pix m).
Proof. intros (Hv & Hx & Hy & Hs & Hl) Hx' Hy'. split; nia. Qed.

(** A well-formed image answers the call for its bounds. *)
Lemma image_Bounds_ok h img : wf_image h img -> image_Bounds img = Ok (Bounds img).
Proof. by destruct img. Qed.

Lemma image_Bounds_inv img b : image_Bounds img = Ok b -> b = Bounds img.
Proof. destruct img; simpl; congruence. Qed.

(** A well-formed image shows a pixel at every point of its bounds. *)
Lemma src_pixel_ok h img x y :
  wf_image h img -> 0 <= x < Dx (Bounds img) -> 0 <= y < Dy (Bounds img) ->
  src_pixel h img (X (Min (Bounds img)) + x) (Y (Min (Bounds img)) + y)
  = Ok (pixel_at h img (X (Min (Bounds img)) + x) (Y (Min (Bounds img)) + y)).
Proof.
  intros Hwf Hx Hy. destruct img as [m|b at_|]; cbn [Bounds wf_image] in *; [|done..].
  destruct (wf_RGBA_index h m x y Hwf Hx Hy) as [H0 H3].
  unfold pixel_at. rewrite src_pixel_RGBA; [done|apply Hwf|..]; by rewrite PixOffset_rel.
Qed.

Lemma pixel_at_RGBA h m x y :
  wf_RGBA h m -> 0 <= x < Dx (Rect m) -> 0 <= y < Dy (Rect m) ->
  pixel_at h (ImgRGBA m) (X (Min (Rect m)) + x) (Y (Min (Rect m)) + y)
  = peek4 h (Pix m) (y * Stride m + x * 4).
Proof.
  intros Hwf Hx Hy. destruct (wf_RGBA_index h m x y Hwf Hx Hy) as [H0 H3].
  unfold pixel_at. rewrite src_pixel_RGBA; [by rewrite PixOffset_rel|apply Hwf|..];
    by rewrite PixOffset_rel.
Qed.

(** An image that lives in a heap is read the same after the heap grew. *)
Lemma src_pixel_old (h0 t : Heap) img x y :
  wf_image h0 img -> src_pixel (h0 ++ t) img x y = src_pixel h0 img x y.
Proof.
  intros Hwf. destruct img as [m|b at_|]; [|done..]. simpl.
  destruct Hwf as (Hv & _). apply slice_valid_lt in Hv.
  by rewrite !slice_get_old.
Qed.

Lemma pixel_at_old (h0 t : Heap) img x y :
  wf_image h0 img -> pixel_at (h0 ++ t) img x y = pixel_at h0 img x y.
Proof. intros Hwf. unfold pixel_at. by rewrite src_pixel_old. Qed.

Lemma wf_image_app h t img : wf_image h img -> wf_image (h ++ t) img.
Proof.
  destruct img as [m|b at_|]; [|done..]. intros (Hv & Hr). split; [|done].
  by apply slice_valid_app.
Qed.

(** ** Fresh destinations and draw.Draw onto them *)

Lemma image_NewRGBA_ok r h :
  0 <= Dx r -> 0 <= Dy r -> image_NewRGBA r h = Ok (fresh_RGBA h r, h ++ [zeros r]).
Proof.
  intros Hx Hy. unfold image_NewRGBA.
  destruct (Z.ltb_spec (Dx r) 0); [lia|]. destruct (Z.ltb_spec (Dy r) 0); [lia|]. done.
Qed.

Lemma Empty_false r : Empty r = false <-> 0 < Dx r /\ 0 < Dy r.
Proof. unfold Empty, Dx, Dy. rewrite orb_false_iff, !Z.leb_gt. lia. Qed.

Lemma Empty_true r : Empty r = true <-> Dx r <= 0 \/ Dy r <= 0.
Proof. unfold Empty, Dx, Dy. rewrite orb_true_iff, !Z.leb_le. lia. Qed.

Lemma Intersect_empty_l r s : Empty r = true -> Empty (Intersect r s) = true.
Proof.
  intros He. unfold Intersect.
  match goal with |- context [if Empty ?r' then _ else _] => destruct (Empty r') eqn:E' end; [done|].
  apply Empty_false in E'. apply Empty_true in He. unfold Dx, Dy in *. simpl in E'. lia.
Qed.

Lemma Intersect_inside r s :
  Empty r = false ->
  X (Min s) <= X (Min r) -> X (Max r) <= X (Max s) ->
  Y (Min s) <= Y (Min r) -> Y (Max r) <= Y (Max s) ->
  Intersect r s = r.
Proof.
  intros He H1 H2 H3 H4. unfold Intersect.
  rewrite !Z.max_l, !Z.min_l by lia. destruct r as [[x0 y0] [x1 y1]]. simpl. by rewrite He.
Qed.

Lemma clip_empty dst r src sp : Empty r = true -> Empty (fst (clip dst r src sp)) = true.
Proof. intros He. unfold clip. simpl. by do 2 apply Intersect_empty_l. Qed.

Lemma clip_inside dst r src sp :
  Empty r = false -> Rect dst = r ->
  X (Min (Bounds src)) <= X sp -> X sp + Dx r <= X (Max (Bounds src)) ->
  Y (Min (Bounds src)) <= Y sp -> Y sp + Dy r <= Y (Max (Bounds src)) ->
  clip dst r src sp = (r, sp).
Proof.
  intros He Hd H1 H2 H3 H4. unfold clip. rewrite Hd.
  rewrite (Intersect_inside r r) by (try done; lia).
  rewrite Intersect_inside by (try done; unfold Dx, Dy in *; simpl; lia).
  destruct sp as [sx sy]. simpl. f_equal. f_equal; lia.
Qed.

Lemma render_nil w hgt F : 4 * w * hgt <= 0 -> render w hgt F = [].
Proof. intros H. unfold render. by replace (Z.to_nat (4 * w * hgt)) with 0%nat by lia. Qed.

Lemma drawPixel_paints h0 img r sp :
  wf_image h0 img ->
  X (Min (Bounds img)) <= X sp -> X sp + Dx r <= X (Max (Bounds img)) ->
  Y (Min (Bounds img)) <= Y sp -> Y sp + Dy r <= Y (Max (Bounds img)) ->
  paints h0 (Dx r) (Dy r) (fun x y => pixel_at h0 img (X sp + x) (Y sp + y))
         (drawPixel (fresh_RGBA h0 r) img r sp).
Proof.
  intros Hwf H1 H2 H3 H4 [y x] dc [Hy Hx] Hlen. simpl in Hy, Hx.
  assert (src_pixel h0 img (X sp + x) (Y sp + y) = Ok (pixel_at h0 img (X sp + x) (Y sp + y)))
    as Hsrc.
  { replace (X sp + x) with (X (Min (Bounds img)) + (X sp - X (Min (Bounds img)) + x)) by lia.
    replace (Y sp + y) with (Y (Min (Bounds img)) + (Y sp - Y (Min (Bounds img)) + y)) by lia.
    apply src_pixel_ok; [done|unfold Dx, Dy in *; lia..]. }
  unfold drawPixel. rewrite src_pixel_old, Hsrc by done. cbn [bindO].
  pose proof (PixOffset_rel (fresh_RGBA h0 r) x y) as Hp. cbn [fresh_RGBA Rect Stride] in Hp.
  rewrite Hp. cbn [fresh_RGBA Pix fst snd].
  replace (y * (4 * Dx r) + x * 4) with (4 * (y * Dx r + x)) by lia.
  apply set_pixel_fresh; simpl; try done; nia.
Qed.

(** [draw.Draw] onto a fresh image of rectangle [r], from the region of the
    source that starts at [sp]. *)
Lemma draw_Draw_fresh h0 img r sp :
  wf_image h0 img -> 0 <= Dx r -> 0 <= Dy r ->
  (Empty r = false ->
   X (Min (Bounds img)) <= X sp /\ X sp + Dx r <= X (Max (Bounds img)) /\
   Y (Min (Bounds img)) <= Y sp /\ Y sp + Dy r <= Y (Max (Bounds img))) ->
  draw_Draw (fresh_RGBA h0 r) r img sp (h0 ++ [zeros r])
  = Ok (h0 ++ [render (Dx r) (Dy r) (fun x y => pixel_at h0 img (X sp + x) (Y sp + y))]).
Proof.
  intros Hwf Hx Hy Hin. unfold draw_Draw. rewrite (image_Bounds_ok h0) by done. cbn [bindO].
  destruct (Empty r) eqn:He.
  - pose proof (clip_empty (fresh_RGBA h0 r) r img sp He) as Hc.
    destruct (clip _ r img sp) as [r' sp']. simpl in Hc. rewrite Hc.
    apply Empty_true in He. unfold zeros.
    rewrite render_nil by nia. by replace (Z.to_nat (4 * Dx r * Dy r)) with 0%nat by nia.
  - destruct (Hin eq_refl) as (H1 & H2 & H3 & H4).
    rewrite clip_inside, He by done.
    apply run_fill; try done.
    + by apply drawPixel_paints.
    + by apply for_pixels_in_image.
    + intros y x [Hy' Hx']. apply elem_of_for_pixels. by rewrite !elem_of_Zrange.
Qed.

(** ** The source as an RGBA image *)

Lemma toRGBA_ok h img :
  wf_image h img -> toRGBA img h = Ok (as_RGBA h img, h ++ conv_arrays h img).
Proof.
  intros Hwf. destruct img as [m|b at_|]; simpl; [| |done].
  - by rewrite app_nil_r.
  - destruct Hwf as [Hx Hy]. rewrite image_NewRGBA_ok by done. cbn [bindO].
    rewrite draw_Draw_fresh; try done.
    intros He. apply Empty_false in He. simpl. unfold Dx, Dy in *. lia.
Qed.

Lemma Rect_as_RGBA h img : Rect (as_RGBA h img) = Bounds img.
Proof. by destruct img. Qed.

Lemma peek_fresh (h : Heap) (c : list Z) n i v :
  0 <= i < n -> c !! Z.to_nat i = Some v -> peek (h ++ [c]) (mkSlice (length h) 0 n) i = v.
Proof.
  intros Hi Hc. unfold peek, slice_get. simpl.
  destruct (in_len _ i) eqn:Hin;
    [|apply not_true_iff_false in Hin; rewrite in_len_true in Hin; simpl in Hin; lia].
  rewrite list_lookup_middle, Z.add_0_l by done. by rewrite Hc.
Qed.

Lemma chan_tuple p : (chan 0 p, chan 1 p, chan 2 p, chan 3 p) = p.
Proof. by destruct p as [[[r g] b] a]. Qed.

(** A fresh tight image whose bytes are a rendering shows the rendered
    pixels. *)
Lemma peek4_render (h : Heap) r F x y :
  0 <= x < Dx r -> 0 <= y < Dy r ->
  peek4 (h ++ [render (Dx r) (Dy r) F]) (Pix (fresh_RGBA h r)) (y * (4 * Dx r) + x * 4) = F x y.
Proof.
  intros Hx Hy. unfold peek4. cbn [fresh_RGBA Pix].
  replace (y * (4 * Dx r) + x * 4) with (4 * (y * Dx r + x) + 0) at 1 by lia.
  replace (y * (4 * Dx r) + x * 4 + 1) with (4 * (y * Dx r + x) + 1) by lia.
  replace (y * (4 * Dx r) + x * 4 + 2) with (4 * (y * Dx r + x) + 2) by lia.
  replace (y * (4 * Dx r) + x * 4 + 3) with (4 * (y * Dx r + x) + 3) by lia.
  rewrite (peek_fresh h _ _ _ (chan 0 (F x y))), (peek_fresh h _ _ _ (chan 1 (F x y))),
    (peek_fresh h _ _ _ (chan 2 (F x y))), (peek_fresh h _ _ _ (chan 3 (F x y)));
    [apply chan_tuple|..]; first [by apply render_lookup|nia].
Qed.

Lemma wf_fresh_RGBA (h : Heap) r (c : list Z) :
  0 <= Dx r -> 0 <= Dy r -> length c = Z.to_nat (4 * Dx r * Dy r) ->
  wf_RGBA (h ++ [c]) (fresh_RGBA h r).
Proof.
  intros Hx Hy Hc. repeat split; simpl; try lia; try nia.
  exists c. simpl. rewrite list_lookup_middle by done. repeat split; try lia; nia.
Qed.

Lemma as_RGBA_wf h img : wf_image h img -> wf_RGBA (h ++ conv_arrays h img) (as_RGBA h img).
Proof.
  intros Hwf. destruct img as [m|b at_|]; simpl; [| |done].
  - by rewrite app_nil_r.
  - destruct Hwf. apply wf_fresh_RGBA; try done. apply render_length.
Qed.

Lemma as_RGBA_pixel h img x y :
  wf_image h img -> 0 <= x < Dx (Bounds img) -> 0 <= y < Dy (Bounds img) ->
  peek4 (h ++ conv_arrays h img) (Pix (as_RGBA h img)) (y * Stride (as_RGBA h img) + x * 4)
  = pixel_at h img (X (Min (Bounds img)) + x) (Y (Min (Bounds img)) + y).
Proof.
  intros Hwf Hx Hy. destruct img as [m|b at_|]; cbn [conv_arrays as_RGBA Bounds] in *; [| |done].
  - rewrite app_nil_r. symmetry. by apply pixel_at_RGBA.
  - unfold pixels_of. cbn [Bounds fresh_RGBA Stride]. by rewrite peek4_render.
Qed.

(** ** The sequential engines *)

Lemma wf_image_dims h img : wf_image h img -> 0 <= Dx (Bounds img) /\ 0 <= Dy (Bounds img).
Proof. destruct img as [m|b at_|]; simpl; [|done..]. intros (_ & ? & ? & _). done. Qed.

Lemma Grayscale_body_paints h img :
  wf_image h img ->
  paints (h ++ conv_arrays h img) (Dx (Bounds img)) (Dy (Bounds img))
    (fun x y => gray_of (pixel_at h img (X (Min (Bounds img)) + x) (Y (Min (Bounds img)) + y)))
    (Grayscale_body (as_RGBA h img) (fresh_RGBA (h ++ conv_arrays h img) (Bounds img))).
Proof.
  intros Hwf [y x] dc [Hy Hx] Hlen. simpl in Hy, Hx. unfold Grayscale_body.
  pose proof (as_RGBA_wf h img Hwf) as Hwf'.
  pose proof (wf_RGBA_index _ _ x y Hwf') as Hidx. rewrite Rect_as_RGBA in Hidx.
  destruct (Hidx Hx Hy) as [H0 H3].
  assert (Z.of_nat (length dc) = 4 * Dx (Bounds img) * Dy (Bounds img)) as HL by nia.
  rewrite grayPixel_fresh; try done; cbn [fresh_RGBA Stride Pix fst snd].
  - rewrite as_RGBA_pixel by done.
    by replace (y * (4 * Dx (Bounds img)) + x * 4) with (4 * (y * Dx (Bounds img) + x)) by lia.
  - apply Hwf'.
  - by rewrite HL.
  - nia.
  - nia.
Qed.

(** [Grayscale] on an image in memory: the destination is a fresh image of
    the same bounds holding the gray pixels; the arrays that were there
    before are as they were. *)
Theorem Grayscale_image_ok h img :
  wf_image h img ->
  Grayscale_image img h =
  Ok (fresh_RGBA (h ++ conv_arrays h img) (Bounds img),
      (h ++ conv_arrays h img) ++ [gray_pixels h img]).
Proof.
  intros Hwf. destruct (wf_image_dims h img Hwf) as [Hx Hy].
  unfold Grayscale_image. erewrite image_Bounds_ok by done. cbn [bindO].
  rewrite toRGBA_ok by done. cbn [bindO].
  rewrite image_NewRGBA_ok by done. cbn [bindO].
  unfold zeros. erewrite run_fill; [done|by apply Grayscale_body_paints|done..| |].
  - by apply for_pixels_in_image.
  - intros y x [Hy' Hx']. apply elem_of_for_pixels. by rewrite !elem_of_Zrange.
Qed.

(** [grayscaleDirect] is the same loop nest. *)
Lemma grayscaleDirect_image_eq img h : grayscaleDirect_image img h = Grayscale_image img h.
Proof. reflexivity. Qed.

(** ** The strips of the parallel engine *)

Lemma numGoroutines_min NumCPU opts height :
  numGoroutines NumCPU opts height =
  Z.min (if MaxGoroutines opts <=? 0 then NumCPU else MaxGoroutines opts) height.
Proof. unfold numGoroutines. destruct (Z.ltb_spec height (if MaxGoroutines opts <=? 0 then NumCPU else MaxGoroutines opts)); lia. Qed.

Lemma numGoroutines_range NumCPU opts height :
  1 <= NumCPU -> 1 <= height -> 1 <= numGoroutines NumCPU opts height <= height.
Proof.
  intros Hc Hh. rewrite numGoroutines_min.
  destruct (Z.leb_spec (MaxGoroutines opts) 0); lia.
Qed.

Lemma rows_per_goroutine n height :
  1 <= n <= height ->
  1 <= Z.quot height n /\ n * Z.quot height n <= height < n * Z.quot height n + n /\
  Z.quot height n = height / n.
Proof.
  intros Hn. rewrite Z.quot_div_nonneg by lia.
  pose proof (Z.div_mod height n ltac:(lia)) as Hdm.
  pose proof (Z.mod_pos_bound height n ltac:(lia)) as Hm.
  assert (1 <= height / n) by (apply Z.div_le_lower_bound; lia).
  repeat split; lia.
Qed.

Lemma strip_bounds n height i :
  1 <= n <= height -> 0 <= i < n ->
  0 <= startRow (Z.quot height n) i /\
  startRow (Z.quot height n) i < endRow n height (Z.quot height n) i /\
  endRow n height (Z.quot height n) i <= height.
Proof.
  intros Hn Hi. destruct (rows_per_goroutine n height Hn) as (Hq & Hr & _).
  unfold endRow, startRow. destruct (Z.eqb_spec i (n - 1)); nia.
Qed.

Lemma strip_cover n height y :
  1 <= n <= height -> 0 <= y < height ->
  exists i, 0 <= i < n /\
    startRow (Z.quot height n) i <= y < endRow n height (Z.quot height n) i.
Proof.
  intros Hn Hy. destruct (rows_per_goroutine n height Hn) as (Hq & Hr & _).
  set (q := Z.quot height n) in *.
  destruct (Z.lt_ge_cases y ((n - 1) * q)) as [Hlt|Hge].
  - exists (y / q).
    pose proof (Z.div_mod y q ltac:(lia)) as Hdm.
    pose proof (Z.mod_pos_bound y q ltac:(lia)) as Hm.
    assert (0 <= y / q) by (apply Z.div_pos; lia).
    assert (y / q < n - 1) by (apply Z.div_lt_upper_bound; lia).
    unfold endRow, startRow. destruct (Z.eqb_spec (y / q) (n - 1)); [lia|]. nia.
  - exists (n - 1). unfold endRow, startRow. rewrite Z.eqb_refl. lia.
Qed.

Lemma strip_disjoint n height i j :
  1 <= n <= height -> 0 <= i -> i < j -> j < n ->
  endRow n height (Z.quot height n) i <= startRow (Z.quot height n) j.
Proof.
  intros Hn Hi Hij Hj. destruct (rows_per_goroutine n height Hn) as (Hq & Hr & _).
  unfold endRow, startRow. destruct (Z.eqb_spec i (n - 1)); nia.
Qed.

Lemma Zrange_length lo hi : length (Zrange lo hi) = Z.to_nat (hi - lo).
Proof. unfold Zrange. by rewrite length_map, length_seq. Qed.

Lemma Zrange_lookup lo hi i :
  0 <= i < hi - lo -> Zrange lo hi !! Z.to_nat i = Some (lo + i).
Proof.
  intros Hi. unfold Zrange. rewrite list_lookup_fmap, lookup_seq_lt by lia. simpl.
  f_equal. lia.
Qed.

Lemma strips_length n width height : length (strips n width height) = Z.to_nat n.
Proof. unfold strips. rewrite length_map, Zrange_length. f_equal. lia. Qed.

Lemma strips_lookup n width height i :
  0 <= i < n ->
  strips n width height !! Z.to_nat i =
  Some (for_pixels (Zrange (startRow (Z.quot height n) i) (endRow n height (Z.quot height n) i))
                   (Zrange 0 width)).
Proof.
  intros Hi. unfold strips. rewrite list_lookup_fmap, Zrange_lookup by lia. done.
Qed.

Lemma strips_in_image n width height :
  1 <= n <= height -> Forall (Forall (in_image width height)) (strips n width height).
Proof.
  intros Hn. unfold strips. apply Forall_fmap, Forall_forall. intros i Hi.
  apply elem_of_Zrange in Hi. simpl.
  destruct (strip_bounds n height i Hn ltac:(lia)) as (H0 & _ & H1).
  by apply for_pixels_in_image.
Qed.

Lemma strips_cover n width height y x :
  1 <= n <= height -> in_image width height (y, x) -> (y, x) ∈ concat (strips n width height).
Proof.
  intros Hn [Hy Hx]. simpl in Hy, Hx.
  destruct (strip_cover n height y Hn Hy) as (i & Hi & Hrow).
  apply list_elem_of_In, in_concat. eexists. split.
  - apply list_elem_of_In. eapply list_elem_of_lookup_2. by apply strips_lookup.
  - apply list_elem_of_In, elem_of_for_pixels.
    split; apply elem_of_Zrange; [exact Hrow|exact Hx].
Qed.

(** ** The parallel engine on images whose bounds start at the origin *)

Lemma grayscaleParallel_body_origin bounds src dst yx h :
  Min bounds = Pt 0 0 ->
  grayscaleParallel_body bounds src dst yx h = Grayscale_body src dst yx h.
Proof.
  intros Hm. destruct yx as [y x]. unfold grayscaleParallel_body, Grayscale_body.
  rewrite Hm. simpl. f_equal; lia.
Qed.

(** For an image at the origin with at least one row, under every schedule
    and for every number of goroutines, the parallel engine returns what
    the sequential one returns. *)
Theorem grayscaleParallel_image_ok NumCPU opts sched h img :
  wf_image h img -> 1 <= NumCPU ->
  Min (Bounds img) = Pt 0 0 -> 1 <= Dy (Bounds img) ->
  grayscaleParallel_image NumCPU opts sched img h = Grayscale_image img h.
Proof.
  intros Hwf Hcpu Hmin Hrows. rewrite Grayscale_image_ok by done.
  destruct (wf_image_dims h img Hwf) as [Hx Hy].
  pose proof (numGoroutines_range NumCPU opts _ Hcpu Hrows) as Hn.
  unfold grayscaleParallel_image. erewrite image_Bounds_ok by done. cbn [bindO].
  rewrite toRGBA_ok by done. cbn [bindO].
  rewrite image_NewRGBA_ok by done. cbn [bindO].
  destruct (Z.eqb_spec (numGoroutines NumCPU opts (Dy (Bounds img))) 0); [lia|].
  unfold zeros. erewrite run_sched_fill; [done| |done..| |].
  - intros yx dc Hyx Hlen. rewrite grayscaleParallel_body_origin by done.
    by apply Grayscale_body_paints.
  - by apply strips_in_image.
  - intros y x Hyx. by apply strips_cover.
Qed.

(** ** The steps of a schedule *)

Lemma untag_concat {I} (k : nat) (ws : list (list I)) :
  map snd (concat (imap (fun g => tagged (k + g)) ws)) = concat ws.
Proof.
  revert k. induction ws as [|l ws IH]; intros k; [done|].
  rewrite imap_cons, !concat_cons, map_app. f_equal.
  - unfold tagged. rewrite map_map. simpl. apply map_id.
  - rewrite <- (IH (S k)). do 2 f_equal. apply imap_ext. intros g x _. simpl.
    by rewrite Nat.add_succ_r.
Qed.

(** A run under a schedule is the sequential run of its steps. *)
Lemma run_sched_interleaving {I} (body : I -> Heap -> outcome Heap) sched ws h :
  run_sched body sched ws h = run body (map snd (interleaving sched ws)) h.
Proof.
  revert ws h. induction sched as [|g sched IH]; intros ws h; simpl.
  - f_equal. symmetry. exact (untag_concat 0 ws).
  - destruct (ws !! g) as [[|i rest]|]; try apply IH.
    simpl. destruct (body i h) as [h'|q]; simpl; [apply IH|done].
Qed.

Lemma tagged_pop {I} (ws : list (list I)) g i rest :
  ws !! g = Some (i :: rest) ->
  concat (imap tagged ws) ≡ₚ (g, i) :: concat (imap tagged (<[g := rest]> ws)).
Proof.
  intros Hg. pose proof (lookup_lt_Some _ _ _ Hg) as Hlt.
  rewrite <- (take_drop_middle ws g (i :: rest) Hg) at 1.
  rewrite insert_take_drop by done.
  rewrite !imap_app, !imap_cons, !concat_app, !concat_cons.
  rewrite length_take_le by lia. rewrite Nat.add_0_r. simpl.
  symmetry. apply Permutation_middle.
Qed.

(** Whatever the schedule, the steps are the iterations of the goroutines,
    each performed once by its goroutine. *)
Lemma interleaving_perm {I} sched (ws : list (list I)) :
  interleaving sched ws ≡ₚ concat (imap tagged ws).
Proof.
  revert ws. induction sched as [|g sched IH]; intros ws; simpl; [done|].
  destruct (ws !! g) as [[|i rest]|] eqn:Hg; try apply IH.
  rewrite (tagged_pop ws g i rest Hg). by rewrite IH.
Qed.

Lemma elem_of_tagged_concat {I} (k : nat) (ws : list (list I)) g i :
  (g, i) ∈ concat (imap (fun g => tagged (k + g)) ws) <->
  exists g' l, g = (k + g')%nat /\ ws !! g' = Some l /\ i ∈ l.
Proof.
  rewrite list_elem_of_In, in_concat. split.
  - intros (t & Ht & Hi). apply list_elem_of_In, elem_of_lookup_imap in Ht as (g' & l & -> & Hl).
    apply list_elem_of_In in Hi. unfold tagged in Hi.
    apply list_elem_of_fmap in Hi as (i' & [= -> ->] & Hi). by exists g', l.
  - intros (g' & l & -> & Hl & Hi). exists (tagged (k + g') l). split.
    + apply list_elem_of_In, elem_of_lookup_imap. by exists g', l.
    + apply list_elem_of_In. unfold tagged. apply list_elem_of_fmap. by exists i.
Qed.

Lemma elem_of_interleaving {I} sched (ws : list (list I)) g i :
  (g, i) ∈ interleaving sched ws <-> exists l, ws !! g = Some l /\ i ∈ l.
Proof.
  rewrite interleaving_perm.
  pose proof (elem_of_tagged_concat 0 ws g i) as H. cbn [Nat.add] in H. rewrite H. split.
  - intros (g' & l & -> & Hl & Hi). by exists l.
  - intros (l & Hl & Hi). by exists g, l.
Qed.

Lemma NoDup_tagged_concat {I} (k : nat) (ws : list (list I)) :
  Forall NoDup ws -> NoDup (concat (imap (fun g => tagged (k + g)) ws)).
Proof.
  revert k. induction ws as [|l ws IH]; intros k Hws; [constructor|].
  apply Forall_cons in Hws as [Hl Hws].
  rewrite imap_cons, concat_cons. apply NoDup_app. split; [|split].
  - unfold tagged. apply NoDup_fmap_2; [|done]. by intros ?? [=].
  - intros [g i] H1 H2. unfold tagged in H1. apply list_elem_of_fmap in H1 as (i' & [= -> ->] & _).
    assert (imap ((fun g => tagged (k + g)) ∘ S) ws = imap (fun g => tagged (S k + g)) ws) as Heq
      by (apply imap_ext; intros g x _; simpl; by rewrite Nat.add_succ_r).
    rewrite Heq in H2. apply elem_of_tagged_concat in H2 as (g' & l' & Hg & _). lia.
  - assert (imap ((fun g => tagged (k + g)) ∘ S) ws = imap (fun g => tagged (S k + g)) ws) as ->
      by (apply imap_ext; intros g x _; simpl; by rewrite Nat.add_succ_r).
    by apply IH.
Qed.

Lemma NoDup_interleaving {I} sched (ws : list (list I)) :
  Forall NoDup ws -> NoDup (interleaving sched ws).
Proof. intros Hws. rewrite interleaving_perm. by apply (NoDup_tagged_concat 0 ws). Qed.

Lemma NoDup_Zrange lo hi : NoDup (Zrange lo hi).
Proof.
  unfold Zrange. apply NoDup_fmap_2; [intros ???; lia|apply NoDup_seq].
Qed.

Lemma NoDup_for_pixels ys xs : NoDup ys -> NoDup xs -> NoDup (for_pixels ys xs).
Proof.
  intros Hys Hxs. unfold for_pixels. induction Hys as [|y ys Hy Hys IH]; simpl; [constructor|].
  apply NoDup_app. split; [|split; [|done]].
  - apply NoDup_fmap_2; [|done]. by intros ?? [=].
  - intros [y' x'] H1 H2. apply list_elem_of_fmap in H1 as (x & [= -> ->] & _).
    apply list_elem_of_In, in_flat_map in H2 as (y2 & Hy2 & Hx2).
    apply list_elem_of_In, list_elem_of_fmap in Hx2 as (x2 & [= -> ->] & _).
    by apply list_elem_of_In in Hy2.
Qed.

Lemma strips_NoDup n width height : Forall NoDup (strips n width height).
Proof.
  unfold strips. apply Forall_fmap, Forall_forall. intros i _. simpl.
  apply NoDup_for_pixels; apply NoDup_Zrange.
Qed.

(** * The claims *)

(** ** The goroutines of the parallel engine *)

(** C4. For an image with at least one row, the parallel engine starts
    [n] goroutines, where [n] is the configured maximum (the number of CPUs
    when the maximum is not positive) clamped to the number of rows.
    Under every schedule the run of the engine is the run, one after the
    other, of the steps the schedule interleaves, and goroutine [g]
    performs in it the pixels of the rows [startRow g, endRow g), each
    once, and no other: the strips are consecutive, pairwise disjoint, of
    [height / n] rows each but for the last, which takes the remainder
    too, and every pixel of every row is done by exactly one goroutine. *)
Theorem C4_goroutines_partition_rows (NumCPU : Z) (opts : PerformanceOptions) (sched : list nat)
    (img : image_Image) (h : Heap) :
  1 <= NumCPU -> 1 <= Dy (Bounds img) ->
  let width := Dx (Bounds img) in
  let height := Dy (Bounds img) in
  let n := numGoroutines NumCPU opts height in
  let rows := Z.quot height n in
  let steps := interleaving sched (strips n width height) in
  n = Z.min (configured NumCPU opts) height /\
  1 <= n <= height /\
  grayscaleParallel_image NumCPU opts sched img h =
    (let* '(srcRGBA, h) := toRGBA img h in
     let* '(dstRGBA, h) := image_NewRGBA (Bounds img) h in
     let* h := run (grayscaleParallel_body (Bounds img) srcRGBA dstRGBA) (map snd steps) h in
     Ok (dstRGBA, h)) /\
  (forall g y x,
     (g, (y, x)) ∈ steps <->
     0 <= Z.of_nat g < n /\
     startRow rows (Z.of_nat g) <= y < endRow n height rows (Z.of_nat g) /\
     0 <= x < width) /\
  NoDup steps /\
  startRow rows 0 = 0 /\
  endRow n height rows (n - 1) = height /\
  (forall i, 0 <= i < n - 1 -> endRow n height rows i = startRow rows (i + 1)) /\
  (forall i, 0 <= i < n - 1 -> endRow n height rows i - startRow rows i = height / n) /\
  endRow n height rows (n - 1) - startRow rows (n - 1) = height / n + height mod n /\
  (forall i j, 0 <= i -> i < j -> j < n -> endRow n height rows i <= startRow rows j) /\
  (forall y x, 0 <= y < height -> 0 <= x < width ->
     exists g, (g, (y, x)) ∈ steps /\ forall g', (g', (y, x)) ∈ steps -> g' = g).
Proof.
  intros Hcpu Hh width height n rows steps.
  pose proof (numGoroutines_range NumCPU opts height Hcpu Hh) as Hn. fold n in Hn.
  destruct (rows_per_goroutine n height Hn) as (Hq & Hr & Hdiv). fold rows in Hq, Hr, Hdiv.
  pose proof (Z.div_mod height n ltac:(lia)) as Hdm.
  assert (forall g y x,
            (g, (y, x)) ∈ steps <->
            0 <= Z.of_nat g < n /\
            startRow rows (Z.of_nat g) <= y < endRow n height rows (Z.of_nat g) /\
            0 <= x < width) as Hsteps.
  { intros g y x. unfold steps. rewrite elem_of_interleaving. split.
    - intros (l & Hl & Hi).
      assert (0 <= Z.of_nat g < n) as Hg.
      { apply lookup_lt_Some in Hl. rewrite strips_length in Hl. lia. }
      rewrite <- (Nat2Z.id g), strips_lookup in Hl by done. inversion Hl; subst l.
      apply elem_of_for_pixels in Hi as [Hy Hx]. apply elem_of_Zrange in Hy, Hx. done.
    - intros (Hg & Hy & Hx).
      exists (for_pixels (Zrange (startRow rows (Z.of_nat g)) (endRow n height rows (Z.of_nat g)))
                         (Zrange 0 width)).
      split.
      + pose proof (strips_lookup n width height (Z.of_nat g) Hg) as Hl.
        by rewrite Nat2Z.id in Hl.
      + apply elem_of_for_pixels. split; by apply elem_of_Zrange. }
  split; [apply numGoroutines_min|]. split; [done|]. split.
  { unfold grayscaleParallel_image.
    assert (image_Bounds img = Ok (Bounds img)) as ->
      by (destruct img; [done..|unfold Dy in Hh; simpl in Hh; lia]).
    cbn [bindO]. destruct (toRGBA img h) as [[src h1]|q]; [|done]. cbn [bindO].
    destruct (image_NewRGBA (Bounds img) h1) as [[dst h2]|q]; [|done]. cbn [bindO].
    fold height n width. destruct (Z.eqb_spec n 0); [lia|].
    by rewrite run_sched_interleaving. }
  split; [done|].
  split; [apply NoDup_interleaving, strips_NoDup|].
  split; [unfold startRow; lia|].
  split; [unfold endRow; by rewrite Z.eqb_refl|].
  split; [intros i Hi; unfold endRow, startRow; destruct (Z.eqb_spec i (n - 1)); lia|].
  split; [intros i Hi; unfold endRow, startRow; destruct (Z.eqb_spec i (n - 1)); lia|].
  split; [unfold endRow, startRow; rewrite Z.eqb_refl; nia|].
  split; [intros i j Hi Hij Hj; by apply strip_disjoint|].
  intros y x Hy Hx. destruct (strip_cover n height y Hn Hy) as (i & Hi & Hrow).
  exists (Z.to_nat i). split.
  - apply Hsteps. rewrite Z2Nat.id by lia. done.
  - intros g' Hg'. apply Hsteps in Hg' as (Hg & Hrow' & _).
    destruct (Z.lt_trichotomy i (Z.of_nat g')) as [Hlt | [Heq | Hgt]]; [|lia|].
    + pose proof (strip_disjoint n height i (Z.of_nat g') Hn ltac:(lia) Hlt ltac:(lia)) as Hd.
      subst rows. lia.
    + pose proof (strip_disjoint n height (Z.of_nat g') i Hn ltac:(lia) Hgt ltac:(lia)) as Hd.
      subst rows. lia.
Qed.

Lemma C4_goroutines_partition_rows_witness :
  let width := Dx (Bounds sample_image) in
  let height := Dy (Bounds sample_image) in
  let n := numGoroutines 4 (mkPerf 0 true 0) height in
  let rows := Z.quot height n in
  let steps := interleaving [1%nat; 0%nat] (strips n width height) in
  n = Z.min (configured 4 (mkPerf 0 true 0)) height /\
  1 <= n <= height /\
  grayscaleParallel_image 4 (mkPerf 0 true 0) [1%nat; 0%nat] sample_image sample_heap =
    (let* '(srcRGBA, h) := toRGBA sample_image sample_heap in
     let* '(dstRGBA, h) := image_NewRGBA (Bounds sample_image) h in
     let* h := run (grayscaleParallel_body (Bounds sample_image) srcRGBA dstRGBA)
                   (map snd steps) h in
     Ok (dstRGBA, h)) /\
  (forall g y x,
     (g, (y, x)) ∈ steps <->
     0 <= Z.of_nat g < n /\
     startRow rows (Z.of_nat g) <= y < endRow n height rows (Z.of_nat g) /\
     0 <= x < width) /\
  NoDup steps /\
  startRow rows 0 = 0 /\
  endRow n height rows (n - 1) = height /\
  (forall i, 0 <= i < n - 1 -> endRow n height rows i = startRow rows (i + 1)) /\
  (forall i, 0 <= i < n - 1 -> endRow n height rows i - startRow rows i = height / n) /\
  endRow n height rows (n - 1) - startRow rows (n - 1) = height / n + height mod n /\
  (forall i j, 0 <= i -> i < j -> j < n -> endRow n height rows i <= startRow rows j) /\
  (forall y x, 0 <= y < height -> 0 <= x < width ->
     exists g, (g, (y, x)) ∈ steps /\ forall g', (g', (y, x)) ∈ steps -> g' = g).
Proof.
  apply (C4_goroutines_partition_rows 4 (mkPerf 0 true 0) [1%nat; 0%nat] sample_image sample_heap);
    [lia|vm_compute; congruence].
Defined.

(** ** The sticky first error *)

Lemma deref_Some s ip p : procs s !! ip = Some p -> deref s ip = Ok p.
Proof. intros H. unfold deref. by rewrite H. Qed.

Lemma call_failed E c s ip p e :
  procs s !! ip = Some p -> err p = Some e -> chainable c = true -> call E c ip s = Ok (ip, s).
Proof.
  intros Hp He Hc. destruct c; try done; simpl;
    unfold Crop, Resize, Grayscale, GrayscaleFast, AddTextWatermark;
    rewrite (deref_Some _ _ _ Hp); cbn [bindO]; by rewrite He.
Qed.

(** C3. On a processor whose error is set, [Crop], [Resize], [Grayscale],
    [GrayscaleFast] and [AddTextWatermark] return the same processor and
    leave the whole state as it was: the error, the image reference and the
    pixel memory; so does every chain of them. *)
Theorem C3_failed_processor_is_sticky (E : Collaborators) (s : Store) (ip : nat)
    (p : ImageProcessor) (e : error) :
  procs s !! ip = Some p -> err p = Some e ->
  (forall x y width height, Crop ip x y width height s = Ok (ip, s)) /\
  (forall width height, Resize E ip width height s = Ok (ip, s)) /\
  Grayscale ip s = Ok (ip, s) /\
  (forall sched, GrayscaleFast E sched ip s = Ok (ip, s)) /\
  (forall text options, AddTextWatermark E text options ip s = Ok (ip, s)) /\
  (forall cs, forallb chainable cs = true -> calls E cs ip s = Ok s) /\
  Err ip s = Ok (Some e).
Proof.
  intros Hp He. repeat split.
  - intros x y w h. by apply (call_failed E (CallCrop x y w h) s ip p e).
  - intros w h. by apply (call_failed E (CallResize w h) s ip p e).
  - by apply (call_failed E CallGrayscale s ip p e).
  - intros sched. by apply (call_failed E (CallGrayscaleFast sched) s ip p e).
  - intros text options. by apply (call_failed E (CallAddTextWatermark text options) s ip p e).
  - intros cs. induction cs as [|c cs IH]; [done|]. simpl.
    intros [Hc Hcs]%andb_true_iff. rewrite (call_failed E c s ip p e) by done. simpl. auto.
  - unfold Err. rewrite (deref_Some _ _ _ Hp). simpl. by rewrite He.
Qed.

Lemma C3_failed_processor_is_sticky_witness :
  (forall x y width height, Crop 0 x y width height failed_store = Ok (0%nat, failed_store)) /\
  (forall width height, Resize sample_env 0 width height failed_store = Ok (0%nat, failed_store)) /\
  Grayscale 0 failed_store = Ok (0%nat, failed_store) /\
  (forall sched, GrayscaleFast sample_env sched 0 failed_store = Ok (0%nat, failed_store)) /\
  (forall text options,
     AddTextWatermark sample_env text options 0 failed_store = Ok (0%nat, failed_store)) /\
  (forall cs, forallb chainable cs = true -> calls sample_env cs 0 failed_store = Ok failed_store) /\
  Err 0 failed_store = Ok (Some ErrNilImage).
Proof.
  apply (C3_failed_processor_is_sticky sample_env failed_store 0
           (mkIP None (Some ErrNilImage) zeroPerf) ErrNilImage); reflexivity.
Defined.

(** ** Invalid dimensions *)

(** C7. On a processor without an error, [Crop] and [Resize] with a width
    or a height that is not positive set the invalid-dimensions error and
    change nothing else: the image reference, the options, the other
    processors and the pixel memory are as before. *)
Theorem C7_invalid_dimensions_latch (E : Collaborators) (s : Store) (ip : nat)
    (p : ImageProcessor) (x y width height : Z) :
  procs s !! ip = Some p -> err p = None -> width <= 0 \/ height <= 0 ->
  exists s1 s2,
    Crop ip x y width height s = Ok (ip, s1) /\
    Resize E ip width height s = Ok (ip, s2) /\
    procs s1 !! ip = Some (mkIP (currentImage p) (Some (ErrCropDimensions width height)) (perfOpts p)) /\
    procs s2 !! ip = Some (mkIP (currentImage p) (Some (ErrResizeDimensions width height)) (perfOpts p)) /\
    mem s1 = mem s /\ mem s2 = mem s /\
    (forall jp, jp <> ip -> procs s1 !! jp = procs s !! jp /\ procs s2 !! jp = procs s !! jp).
Proof.
  intros Hp He Hdim.
  assert ((width <=? 0) || (height <=? 0) = true) as Hb
    by (apply orb_true_iff; rewrite !Z.leb_le; done).
  exists (set_err s ip p (ErrCropDimensions width height)),
         (set_err s ip p (ErrResizeDimensions width height)).
  pose proof (lookup_lt_Some _ _ _ Hp) as Hlt.
  unfold Crop, Resize. rewrite (deref_Some _ _ _ Hp). cbn [bindO]. rewrite He, Hb.
  repeat split; simpl; try (by rewrite list_lookup_insert_eq);
    by rewrite list_lookup_insert_ne.
Qed.

Lemma C7_invalid_dimensions_latch_witness :
  exists s1 s2,
    Crop 0 0 0 0 50 sample_store = Ok (0%nat, s1) /\
    Resize sample_env 0 0 50 sample_store = Ok (0%nat, s2) /\
    procs s1 !! 0%nat = Some (mkIP (Some sample_image) (Some (ErrCropDimensions 0 50)) (mkPerf 2 true 0)) /\
    procs s2 !! 0%nat = Some (mkIP (Some sample_image) (Some (ErrResizeDimensions 0 50)) (mkPerf 2 true 0)) /\
    mem s1 = mem sample_store /\ mem s2 = mem sample_store /\
    (forall jp, jp <> 0%nat ->
       procs s1 !! jp = procs sample_store !! jp /\ procs s2 !! jp = procs sample_store !! jp).
Proof.
  apply (C7_invalid_dimensions_latch sample_env sample_store 0
           (mkIP (Some sample_image) None (mkPerf 2 true 0)) 0 0 0 50);
    [reflexivity|reflexivity|lia].
Defined.

(** ** Crop *)

Lemma image_Rect_ordered x0 y0 x1 y1 :
  x0 <= x1 -> y0 <= y1 -> image_Rect x0 y0 x1 y1 = mkRect (Pt x0 y0) (Pt x1 y1).
Proof.
  intros Hx Hy. unfold image_Rect.
  destruct (Z.ltb_spec x1 x0); [lia|]. destruct (Z.ltb_spec y1 y0); [lia|]. done.
Qed.

Lemma In_rect_spec r s :
  Empty r = false ->
  In_rect r s = true <->
  X (Min s) <= X (Min r) /\ X (Max r) <= X (Max s) /\
  Y (Min s) <= Y (Min r) /\ Y (Max r) <= Y (Max s).
Proof.
  intros He. unfold In_rect. rewrite He, !andb_true_iff, !Z.leb_le. tauto.
Qed.

(** The pixels of a fresh image whose bytes are a rendering. *)
Lemma pixel_at_render (h : Heap) r F x y :
  0 <= x < Dx r -> 0 <= y < Dy r ->
  pixel_at (h ++ [render (Dx r) (Dy r) F]) (ImgRGBA (fresh_RGBA h r))
           (X (Min r) + x) (Y (Min r) + y) = F x y.
Proof.
  intros Hx Hy.
  pose proof (pixel_at_RGBA (h ++ [render (Dx r) (Dy r) F]) (fresh_RGBA h r) x y) as Hp.
  cbn [fresh_RGBA Rect Stride] in Hp. rewrite Hp; try done.
  - by apply peek4_render.
  - apply wf_fresh_RGBA; [lia..|apply render_length].
Qed.

Lemma Crop_inside (s : Store) (ip : nat) (p : ImageProcessor) (img : image_Image)
    (x y width height : Z) :
  procs s !! ip = Some p -> err p = None -> currentImage p = Some img ->
  wf_image (mem s) img -> 0 < width -> 0 < height ->
  X (Min (Bounds img)) <= x -> x + width <= X (Max (Bounds img)) ->
  Y (Min (Bounds img)) <= y -> y + height <= Y (Max (Bounds img)) ->
  let r0 := mkRect (Pt 0 0) (Pt width height) in
  let F := fun i j => pixel_at (mem s) img (x + i) (y + j) in
  Crop ip x y width height s =
  Ok (ip, set_image s (mem s ++ [render width height F]) ip p (fresh_RGBA (mem s) r0)).
Proof.
  intros Hp He Hi Hwf Hw Hh H1 H2 H3 H4 r0 F.
  assert ((width <=? 0) || (height <=? 0) = false) as Hb
    by (apply orb_false_iff; rewrite !Z.leb_gt; done).
  assert (Empty (mkRect (Pt x y) (Pt (x + width) (y + height))) = false) as Hne
    by (apply Empty_false; unfold Dx, Dy; simpl; lia).
  assert (Dx r0 = width /\ Dy r0 = height) as [Hdx Hdy] by (unfold Dx, Dy; simpl; lia).
  unfold Crop. rewrite (deref_Some _ _ _ Hp). cbn [bindO]. rewrite He, Hb, Hi. cbn [nonnil bindO].
  erewrite image_Bounds_ok by done. cbn [bindO].
  rewrite (image_Rect_ordered x y), (image_Rect_ordered 0 0) by lia. fold r0.
  rewrite (proj2 (In_rect_spec _ (Bounds img) Hne)) by (simpl; lia).
  cbn [negb]. unfold newRGBA. rewrite image_NewRGBA_ok by lia. cbn [bindO].
  replace (Rect (fresh_RGBA (mem s) r0)) with r0 by done.
  rewrite draw_Draw_fresh; [|done|lia|lia|intros _; simpl; lia].
  cbn [bindO]. by rewrite Hdx, Hdy.
Qed.

Lemma Crop_outside (s : Store) (ip : nat) (p : ImageProcessor) (img : image_Image)
    (x y width height : Z) :
  procs s !! ip = Some p -> err p = None -> currentImage p = Some img ->
  wf_image (mem s) img -> 0 < width -> 0 < height ->
  ~ (X (Min (Bounds img)) <= x /\ x + width <= X (Max (Bounds img)) /\
     Y (Min (Bounds img)) <= y /\ y + height <= Y (Max (Bounds img))) ->
  Crop ip x y width height s =
  Ok (ip, set_err s ip p
            (ErrCropOutOfBounds (mkRect (Pt x y) (Pt (x + width) (y + height))) (Bounds img))).
Proof.
  intros Hp He Hi Hwf Hw Hh Hout.
  assert ((width <=? 0) || (height <=? 0) = false) as Hb
    by (apply orb_false_iff; rewrite !Z.leb_gt; done).
  assert (Empty (mkRect (Pt x y) (Pt (x + width) (y + height))) = false) as Hne
    by (apply Empty_false; unfold Dx, Dy; simpl; lia).
  unfold Crop. rewrite (deref_Some _ _ _ Hp). cbn [bindO]. rewrite He, Hb, Hi. cbn [nonnil bindO].
  erewrite image_Bounds_ok by done. cbn [bindO].
  rewrite (image_Rect_ordered x y) by lia.
  assert (In_rect (mkRect (Pt x y) (Pt (x + width) (y + height))) (Bounds img) = false) as ->; [|done].
  apply not_true_iff_false. rewrite In_rect_spec by done. simpl. lia.
Qed.

Lemma Point_In_true x y r :
  Point_In x y r = true <-> X (Min r) <= x < X (Max r) /\ Y (Min r) <= y < Y (Max r).
Proof. unfold Point_In. rewrite !andb_true_iff, !Z.leb_le, !Z.ltb_lt. lia. Qed.

(** Inside the bounds of a well-formed image [At] returns, and an RGBA
    image shows each of its bytes widened to sixteen bits. *)
Lemma At_ok h img x y :
  wf_image h img ->
  X (Min (Bounds img)) <= x < X (Max (Bounds img)) ->
  Y (Min (Bounds img)) <= y < Y (Max (Bounds img)) ->
  At h img x y = Ok (color_at h img x y) /\
  (forall m, img = ImgRGBA m ->
     color_at h img x y =
     let '(r, g, b, a) := pixel_at h img x y in mkColor16 (r * 257) (g * 257) (b * 257) (a * 257)).
Proof.
  intros Hwf Hx Hy. destruct img as [m|b at_|]; cbn [Bounds wf_image] in *; [| |done].
  - destruct (wf_RGBA_index h m (x - X (Min (Rect m))) (y - Y (Min (Rect m))) Hwf
                ltac:(unfold Dx; lia) ltac:(unfold Dy; lia)) as [H0 H3].
    assert (PixOffset m x y =
            (y - Y (Min (Rect m))) * Stride m + (x - X (Min (Rect m))) * 4) as Ho by done.
    assert (At h (ImgRGBA m) x y =
            Ok (let '(r, g, b, a) := peek4 h (Pix m) (PixOffset m x y) in
                mkColor16 (r * 257) (g * 257) (b * 257) (a * 257))) as HAt.
    { unfold At. rewrite (proj2 (Point_In_true x y (Rect m))) by done.
      rewrite !slice_get_valid by (try apply Hwf; lia). done. }
    unfold color_at. rewrite HAt. split; [done|]. intros m' _.
    unfold pixel_at. rewrite src_pixel_RGBA; [done|apply Hwf|lia..].
  - split; [done|]. intros m [=].
Qed.

Lemma high_byte_widened v : high_byte v * 257 = through_byte v.
Proof. unfold high_byte, through_byte. by rewrite Z.shiftr_div_pow2 by lia. Qed.

(** The colour a fresh copy shows where the source shows [c]. *)
Lemma color_at_copy (h : Heap) img r x y i j (bytes : list Z) :
  wf_image h img ->
  X (Min (Bounds img)) <= x < X (Max (Bounds img)) ->
  Y (Min (Bounds img)) <= y < Y (Max (Bounds img)) ->
  wf_RGBA (h ++ [bytes]) (fresh_RGBA h r) ->
  X (Min r) <= i < X (Max r) -> Y (Min r) <= j < Y (Max r) ->
  pixel_at (h ++ [bytes]) (ImgRGBA (fresh_RGBA h r)) i j = pixel_at h img x y ->
  At (h ++ [bytes]) (ImgRGBA (fresh_RGBA h r)) i j = Ok (copied img (color_at h img x y)).
Proof.
  intros Hwf Hx Hy Hwf' Hi Hj Hpix.
  destruct (At_ok (h ++ [bytes]) (ImgRGBA (fresh_RGBA h r)) i j Hwf' Hi Hj) as [HAt Hc].
  rewrite HAt, (Hc _ eq_refl), Hpix. f_equal.
  destruct img as [m|b at_|]; [| |done].
  - destruct (At_ok h (ImgRGBA m) x y Hwf Hx Hy) as [_ Hc']. by rewrite (Hc' _ eq_refl).
  - cbn. by rewrite !high_byte_widened.
Qed.

Lemma sample_image_wf : wf_image sample_heap sample_image.
Proof.
  repeat split; try (vm_compute; congruence).
  exists [3; 0; 0; 255;  14; 14; 14; 200;  100; 150; 200; 255;  255; 255; 255; 7].
  repeat split; vm_compute; congruence.
Qed.

(** C5. [Crop(x, y, width, height)] with positive sizes on a processor
    without an error, whose image is well formed: when the rectangle lies
    inside the bounds, the processor gets a fresh RGBA image of exactly
    [width] by [height] pixels whose pixel [(i, j)] shows the colour of the
    source's pixel [(x + i, y + j)] as a copy to eight bits a channel keeps
    it: the same colour, alpha included, when the source is an RGBA image,
    and the colour with every 16-bit channel cut to its high byte when it
    is not; when the rectangle does not lie inside the bounds, the
    out-of-bounds error is set and no image is made. *)
Theorem C5_Crop_copies_high_bytes (s : Store) (ip : nat) (p : ImageProcessor)
    (img : image_Image) (x y width height : Z) :
  procs s !! ip = Some p -> err p = None -> currentImage p = Some img ->
  wf_image (mem s) img -> 0 < width -> 0 < height ->
  let b := Bounds img in
  let inside := X (Min b) <= x /\ x + width <= X (Max b) /\
                Y (Min b) <= y /\ y + height <= Y (Max b) in
  (inside ->
   exists s' dst,
     Crop ip x y width height s = Ok (ip, s') /\
     procs s' !! ip = Some (mkIP (Some (ImgRGBA dst)) None (perfOpts p)) /\
     Rect dst = mkRect (Pt 0 0) (Pt width height) /\
     Dx (Rect dst) = width /\ Dy (Rect dst) = height /\
     s_len (Pix dst) = 4 * width * height /\
     wf_RGBA (mem s') dst /\
     (forall i j, 0 <= i < width -> 0 <= j < height ->
        At (mem s') (ImgRGBA dst) i j =
        Ok (copied img (color_at (mem s) img (x + i) (y + j)))) /\
     At (mem s') (ImgRGBA dst) 0 0 = Ok (copied img (color_at (mem s) img x y)) /\
     (forall i j, 0 <= i < width -> 0 <= j < height ->
        let c := color_at (mem s) img (x + i) (y + j) in
        color_at (mem s') (ImgRGBA dst) i j = c <-> copied img c = c)) /\
  (~ inside ->
   exists s',
     Crop ip x y width height s = Ok (ip, s') /\
     procs s' !! ip =
       Some (mkIP (Some img)
                  (Some (ErrCropOutOfBounds (mkRect (Pt x y) (Pt (x + width) (y + height))) b))
                  (perfOpts p)) /\
     mem s' = mem s).
Proof.
  intros Hp He Hi Hwf Hw Hh b inside.
  pose proof (lookup_lt_Some _ _ _ Hp) as Hlt.
  split.
  - intros (H1 & H2 & H3 & H4).
    set (r0 := mkRect (Pt 0 0) (Pt width height)).
    set (F := fun i j => pixel_at (mem s) img (x + i) (y + j)).
    assert (Dx r0 = width /\ Dy r0 = height) as [Hdx Hdy] by (unfold Dx, Dy; simpl; lia).
    assert (wf_RGBA (mem s ++ [render width height F]) (fresh_RGBA (mem s) r0)) as Hwf'.
    { pose proof (wf_fresh_RGBA (mem s) r0 (render width height F)
                    ltac:(lia) ltac:(lia)) as Hw'.
      apply Hw'. rewrite render_length, Hdx, Hdy. done. }
    assert (forall i j, 0 <= i < width -> 0 <= j < height ->
              At (mem s ++ [render width height F]) (ImgRGBA (fresh_RGBA (mem s) r0)) i j
              = Ok (copied img (color_at (mem s) img (x + i) (y + j)))) as Hcol.
    { intros i j Hi' Hj'. apply color_at_copy; try done; try (simpl; lia); try (subst b; lia).
      pose proof (pixel_at_render (mem s) r0 F i j ltac:(lia) ltac:(lia)) as Hr.
      rewrite Hdx, Hdy in Hr. simpl in Hr. by rewrite !Z.add_0_l in Hr. }
    exists (set_image s (mem s ++ [render width height F]) ip p (fresh_RGBA (mem s) r0)),
           (fresh_RGBA (mem s) r0).
    split; [by apply Crop_inside|].
    split; [simpl; rewrite list_lookup_insert_eq by done; by rewrite He|].
    split; [done|]. split; [done|]. split; [done|].
    split; [simpl; lia|].
    split; [done|]. cbn [mem set_image]. split; [done|]. split.
    + rewrite (Hcol 0 0) by lia. by rewrite !Z.add_0_r.
    + intros i j Hi' Hj'. cbv zeta. unfold color_at at 1. rewrite (Hcol i j) by done. done.
  - intros Hout. eexists.
    split; [exact (Crop_outside s ip p img x y width height Hp He Hi Hwf Hw Hh Hout)|].
    simpl. rewrite list_lookup_insert_eq by done. by rewrite Hi.
Qed.

Lemma C5_Crop_copies_high_bytes_witness :
  let b := Bounds sample_image in
  let inside := X (Min b) <= 1 /\ 1 + 1 <= X (Max b) /\ Y (Min b) <= 0 /\ 0 + 2 <= Y (Max b) in
  (inside ->
   exists s' dst,
     Crop 0 1 0 1 2 sample_store = Ok (0%nat, s') /\
     procs s' !! 0%nat = Some (mkIP (Some (ImgRGBA dst)) None (mkPerf 2 true 0)) /\
     Rect dst = mkRect (Pt 0 0) (Pt 1 2) /\
     Dx (Rect dst) = 1 /\ Dy (Rect dst) = 2 /\
     s_len (Pix dst) = 4 * 1 * 2 /\
     wf_RGBA (mem s') dst /\
     (forall i j, 0 <= i < 1 -> 0 <= j < 2 ->
        At (mem s') (ImgRGBA dst) i j =
        Ok (copied sample_image (color_at (mem sample_store) sample_image (1 + i) (0 + j)))) /\
     At (mem s') (ImgRGBA dst) 0 0 =
       Ok (copied sample_image (color_at (mem sample_store) sample_image 1 0)) /\
     (forall i j, 0 <= i < 1 -> 0 <= j < 2 ->
        let c := color_at (mem sample_store) sample_image (1 + i) (0 + j) in
        color_at (mem s') (ImgRGBA dst) i j = c <-> copied sample_image c = c)) /\
  (~ inside ->
   exists s',
     Crop 0 1 0 1 2 sample_store = Ok (0%nat, s') /\
     procs s' !! 0%nat =
       Some (mkIP (Some sample_image)
                  (Some (ErrCropOutOfBounds (mkRect (Pt 1 0) (Pt (1 + 1) (0 + 2))) b))
                  (mkPerf 2 true 0)) /\
     mem s' = mem sample_store).
Proof.
  apply (C5_Crop_copies_high_bytes sample_store 0
           (mkIP (Some sample_image) None (mkPerf 2 true 0)) sample_image 1 0 1 2);
    [reflexivity|reflexivity|reflexivity|exact sample_image_wf|lia|lia].
Defined.

(** The crop of an image with sixteen bits a channel does not show the
    source's pixel: the low byte of every channel is lost. *)
Lemma C5_counterexample :
  exists s' dst,
    wf_image (mem deep_store) deep_image /\
    Crop 0 0 0 1 1 deep_store = Ok (0%nat, s') /\
    procs s' !! 0%nat = Some (mkIP (Some (ImgRGBA dst)) None zeroPerf) /\
    At (mem deep_store) deep_image 0 0 = Ok (mkColor16 4660 22136 39612 65535) /\
    At (mem s') (ImgRGBA dst) 0 0 = Ok (mkColor16 4626 22102 39578 65535) /\
    At (mem s') (ImgRGBA dst) 0 0 <> At (mem deep_store) deep_image 0 0.
Proof.
  do 2 eexists.
  split; [vm_compute; split; congruence|].
  split; [vm_compute; reflexivity|]. split; [vm_compute; reflexivity|].
  split; [vm_compute; reflexivity|]. split; [vm_compute; reflexivity|].
  vm_compute. congruence.
Qed.

(** ** Grayscale *)

Lemma Grayscale_ok (s : Store) (ip : nat) (p : ImageProcessor) (img : image_Image) :
  procs s !! ip = Some p -> err p = None -> currentImage p = Some img ->
  wf_image (mem s) img ->
  Grayscale ip s = Ok (ip, set_image s (gray_heap (mem s) img) ip p (gray_image (mem s) img)).
Proof.
  intros Hp He Hi Hwf. unfold Grayscale. rewrite (deref_Some _ _ _ Hp). cbn [bindO].
  rewrite He, Hi. cbn [nonnil bindO]. by rewrite Grayscale_image_ok.
Qed.

Lemma gray_image_wf h img : wf_image h img -> wf_RGBA (gray_heap h img) (gray_image h img).
Proof.
  intros Hwf. destruct (wf_image_dims h img Hwf). apply wf_fresh_RGBA; try done.
  apply render_length.
Qed.

Lemma gray_image_pixel h img x y :
  0 <= x < Dx (Bounds img) -> 0 <= y < Dy (Bounds img) ->
  pixel_at (gray_heap h img) (ImgRGBA (gray_image h img))
           (X (Min (Bounds img)) + x) (Y (Min (Bounds img)) + y)
  = gray_of (pixel_at h img (X (Min (Bounds img)) + x) (Y (Min (Bounds img)) + y)).
Proof.
  intros Hx Hy. unfold gray_heap, gray_image, gray_pixels.
  by rewrite pixel_at_render.
Qed.

Lemma gray_heap_extends h img : gray_heap h img = h ++ (conv_arrays h img ++ [gray_pixels h img]).
Proof. unfold gray_heap. by rewrite app_assoc. Qed.

(** C2, as the code has it.  [Grayscale] on a processor without an error,
    whose image is well formed, gives the processor a fresh RGBA image of
    the same bounds.  Every pixel of it has its three colour channels set
    to [luminosity r g b], which is the float64 value
    [0.2126*r + 0.7152*g + 0.0722*b] with its fraction discarded, not
    rounded to nearest, and its alpha copied from the source.  The arrays
    that were in memory before, the source among them, are as they were. *)
Theorem C2_Grayscale_truncated_luminosity (s : Store) (ip : nat) (p : ImageProcessor)
    (img : image_Image) :
  procs s !! ip = Some p -> err p = None -> currentImage p = Some img ->
  wf_image (mem s) img ->
  exists s' dst new,
    Grayscale ip s = Ok (ip, s') /\
    procs s' !! ip = Some (mkIP (Some (ImgRGBA dst)) None (perfOpts p)) /\
    Rect dst = Bounds img /\
    wf_RGBA (mem s') dst /\
    (length (mem s) <= s_arr (Pix dst))%nat /\
    mem s' = mem s ++ new /\
    forall x y, 0 <= x < Dx (Bounds img) -> 0 <= y < Dy (Bounds img) ->
      let px := X (Min (Bounds img)) + x in
      let py := Y (Min (Bounds img)) + y in
      pixel_at (mem s') img px py = pixel_at (mem s) img px py /\
      forall r g b a, pixel_at (mem s) img px py = (r, g, b, a) ->
        pixel_at (mem s') (ImgRGBA dst) px py =
        (luminosity r g b, luminosity r g b, luminosity r g b, a) /\
        luminosity r g b =
        int_of_float64
          (fadd (fadd (fmul (decimal 2126 4) (float64_of_int r))
                      (fmul (decimal 7152 4) (float64_of_int g)))
                (fmul (decimal 722 4) (float64_of_int b))) mod 256.
Proof.
  intros Hp He Hi Hwf. pose proof (lookup_lt_Some _ _ _ Hp) as Hlt.
  exists (set_image s (gray_heap (mem s) img) ip p (gray_image (mem s) img)),
         (gray_image (mem s) img), (conv_arrays (mem s) img ++ [gray_pixels (mem s) img]).
  split; [by apply Grayscale_ok|].
  split; [simpl; rewrite list_lookup_insert_eq by done; by rewrite He|].
  split; [done|]. split; [by apply gray_image_wf|].
  split; [simpl; rewrite length_app; lia|].
  split; [apply gray_heap_extends|].
  intros x y Hx Hy px py. cbn [mem set_image]. split.
  - rewrite gray_heap_extends. by apply pixel_at_old.
  - intros r g b a Hpx. subst px py. rewrite gray_image_pixel, Hpx by done. done.
Qed.

Lemma C2_Grayscale_truncated_luminosity_witness :
  exists s' dst new,
    Grayscale 0 sample_store = Ok (0%nat, s') /\
    procs s' !! 0%nat = Some (mkIP (Some (ImgRGBA dst)) None (mkPerf 2 true 0)) /\
    Rect dst = Bounds sample_image /\
    wf_RGBA (mem s') dst /\
    (length (mem sample_store) <= s_arr (Pix dst))%nat /\
    mem s' = mem sample_store ++ new /\
    forall x y, 0 <= x < Dx (Bounds sample_image) -> 0 <= y < Dy (Bounds sample_image) ->
      let px := X (Min (Bounds sample_image)) + x in
      let py := Y (Min (Bounds sample_image)) + y in
      pixel_at (mem s') sample_image px py = pixel_at (mem sample_store) sample_image px py /\
      forall r g b a, pixel_at (mem sample_store) sample_image px py = (r, g, b, a) ->
        pixel_at (mem s') (ImgRGBA dst) px py =
        (luminosity r g b, luminosity r g b, luminosity r g b, a) /\
        luminosity r g b =
        int_of_float64
          (fadd (fadd (fmul (decimal 2126 4) (float64_of_int r))
                      (fmul (decimal 7152 4) (float64_of_int g)))
                (fmul (decimal 722 4) (float64_of_int b))) mod 256.
Proof.
  apply (C2_Grayscale_truncated_luminosity sample_store 0
           (mkIP (Some sample_image) None (mkPerf 2 true 0)) sample_image);
    [reflexivity|reflexivity|reflexivity|exact sample_image_wf].
Defined.

(** C2 as the spec words it fails.  The pixel (100, 150, 200, 255), at
    (0, 1) of the sample image, has the exact weighted sum 142.98, which
    rounds to 143; [Grayscale] writes 142. *)
Lemma C2_counterexample :
  exists s' dst,
    Grayscale 0 sample_store = Ok (0%nat, s') /\
    procs s' !! 0%nat = Some (mkIP (Some (ImgRGBA dst)) None (mkPerf 2 true 0)) /\
    pixel_at (mem sample_store) sample_image 0 1 = (100, 150, 200, 255) /\
    pixel_at (mem s') (ImgRGBA dst) 0 1 = (142, 142, 142, 255) /\
    spec_gray 100 150 200 = 143.
Proof.
  do 2 eexists.
  split; [vm_compute; reflexivity|]. split; [vm_compute; reflexivity|].
  split; [vm_compute; reflexivity|]. split; vm_compute; reflexivity.
Qed.

(** ** Grayscale twice *)

Lemma luminosity_range r g b : 0 <= luminosity r g b < 256.
Proof. unfold luminosity, uint8_of_float64. apply Z.mod_pos_bound. lia. Qed.

Lemma gray_levels_checked : forallb gray_stable_or_one_less (Zrange 0 256) = true.
Proof. vm_compute. reflexivity. Qed.

(** On a gray pixel the formula gives the level back or one less. *)
Lemma luminosity_gray g :
  0 <= g < 256 -> luminosity g g g = g \/ luminosity g g g = g - 1.
Proof.
  intros Hg. pose proof gray_levels_checked as Hall.
  rewrite forallb_forall in Hall.
  assert (In g (Zrange 0 256)) as Hin by (apply list_elem_of_In, elem_of_Zrange; lia).
  apply Hall in Hin. unfold gray_stable_or_one_less in Hin.
  apply orb_true_iff in Hin as [H|H]; apply Z.eqb_eq in H; auto.
Qed.

(** C6, as the code has it.  [Grayscale] applied twice gives an image of
    the same bounds and the same alpha as applied once; each colour channel
    is the gray level [g1] of the first pass or [g1 - 1]: the truncated
    float64 formula sends a gray level to itself or to the level below. *)
Theorem C6_Grayscale_twice_within_one (s : Store) (ip : nat) (p : ImageProcessor)
    (img : image_Image) :
  procs s !! ip = Some p -> err p = None -> currentImage p = Some img ->
  wf_image (mem s) img ->
  exists s1 s2 d1 d2,
    Grayscale ip s = Ok (ip, s1) /\
    Grayscale ip s1 = Ok (ip, s2) /\
    procs s1 !! ip = Some (mkIP (Some (ImgRGBA d1)) None (perfOpts p)) /\
    procs s2 !! ip = Some (mkIP (Some (ImgRGBA d2)) None (perfOpts p)) /\
    Rect d1 = Bounds img /\ Rect d2 = Bounds img /\
    forall x y, 0 <= x < Dx (Bounds img) -> 0 <= y < Dy (Bounds img) ->
      let px := X (Min (Bounds img)) + x in
      let py := Y (Min (Bounds img)) + y in
      exists g1 g2 a,
        pixel_at (mem s1) (ImgRGBA d1) px py = (g1, g1, g1, a) /\
        pixel_at (mem s2) (ImgRGBA d2) px py = (g2, g2, g2, a) /\
        g2 = luminosity g1 g1 g1 /\
        (g2 = g1 \/ g2 = g1 - 1).
Proof.
  intros Hp He Hi Hwf. pose proof (lookup_lt_Some _ _ _ Hp) as Hlt.
  set (h1 := gray_heap (mem s) img). set (d1 := gray_image (mem s) img).
  set (s1 := set_image s h1 ip p d1).
  assert (wf_image (mem s1) (ImgRGBA d1)) as Hwf1 by (by apply gray_image_wf).
  assert (procs s1 !! ip = Some (mkIP (Some (ImgRGBA d1)) (err p) (perfOpts p))) as Hp1
    by (simpl; by rewrite list_lookup_insert_eq).
  exists s1, (set_image s1 (gray_heap (mem s1) (ImgRGBA d1)) ip
                (mkIP (Some (ImgRGBA d1)) (err p) (perfOpts p)) (gray_image (mem s1) (ImgRGBA d1))),
         d1, (gray_image (mem s1) (ImgRGBA d1)).
  split; [by apply Grayscale_ok|].
  split; [by apply Grayscale_ok|].
  split; [by rewrite Hp1, He|].
  split; [simpl; rewrite list_lookup_insert_eq by (by rewrite length_insert); by rewrite He|].
  split; [done|]. split; [done|].
  intros x y Hx Hy px py. subst px py.
  destruct (pixel_at (mem s) img (X (Min (Bounds img)) + x) (Y (Min (Bounds img)) + y))
    as [[[r g] b] a] eqn:Hpx.
  exists (luminosity r g b), (luminosity (luminosity r g b) (luminosity r g b) (luminosity r g b)), a.
  assert (pixel_at (mem s1) (ImgRGBA d1) (X (Min (Bounds img)) + x) (Y (Min (Bounds img)) + y)
          = (luminosity r g b, luminosity r g b, luminosity r g b, a)) as Hg1.
  { subst s1 d1 h1. cbn [mem set_image]. rewrite gray_image_pixel, Hpx by done. done. }
  split; [done|]. split.
  - cbn [mem set_image].
    pose proof (gray_image_pixel h1 (ImgRGBA d1) x y Hx Hy) as Hg2.
    cbn [Bounds] in Hg2. replace (Rect d1) with (Bounds img) in Hg2 by done.
    change (mem s1) with h1 in Hg1 |- *. rewrite Hg1 in Hg2. exact Hg2.
  - split; [done|]. apply luminosity_gray, luminosity_range.
Qed.

Lemma C6_Grayscale_twice_within_one_witness :
  exists s1 s2 d1 d2,
    Grayscale 0 sample_store = Ok (0%nat, s1) /\
    Grayscale 0 s1 = Ok (0%nat, s2) /\
    procs s1 !! 0%nat = Some (mkIP (Some (ImgRGBA d1)) None (mkPerf 2 true 0)) /\
    procs s2 !! 0%nat = Some (mkIP (Some (ImgRGBA d2)) None (mkPerf 2 true 0)) /\
    Rect d1 = Bounds sample_image /\ Rect d2 = Bounds sample_image /\
    forall x y, 0 <= x < Dx (Bounds sample_image) -> 0 <= y < Dy (Bounds sample_image) ->
      let px := X (Min (Bounds sample_image)) + x in
      let py := Y (Min (Bounds sample_image)) + y in
      exists g1 g2 a,
        pixel_at (mem s1) (ImgRGBA d1) px py = (g1, g1, g1, a) /\
        pixel_at (mem s2) (ImgRGBA d2) px py = (g2, g2, g2, a) /\
        g2 = luminosity g1 g1 g1 /\
        (g2 = g1 \/ g2 = g1 - 1).
Proof.
  apply (C6_Grayscale_twice_within_one sample_store 0
           (mkIP (Some sample_image) None (mkPerf 2 true 0)) sample_image);
    [reflexivity|reflexivity|reflexivity|exact sample_image_wf].
Defined.

(** C6 as the spec words it fails.  The pixel (14, 14, 14, 200), at (1, 0)
    of the sample image, becomes (13, 13, 13, 200) after one pass and
    (12, 12, 12, 200) after two. *)
Lemma C6_counterexample :
  exists s1 s2 d1 d2,
    Grayscale 0 sample_store = Ok (0%nat, s1) /\
    Grayscale 0 s1 = Ok (0%nat, s2) /\
    procs s1 !! 0%nat = Some (mkIP (Some (ImgRGBA d1)) None (mkPerf 2 true 0)) /\
    procs s2 !! 0%nat = Some (mkIP (Some (ImgRGBA d2)) None (mkPerf 2 true 0)) /\
    pixel_at (mem s1) (ImgRGBA d1) 1 0 = (13, 13, 13, 200) /\
    pixel_at (mem s2) (ImgRGBA d2) 1 0 = (12, 12, 12, 200) /\
    pixel_at (mem s2) (ImgRGBA d2) 1 0 <> pixel_at (mem s1) (ImgRGBA d1) 1 0.
Proof.
  do 4 eexists.
  split; [vm_compute; reflexivity|]. split; [vm_compute; reflexivity|].
  split; [vm_compute; reflexivity|]. split; [vm_compute; reflexivity|].
  split; [vm_compute; reflexivity|]. split; [vm_compute; reflexivity|].
  vm_compute. congruence.
Qed.

(** ** The parallel engine away from the origin *)

Lemma run_sched_first_panics {I} (body : I -> Heap -> outcome Heap) sched (i : I) h p :
  body i h = Panic p -> run_sched body sched [[i]] h = Panic p.
Proof.
  intros Hb. induction sched as [|g sched IH]; simpl.
  - by rewrite Hb.
  - destruct g as [|g]; simpl; [by rewrite Hb|done].
Qed.


Lemma grayscaleParallel_image_off_origin (NumCPU : Z) (sched : list nat) :
  grayscaleParallel_image NumCPU (mkPerf 1 true 0) sched offset_image [[100; 150; 200; 255]]
  = Panic IndexOutOfRange.
Proof.
  unfold grayscaleParallel_image.
  change (image_Bounds offset_image) with (Ok (Bounds offset_image)). cbn [bindO].
  change (toRGBA offset_image [[100; 150; 200; 255]])
    with (Ok (mkRGBA (mkSlice 0 0 4) 4 (image_Rect 1 0 2 1), [[100; 150; 200; 255]])).
  cbn [bindO].
  replace (image_NewRGBA (Bounds offset_image) [[100; 150; 200; 255]])
    with (Ok (mkRGBA (mkSlice 1 0 4) 4 (image_Rect 1 0 2 1),
              [[100; 150; 200; 255]; [0; 0; 0; 0]])) by (vm_compute; reflexivity).
  cbn [bindO].
  replace (numGoroutines NumCPU (mkPerf 1 true 0) (Dy (Bounds offset_image))) with 1
    by (vm_compute; reflexivity).
  replace (strips 1 (Dx (Bounds offset_image)) (Dy (Bounds offset_image))) with [[(0, 0)]]
    by (vm_compute; reflexivity).
  cbn [Z.eqb].
  rewrite (run_sched_first_panics _ sched (0, 0) _ IndexOutOfRange); [done|].
  vm_compute. reflexivity.
Qed.

(** C1 at an image whose bounds do not start at the origin.  Both engines
    are handed the same one-pixel image: [Grayscale] returns its gray
    pixel; [GrayscaleFast], sent to [grayscaleParallel], indexes the
    source with [(y - Min.Y) * Stride + (0 - Min.X) * 4 = -4] and panics,
    whatever the schedule. *)
Theorem C1_parallel_engine_panics_off_origin (E : Collaborators) (sched : list nat) :
  GrayscaleFast E sched 0 offset_store = Panic IndexOutOfRange /\
  exists s' dst,
    Grayscale 0 offset_store = Ok (0%nat, s') /\
    procs s' !! 0%nat = Some (mkIP (Some (ImgRGBA dst)) None (mkPerf 1 true 0)) /\
    pixel_at (mem s') (ImgRGBA dst) 1 0 = (142, 142, 142, 255).
Proof.
  split.
  - unfold GrayscaleFast.
    change (deref offset_store 0) with (Ok (mkIP (Some offset_image) None (mkPerf 1 true 0))).
    cbn [bindO err currentImage nonnil perfOpts EnableParallelProcessing MinSizeForParallel andb].
    change (image_Bounds offset_image) with (Ok (Bounds offset_image)). cbn [bindO].
    replace (0 <=? Dx (Bounds offset_image) * Dy (Bounds offset_image)) with true
      by (vm_compute; reflexivity).
    unfold grayscaleParallel. cbn [bindO currentImage nonnil perfOpts mem offset_store].
    by rewrite grayscaleParallel_image_off_origin.
  - do 2 eexists. split; [vm_compute; reflexivity|].
    split; vm_compute; reflexivity.
Qed.

(** With no rows there is no goroutine, and the division that sizes the
    strips is by zero. *)
Lemma grayscaleParallel_no_rows (E : Collaborators) (sched : list nat) :
  GrayscaleFast E sched 0 empty_store = Panic DivideByZero /\
  exists s', Grayscale 0 empty_store = Ok (0%nat, s').
Proof.
  split.
  - unfold GrayscaleFast.
    change (deref empty_store 0)
      with (Ok (mkIP (Some (ImgRGBA (mkRGBA (mkSlice 0 0 0) 0 (image_Rect 0 0 0 0)))) None
                     (mkPerf 1 true 0))).
    cbn [bindO err currentImage nonnil perfOpts EnableParallelProcessing MinSizeForParallel andb
         image_Bounds].
    replace (0 <=? _) with true by (vm_compute; reflexivity).
    unfold grayscaleParallel, grayscaleParallel_image.
    cbn [bindO currentImage nonnil perfOpts mem empty_store toRGBA image_Bounds].
    replace (image_NewRGBA _ _)
      with (Ok (mkRGBA (mkSlice 1 0 0) 0 (image_Rect 0 0 0 0), [[]; []] : Heap))
      by (vm_compute; reflexivity).
    cbn [bindO].
    replace (numGoroutines _ _ _) with 0 by (vm_compute; reflexivity).
    done.
  - eexists. vm_compute. reflexivity.
Qed.

(** Where the parallel engine is right: for a well-formed image at the
    origin with at least one row, and whenever the image is too small or
    parallel processing is off, [GrayscaleFast] is [Grayscale], under every
    schedule and for every number of goroutines. *)
Theorem GrayscaleFast_is_Grayscale (E : Collaborators) (sched : list nat) (s : Store) (ip : nat)
    (p : ImageProcessor) (img : image_Image) :
  procs s !! ip = Some p -> err p = None -> currentImage p = Some img ->
  1 <= runtime_NumCPU E ->
  (EnableParallelProcessing (perfOpts p) = true ->
   MinSizeForParallel (perfOpts p) <= Dx (Bounds img) * Dy (Bounds img) ->
   wf_image (mem s) img /\ Min (Bounds img) = Pt 0 0 /\ 1 <= Dy (Bounds img)) ->
  GrayscaleFast E sched ip s = Grayscale ip s.
Proof.
  intros Hp He Hi Hcpu Hpar. unfold GrayscaleFast, Grayscale.
  rewrite (deref_Some _ _ _ Hp). cbn [bindO]. rewrite He, Hi. cbn [nonnil bindO].
  destruct (image_Bounds img) as [b|q] eqn:Hb;
    [|unfold Grayscale_image; by rewrite Hb].
  assert (b = Bounds img) as -> by (destruct img; by inversion Hb). cbn [bindO].
  destruct (EnableParallelProcessing (perfOpts p)) eqn:Hen; cbn [andb].
  - destruct (Z.leb_spec (MinSizeForParallel (perfOpts p)) (Dx (Bounds img) * Dy (Bounds img)))
      as [Hsz|Hsz].
    + destruct (Hpar eq_refl Hsz) as (Hwf & Hmin & Hrows).
      unfold grayscaleParallel. rewrite Hi. cbn [nonnil bindO].
      by rewrite grayscaleParallel_image_ok.
    + unfold grayscaleDirect. by rewrite Hi.
  - unfold grayscaleDirect. by rewrite Hi.
Qed.

(** ** Operations only add to the pixel memory *)

Lemma extends_refl h : extends h h.
Proof. exists []. by rewrite app_nil_r. Qed.

Lemma extends_trans h1 h2 h3 : extends h1 h2 -> extends h2 h3 -> extends h1 h3.
Proof. intros [t1 ->] [t2 ->]. exists (t1 ++ t2). by rewrite app_assoc. Qed.

Lemma bindO_Ok {A B} (m : outcome A) (k : A -> outcome B) b :
  bindO m k = Ok b -> exists a, m = Ok a /\ k a = Ok b.
Proof. destruct m as [a|]; [|done]. intros H. by exists a. Qed.

Lemma touches_only_read {A} d (rd : Heap -> outcome A) (wr : A -> Heap -> outcome Heap) :
  (forall a, touches_only d (wr a)) ->
  touches_only d (fun h => let* a := rd h in wr a h).
Proof.
  intros Hw h h' Hr. simpl in Hr. apply bindO_Ok in Hr as (a & _ & Hr). by eapply Hw.
Qed.

Lemma grayPixel_touches src dst srcIdx dstIdx :
  touches_only (s_arr (Pix dst)) (grayPixel src dst srcIdx dstIdx).
Proof.
  intros h h' Hr. rewrite grayPixel_set_pixel in Hr.
  apply bindO_Ok in Hr as (a & _ & Hr). by eapply set_pixel_touches.
Qed.

Lemma drawPixel_touches dst src r sp yx :
  touches_only (s_arr (Pix dst)) (drawPixel dst src r sp yx).
Proof.
  destruct yx as [y x]. intros h h' Hr. unfold drawPixel in Hr.
  apply bindO_Ok in Hr as (a & _ & Hr). by eapply set_pixel_touches.
Qed.

Lemma draw_Draw_touches dst r src sp : touches_only (s_arr (Pix dst)) (draw_Draw dst r src sp).
Proof.
  intros h h'. unfold draw_Draw. destruct (image_Bounds src); [cbn [bindO]|done].
  destruct (clip dst r src sp) as [r' sp'].
  destruct (Empty r'); [by intros [= <-]|].
  apply run_touches. intros yx. apply drawPixel_touches.
Qed.

Lemma overwrite_touches dst (bytes : Heap -> list Z) :
  touches_only (s_arr (Pix dst)) (fun h => Ok (overwrite h dst (bytes h))).
Proof.
  intros h h' [= <-]. unfold overwrite. destruct (h !! s_arr (Pix dst)); [|done]. split.
  - by rewrite length_insert.
  - intros j Hj. by rewrite list_lookup_insert_ne.
Qed.

(** A step that touches only the array just allocated leaves the memory
    extended by one array. *)
Lemma touches_fresh (h : Heap) (z : list Z) f h2 :
  touches_only (length h) f -> f (h ++ [z]) = Ok h2 -> exists c, h2 = h ++ [c].
Proof.
  intros Hf Hr. destruct (Hf _ _ Hr) as [Hlen Hoth].
  rewrite length_app in Hlen. simpl in Hlen.
  destruct (lookup_lt_is_Some_2 h2 (length h) ltac:(lia)) as [c Hc].
  exists c. apply list_eq. intros j.
  destruct (decide (j = length h)) as [->|Hj].
  - by rewrite Hc, list_lookup_middle.
  - rewrite Hoth by done.
    destruct (decide (j < length h)%nat).
    + by rewrite !lookup_app_l.
    + rewrite !lookup_ge_None_2; [done|rewrite length_app; simpl; lia..].
Qed.

Lemma image_NewRGBA_inv r h m h' :
  image_NewRGBA r h = Ok (m, h') -> m = fresh_RGBA h r /\ h' = h ++ [zeros r].
Proof.
  unfold image_NewRGBA. destruct (_ || _); [done|]. by intros [= <- <-].
Qed.

(** Allocate a destination, then run a step that touches only it. *)
Lemma fresh_then_touch r h (f : image_RGBA -> Heap -> outcome Heap) m h1 h2 :
  (forall dst, touches_only (s_arr (Pix dst)) (f dst)) ->
  image_NewRGBA r h = Ok (m, h1) -> f m h1 = Ok h2 -> extends h h2.
Proof.
  intros Hf Hn Hr. apply image_NewRGBA_inv in Hn as [-> ->].
  destruct (touches_fresh h (zeros r) (f (fresh_RGBA h r)) h2) as [c ->]; [apply Hf|done|].
  by exists [c].
Qed.

Lemma toRGBA_extends img h m h' : toRGBA img h = Ok (m, h') -> extends h h'.
Proof.
  destruct img as [m0|b at_|]; simpl; [| |done].
  - intros [= <- <-]. apply extends_refl.
  - intros Hr. apply bindO_Ok in Hr as ([m1 h1] & Hn & Hr).
    apply bindO_Ok in Hr as (h2 & Hd & [= <- <-]).
    eapply (fresh_then_touch b h (fun dst => draw_Draw dst b (ImgOther b at_) (Min b))); try done.
    intros dst. apply draw_Draw_touches.
Qed.

Lemma Grayscale_image_extends img h m h' : Grayscale_image img h = Ok (m, h') -> extends h h'.
Proof.
  unfold Grayscale_image. intros Hr.
  apply bindO_Ok in Hr as (b & Hb & Hr). apply image_Bounds_inv in Hb as ->.
  apply bindO_Ok in Hr as ([src h1] & Hs & Hr).
  apply bindO_Ok in Hr as ([dst h2] & Hn & Hr).
  apply bindO_Ok in Hr as (h3 & Hrun & [= <- <-]).
  eapply extends_trans; [by eapply toRGBA_extends|].
  eapply (fresh_then_touch _ h1 (fun dst => run (Grayscale_body src dst) _)); try done.
  intros d. apply run_touches. intros [y x]. apply grayPixel_touches.
Qed.

Lemma grayscaleParallel_image_extends NumCPU opts sched img h m h' :
  grayscaleParallel_image NumCPU opts sched img h = Ok (m, h') -> extends h h'.
Proof.
  unfold grayscaleParallel_image. intros Hr.
  apply bindO_Ok in Hr as (b & Hb & Hr). apply image_Bounds_inv in Hb as ->.
  apply bindO_Ok in Hr as ([src h1] & Hs & Hr).
  apply bindO_Ok in Hr as ([dst h2] & Hn & Hr).
  destruct (_ =? 0); [done|].
  apply bindO_Ok in Hr as (h3 & Hrun & [= <- <-]).
  eapply extends_trans; [by eapply toRGBA_extends|].
  eapply (fresh_then_touch _ h1
            (fun dst => run_sched (grayscaleParallel_body (Bounds img) src dst) sched _)); try done.
  intros d. apply run_sched_touches. intros [y x]. apply grayPixel_touches.
Qed.

Lemma frame_refl ip s : frame ip s s.
Proof.
  split; [apply extends_refl|]. split; [done|]. split; [done|]. intros p Hp.
  exists p. split; [done|]. by left.
Qed.

Lemma frame_set_err ip s p e : frame ip s (set_err s ip p e).
Proof.
  split; [apply extends_refl|]. simpl. split; [by rewrite length_insert|]. split.
  - intros jp Hj. by rewrite list_lookup_insert_ne.
  - intros p0 Hp0. rewrite list_lookup_insert_eq by (by eapply lookup_lt_Some).
    eexists. split; [done|]. right. by left.
Qed.

Lemma frame_set_image ip s h p m : extends (mem s) h -> frame ip s (set_image s h ip p m).
Proof.
  intros He. split; [done|]. simpl. split; [by rewrite length_insert|]. split.
  - intros jp Hj. by rewrite list_lookup_insert_ne.
  - intros p0 Hp0. rewrite list_lookup_insert_eq by (by eapply lookup_lt_Some).
    eexists. split; [done|]. right. right. by eexists.
Qed.

Lemma frame_trans ip s1 s2 s3 : frame ip s1 s2 -> frame ip s2 s3 -> frame ip s1 s3.
Proof.
  intros (E1 & L1 & F1 & I1) (E2 & L2 & F2 & I2). split; [by eapply extends_trans|].
  split; [congruence|]. split.
  - intros jp Hj. by rewrite F2, F1.
  - intros p Hp. destruct (I1 p Hp) as (p' & Hp' & H1).
    destruct (I2 p' Hp') as (p'' & Hp'' & H2). exists p''. split; [done|].
    destruct H2 as [[Hi He]|[He|[m Hm]]]; [|by right; left|by right; right; exists m].
    destruct H1 as [[Hi1 He1]|[He1|[m Hm]]].
    + left. split; congruence.
    + right. left. congruence.
    + right. right. exists m. congruence.
Qed.

Lemma Crop_frame ip x y width height s r s' :
  Crop ip x y width height s = Ok (r, s') -> r = ip /\ frame ip s s'.
Proof.
  unfold Crop. intros H. apply bindO_Ok in H as (p & Hp & H).
  destruct (err p); [inversion H; subst; split; [done|apply frame_refl]|].
  destruct (_ || _); [inversion H; subst; split; [done|apply frame_set_err]|].
  apply bindO_Ok in H as (img & Hi & H).
  apply bindO_Ok in H as (b & Hb & H).
  destruct (negb _); [inversion H; subst; split; [done|apply frame_set_err]|].
  apply bindO_Ok in H as ([m h1] & Hn & H).
  apply bindO_Ok in H as (h2 & Hd & [= <- <-]).
  split; [done|]. apply frame_set_image.
  eapply (fresh_then_touch _ (mem s) (fun dst => draw_Draw dst (Rect dst) img _)); try done.
  intros dst. apply draw_Draw_touches.
Qed.

Lemma Resize_frame E ip width height s r s' :
  Resize E ip width height s = Ok (r, s') -> r = ip /\ frame ip s s'.
Proof.
  unfold Resize. intros H. apply bindO_Ok in H as (p & Hp & H).
  destruct (err p); [inversion H; subst; split; [done|apply frame_refl]|].
  destruct (_ || _); [inversion H; subst; split; [done|apply frame_set_err]|].
  apply bindO_Ok in H as (img & Hi & H).
  apply bindO_Ok in H as (b & Hb & H).
  apply bindO_Ok in H as ([m h1] & Hn & [= <- <-]).
  split; [done|]. apply frame_set_image.
  eapply (fresh_then_touch _ (mem s)
            (fun dst h => Ok (overwrite h dst (catmullRom_Scale E h dst _ img _)))); try done.
  intros dst. apply (overwrite_touches dst (fun h => catmullRom_Scale E h dst _ img _)).
Qed.

Lemma Grayscale_frame ip s r s' : Grayscale ip s = Ok (r, s') -> r = ip /\ frame ip s s'.
Proof.
  unfold Grayscale. intros H. apply bindO_Ok in H as (p & Hp & H).
  destruct (err p); [inversion H; subst; split; [done|apply frame_refl]|].
  apply bindO_Ok in H as (img & Hi & H).
  apply bindO_Ok in H as ([m h1] & Hg & [= <- <-]).
  split; [done|]. apply frame_set_image. by eapply Grayscale_image_extends.
Qed.

Lemma GrayscaleFast_frame E sched ip s r s' :
  GrayscaleFast E sched ip s = Ok (r, s') -> r = ip /\ frame ip s s'.
Proof.
  unfold GrayscaleFast. intros H. apply bindO_Ok in H as (p & Hp & H).
  destruct (err p); [inversion H; subst; split; [done|apply frame_refl]|].
  apply bindO_Ok in H as (img & Hi & H).
  apply bindO_Ok in H as (b & Hb & H).
  destruct (_ && _).
  - unfold grayscaleParallel in H. apply bindO_Ok in H as (img' & Hi' & H).
    apply bindO_Ok in H as ([m h1] & Hg & [= <- <-]).
    split; [done|]. apply frame_set_image. by eapply grayscaleParallel_image_extends.
  - unfold grayscaleDirect in H. apply bindO_Ok in H as (img' & Hi' & H).
    apply bindO_Ok in H as ([m h1] & Hg & [= <- <-]).
    split; [done|]. apply frame_set_image. by eapply Grayscale_image_extends.
Qed.

Lemma AddTextWatermark_frame E text options ip s r s' :
  AddTextWatermark E text options ip s = Ok (r, s') -> r = ip /\ frame ip s s'.
Proof.
  unfold AddTextWatermark. intros H. apply bindO_Ok in H as (p & Hp & H).
  destruct (err p); [inversion H; subst; split; [done|apply frame_refl]|].
  destruct (String.eqb _ _); [inversion H; subst; split; [done|apply frame_set_err]|].
  destruct (opentype_Parse E _) as [fnt|e];
    [|inversion H; subst; split; [done|apply frame_set_err]].
  destruct (opentype_NewFace E fnt _) as [face|e];
    [|inversion H; subst; split; [done|apply frame_set_err]].
  apply bindO_Ok in H as (img & Hi & H).
  apply bindO_Ok in H as (b & Hb & H). apply image_Bounds_inv in Hb as ->.
  apply bindO_Ok in H as ([m h1] & Hn & H).
  apply bindO_Ok in H as (h2 & Hd & H).
  destruct (face_Metrics E face) as [[mh ma] md]. destruct (anchor _ _ _ _ _ _) as [ax ay].
  inversion H; subst; clear H.
  split; [done|]. apply frame_set_image.
  match goal with
  | |- extends _ (overwrite _ _ (drawer_DrawString E face ?c ?d ?t _ _)) =>
      set (draw := fun dst h => drawer_DrawString E face c d t h dst)
  end.
  apply (fresh_then_touch (Bounds img) (mem s)
           (fun dst h => let* h' := draw_Draw dst (Bounds img) img (Min (Bounds img)) h in
                         Ok (overwrite h' dst (draw dst h'))) m h1); [|done|].
  - intros dst.
    apply (touches_only_bind _ (draw_Draw dst (Bounds img) img (Min (Bounds img)))
             (fun h => Ok (overwrite h dst (draw dst h)))).
    + apply draw_Draw_touches.
    + apply (overwrite_touches dst (draw dst)).
  - simpl. by rewrite Hd.
Qed.

Lemma SetPerformanceOptions_frame ip opts s r s' :
  SetPerformanceOptions ip opts s = Ok (r, s') -> r = ip /\ frame ip s s'.
Proof.
  unfold SetPerformanceOptions. intros H. apply bindO_Ok in H as (p & Hp & [= <- <-]).
  split; [done|]. split; [apply extends_refl|]. simpl. split; [by rewrite length_insert|].
  split.
  - intros jp Hj. by rewrite list_lookup_insert_ne.
  - intros p0 Hp0. rewrite list_lookup_insert_eq by (by eapply lookup_lt_Some).
    eexists. split; [done|]. left. simpl.
    unfold deref in Hp. rewrite Hp0 in Hp. by inversion Hp; subst.
Qed.

(** Every call returns the processor it was made on, changes no other
    processor, and leaves every array of the memory as it was. *)
Lemma call_frame E c ip s r s' : call E c ip s = Ok (r, s') -> r = ip /\ frame ip s s'.
Proof.
  destruct c; simpl.
  - apply SetPerformanceOptions_frame.
  - apply Crop_frame.
  - apply Resize_frame.
  - apply Grayscale_frame.
  - apply GrayscaleFast_frame.
  - apply AddTextWatermark_frame.
Qed.

Lemma calls_frame E cs ip s s' : calls E cs ip s = Ok s' -> frame ip s s'.
Proof.
  revert s. induction cs as [|c cs IH]; intros s; simpl.
  - intros [= <-]. apply frame_refl.
  - intros H. apply bindO_Ok in H as ([r s1] & Hc & H).
    apply call_frame in Hc as [_ Hf]. eapply frame_trans; [done|]. by apply IH.
Qed.

(** ** Clone *)

(** C8. [Clone] leaves its receiver and the memory as they are and returns
    a new processor with the same image reference, the same error and the
    same options.  Afterwards, whatever calls are made on one of the two,
    the other keeps its image reference, error and options, and every
    image that was in memory, the shared one among them, shows the pixels
    it showed: calls write to fresh arrays only.  The same holds step by
    step in every later store, for every call on one processor and every
    other processor. *)
Theorem C8_Clone_shares_and_is_independent (E : Collaborators) (s : Store) (ip : nat)
    (p : ImageProcessor) :
  procs s !! ip = Some p ->
  exists c s1,
    Clone ip s = Ok (c, s1) /\ c <> ip /\
    procs s1 !! c = Some (mkIP (currentImage p) (err p) (perfOpts p)) /\
    procs s1 !! ip = Some p /\
    mem s1 = mem s /\
    (forall a b cs s2,
       (a = ip /\ b = c) \/ (a = c /\ b = ip) ->
       calls E cs a s1 = Ok s2 ->
       procs s2 !! b = procs s1 !! b /\
       extends (mem s1) (mem s2) /\
       forall img, wf_image (mem s1) img ->
         forall x y, pixel_at (mem s2) img x y = pixel_at (mem s1) img x y) /\
    (forall s2 a b op r s3,
       a <> b -> call E op a s2 = Ok (r, s3) ->
       r = a /\
       procs s3 !! b = procs s2 !! b /\
       extends (mem s2) (mem s3) /\
       forall img, wf_image (mem s2) img ->
         forall x y, pixel_at (mem s3) img x y = pixel_at (mem s2) img x y).
Proof.
  intros Hp. pose proof (lookup_lt_Some _ _ _ Hp) as Hlt.
  exists (length (procs s)),
         (mkStore (mem s) (procs s ++ [mkIP (currentImage p) (err p) (perfOpts p)])).
  split; [unfold Clone; by rewrite (deref_Some _ _ _ Hp)|].
  split; [lia|]. split; [simpl; by rewrite list_lookup_middle|].
  split; [simpl; by rewrite lookup_app_l|]. split; [done|]. split.
  - intros a b cs s2 Hab Hcalls. apply calls_frame in Hcalls as (Hext & Hlen & Hoth & _).
    split; [apply Hoth; lia|]. split; [done|].
    intros img Hwf x y. destruct Hext as [t ->]. by apply pixel_at_old.
  - intros s2 a b op r s3 Hab Hcall. apply call_frame in Hcall as (-> & Hext & Hlen & Hoth & _).
    split; [done|]. split; [apply Hoth; congruence|]. split; [done|].
    intros img Hwf x y. destruct Hext as [t ->]. by apply pixel_at_old.
Qed.

Lemma C8_Clone_shares_and_is_independent_witness :
  exists c s1,
    Clone 0 sample_store = Ok (c, s1) /\ c <> 0%nat /\
    procs s1 !! c = Some (mkIP (Some sample_image) None (mkPerf 2 true 0)) /\
    procs s1 !! 0%nat = Some (mkIP (Some sample_image) None (mkPerf 2 true 0)) /\
    mem s1 = mem sample_store /\
    (forall a b cs s2,
       (a = 0%nat /\ b = c) \/ (a = c /\ b = 0%nat) ->
       calls sample_env cs a s1 = Ok s2 ->
       procs s2 !! b = procs s1 !! b /\
       extends (mem s1) (mem s2) /\
       forall img, wf_image (mem s1) img ->
         forall x y, pixel_at (mem s2) img x y = pixel_at (mem s1) img x y) /\
    (forall s2 a b op r s3,
       a <> b -> call sample_env op a s2 = Ok (r, s3) ->
       r = a /\
       procs s3 !! b = procs s2 !! b /\
       extends (mem s2) (mem s3) /\
       forall img, wf_image (mem s2) img ->
         forall x y, pixel_at (mem s3) img x y = pixel_at (mem s2) img x y).
Proof.
  apply (C8_Clone_shares_and_is_independent sample_env sample_store 0
           (mkIP (Some sample_image) None (mkPerf 2 true 0))).
  reflexivity.
Defined.

(** The clone and the original after a call on the original: the clone
    still holds the image it was given. *)
Example Clone_then_Grayscale :
  exists c s1 s2,
    Clone 0 sample_store = Ok (c, s1) /\
    Grayscale 0 s1 = Ok (0%nat, s2) /\
    (currentImage <$> procs s2 !! c) = Some (Some sample_image) /\
    pixel_at (mem s2) sample_image 1 0 = (14, 14, 14, 200).
Proof.
  do 3 eexists. split; [vm_compute; reflexivity|]. split; [vm_compute; reflexivity|].
  split; vm_compute; reflexivity.
Qed.

(** ** ToBytes *)

(** C9, as the code has it.  On a processor with an error [ToBytes]
    returns that error, whatever the collaborators.  Without an error and
    with an image, a format other than JPEG and PNG gives the GIF or the
    unsupported-format error; JPEG and PNG give what their encoder gives,
    bytes or an error; and every error is wrapped with the context of the
    encoding step.  So in that state there is an error when the format has
    no encoder, and also when the encoder fails. *)
Theorem C9_ToBytes_errors (E : Collaborators) (s : Store) (ip : nat) (p : ImageProcessor)
    (format : ImageFormat) :
  procs s !! ip = Some p ->
  (forall e, err p = Some e -> ToBytes E ip format s = Ok (None, Some e)) /\
  (forall img, err p = None -> currentImage p = Some img ->
     (has_encoder format = false ->
      ToBytes E ip format s =
      Ok (None, Some (ErrWrap "failed to encode image to bytes"
                        (if format =? FormatGIF then ErrGIFEncoding
                         else ErrUnsupportedFormat (ImageFormat_String format))))) /\
     (has_encoder format = true ->
      let encoded := if format =? FormatJPEG then jpeg_Encode E (mem s) img 90
                     else png_Encode E (mem s) img in
      ToBytes E ip format s =
      match encoded with
      | inl bytes => Ok (Some bytes, None)
      | inr e => Ok (None, Some (ErrWrap "failed to encode image to bytes" e))
      end) /\
     (forall bytes e, ToBytes E ip format s = Ok (bytes, Some e) ->
        bytes = None /\ exists cause, e = ErrWrap "failed to encode image to bytes" cause)).
Proof.
  intros Hp. unfold ToBytes. rewrite (deref_Some _ _ _ Hp). cbn [bindO]. split.
  - intros e He. by rewrite He.
  - intros img He Hi. rewrite He, Hi. unfold encodeImage, has_encoder. split; [|split].
    + intros Henc. apply orb_false_iff in Henc as [-> ->].
      by destruct (format =? FormatGIF).
    + intros Henc. destruct (format =? FormatJPEG); [done|].
      simpl in Henc. by rewrite Henc.
    + intros bytes e.
      destruct (format =? FormatJPEG); [destruct (jpeg_Encode _ _ _ _)|];
        [| |destruct (format =? FormatPNG); [destruct (png_Encode _ _ _)|
             destruct (format =? FormatGIF)]];
        intros [= <- <-]; (split; [done|by eexists]).
Qed.

Lemma C9_ToBytes_errors_witness :
  (forall e, err (mkIP (Some sample_image) None (mkPerf 2 true 0)) = Some e ->
     ToBytes sample_env 0 FormatGIF sample_store = Ok (None, Some e)) /\
  (forall img, err (mkIP (Some sample_image) None (mkPerf 2 true 0)) = None ->
     currentImage (mkIP (Some sample_image) None (mkPerf 2 true 0)) = Some img ->
     (has_encoder FormatGIF = false ->
      ToBytes sample_env 0 FormatGIF sample_store =
      Ok (None, Some (ErrWrap "failed to encode image to bytes"
                        (if FormatGIF =? FormatGIF then ErrGIFEncoding
                         else ErrUnsupportedFormat (ImageFormat_String FormatGIF))))) /\
     (has_encoder FormatGIF = true ->
      let encoded := if FormatGIF =? FormatJPEG
                     then jpeg_Encode sample_env (mem sample_store) img 90
                     else png_Encode sample_env (mem sample_store) img in
      ToBytes sample_env 0 FormatGIF sample_store =
      match encoded with
      | inl bytes => Ok (Some bytes, None)
      | inr e => Ok (None, Some (ErrWrap "failed to encode image to bytes" e))
      end) /\
     (forall bytes e, ToBytes sample_env 0 FormatGIF sample_store = Ok (bytes, Some e) ->
        bytes = None /\ exists cause, e = ErrWrap "failed to encode image to bytes" cause)).
Proof.
  apply (C9_ToBytes_errors sample_env sample_store 0
           (mkIP (Some sample_image) None (mkPerf 2 true 0)) FormatGIF).
  reflexivity.
Defined.

(** C9 as the spec words it fails: JPEG has an encoder, the processor has
    no error and has an image, and [ToBytes] returns an error, the one the
    encoder gives for an image too large for the format. *)
Lemma C9_counterexample :
  has_encoder FormatJPEG = true /\
  (err <$> procs wide_store !! 0%nat) = Some None /\
  (exists img, (currentImage <$> procs wide_store !! 0%nat) = Some (Some img)) /\
  ToBytes jpeg_limit_env 0 FormatJPEG wide_store =
  Ok (None, Some (ErrWrap "failed to encode image to bytes"
                    (ErrLibrary "jpeg: image is too large to encode"))).
Proof.
  split; [reflexivity|]. split; [reflexivity|]. split; [by eexists|].
  vm_compute. reflexivity.
Qed.

(** ** No call goes through a nil image *)

Lemma no_nil_Ok {A} (a : A) : no_nil (Ok a).
Proof. done. Qed.

Lemma no_nil_bind {A B} (m : outcome A) (k : A -> outcome B) :
  no_nil m -> (forall a, m = Ok a -> no_nil (k a)) -> no_nil (bindO m k).
Proof.
  intros Hm Hk. destruct m as [a|q]; simpl; [by apply Hk|].
  intros [= ->]. by apply Hm.
Qed.

Lemma slice_get_no_nil h s i : no_nil (slice_get h s i).
Proof. unfold slice_get. destruct (in_len s i), (h !! s_arr s) as [a|]; try done. by destruct (a !! _). Qed.

Lemma slice_set_no_nil h s i v : no_nil (slice_set h s i v).
Proof. unfold slice_set. destruct (in_len s i), (h !! s_arr s) as [a|]; try done. by destruct (_ <? _)%nat. Qed.

Lemma set_pixel_no_nil h s i p : no_nil (set_pixel h s i p).
Proof.
  destruct p as [[[r g] b] a]. unfold set_pixel.
  repeat (apply no_nil_bind; [apply slice_set_no_nil|intros ? _]). apply slice_set_no_nil.
Qed.

Lemma grayPixel_no_nil src dst srcIdx dstIdx h : no_nil (grayPixel src dst srcIdx dstIdx h).
Proof.
  rewrite grayPixel_set_pixel. apply no_nil_bind; [|intros ? _; apply set_pixel_no_nil].
  repeat (apply no_nil_bind; [apply slice_get_no_nil|intros ? _]). done.
Qed.

Lemma image_Bounds_usable img : usable img -> image_Bounds img = Ok (Bounds img).
Proof. by destruct img. Qed.

Lemma src_pixel_no_nil h src x y : usable src -> no_nil (src_pixel h src x y).
Proof.
  intros Hu. destruct src as [m|b at_|]; simpl; [|done..].
  repeat (apply no_nil_bind; [apply slice_get_no_nil|intros ? _]). done.
Qed.

Lemma drawPixel_no_nil dst src r sp yx h : usable src -> no_nil (drawPixel dst src r sp yx h).
Proof.
  intros Hu. destruct yx as [y x]. unfold drawPixel.
  apply no_nil_bind; [by apply src_pixel_no_nil|intros ? _; apply set_pixel_no_nil].
Qed.

Lemma run_no_nil {I} (body : I -> Heap -> outcome Heap) l h :
  (forall i h, no_nil (body i h)) -> no_nil (run body l h).
Proof.
  intros Hb. revert h. induction l as [|i l IH]; intros h; simpl; [done|].
  apply no_nil_bind; [apply Hb|intros ? _; apply IH].
Qed.

Lemma run_sched_no_nil {I} (body : I -> Heap -> outcome Heap) sched ws h :
  (forall i h, no_nil (body i h)) -> no_nil (run_sched body sched ws h).
Proof.
  intros Hb. revert ws h. induction sched as [|g sched IH]; intros ws h; simpl.
  - by apply run_no_nil.
  - destruct (ws !! g) as [[|i rest]|]; try apply IH.
    apply no_nil_bind; [apply Hb|intros ? _; apply IH].
Qed.

Lemma draw_Draw_no_nil dst r src sp h : usable src -> no_nil (draw_Draw dst r src sp h).
Proof.
  intros Hu. unfold draw_Draw. rewrite image_Bounds_usable by done. cbn [bindO].
  destruct (clip dst r src sp) as [r' sp']. destruct (Empty r'); [done|].
  apply run_no_nil. intros. by apply drawPixel_no_nil.
Qed.

Lemma image_NewRGBA_no_nil r h : no_nil (image_NewRGBA r h).
Proof. unfold image_NewRGBA. by destruct (_ || _). Qed.

Lemma toRGBA_no_nil img h : usable img -> no_nil (toRGBA img h).
Proof.
  intros Hu. destruct img as [m|b at_|]; simpl; [done| |done].
  apply no_nil_bind; [apply image_NewRGBA_no_nil|intros [m1 h1] _].
  apply no_nil_bind; [by apply draw_Draw_no_nil|done].
Qed.

Lemma Grayscale_image_no_nil img h : usable img -> no_nil (Grayscale_image img h).
Proof.
  intros Hu. unfold Grayscale_image. rewrite image_Bounds_usable by done. cbn [bindO].
  apply no_nil_bind; [by apply toRGBA_no_nil|intros [src h1] _].
  apply no_nil_bind; [apply image_NewRGBA_no_nil|intros [dst h2] _].
  apply no_nil_bind; [|done]. apply run_no_nil. intros [y x] h'. apply grayPixel_no_nil.
Qed.

Lemma grayscaleParallel_image_no_nil NumCPU opts sched img h :
  usable img -> no_nil (grayscaleParallel_image NumCPU opts sched img h).
Proof.
  intros Hu. unfold grayscaleParallel_image. rewrite image_Bounds_usable by done. cbn [bindO].
  apply no_nil_bind; [by apply toRGBA_no_nil|intros [src h1] _].
  apply no_nil_bind; [apply image_NewRGBA_no_nil|intros [dst h2] _].
  destruct (_ =? 0); [done|].
  apply no_nil_bind; [|done]. apply run_sched_no_nil. intros [y x] h'. apply grayPixel_no_nil.
Qed.

(** A call on a processor that has an image which is not a nil pointer
    whenever it has no error does not dereference nil. *)
Lemma call_no_nil E c ip s p :
  procs s !! ip = Some p ->
  (err p = None -> exists img, currentImage p = Some img /\ usable img) ->
  no_nil (call E c ip s).
Proof.
  intros Hp Hinv.
  assert (forall A (k : image_Image -> image_Rectangle -> outcome A),
            err p = None -> (forall img, usable img -> no_nil (k img (Bounds img))) ->
            no_nil (let* img := nonnil (currentImage p) in
                    let* bounds := image_Bounds img in k img bounds)) as Himg.
  { intros A k He Hk. destruct (Hinv He) as (img & -> & Hu). cbn [nonnil bindO].
    rewrite image_Bounds_usable by done. by apply Hk. }
  destruct c; simpl;
    unfold SetPerformanceOptions, Crop, Resize, Grayscale, GrayscaleFast, AddTextWatermark;
    rewrite (deref_Some _ _ _ Hp); cbn [bindO]; try done;
    destruct (err p) eqn:He; try done.
  - destruct (_ || _); [done|].
    apply (Himg _ (fun img bounds =>
             if negb (In_rect (image_Rect x y (x + width) (y + height)) bounds)
             then Ok (ip, set_err s ip p (ErrCropOutOfBounds
                                            (image_Rect x y (x + width) (y + height)) bounds))
             else
               let* '(croppedImg, h) := newRGBA (image_Rect 0 0 width height) (mem s) in
               let* h := draw_Draw croppedImg (Rect croppedImg) img
                                   (Min (image_Rect x y (x + width) (y + height))) h in
               Ok (ip, set_image s h ip p croppedImg))); [done|].
    intros img Hu. destruct (negb _); [done|].
    apply no_nil_bind; [apply image_NewRGBA_no_nil|intros [m h1] _].
    apply no_nil_bind; [by apply draw_Draw_no_nil|done].
  - destruct (_ || _); [done|].
    apply (Himg _ (fun img originalBounds =>
             let* '(newImg, h) := newRGBA (image_Rect 0 0 width height) (mem s) in
             Ok (ip, set_image s
                       (overwrite h newImg
                          (catmullRom_Scale E h newImg (image_Rect 0 0 width height) img
                             originalBounds)) ip p newImg))); [done|].
    intros img Hu. apply no_nil_bind; [apply image_NewRGBA_no_nil|by intros [m h1] _].
  - destruct (Hinv eq_refl) as (img & Hi & Hu). rewrite Hi. cbn [nonnil bindO].
    apply no_nil_bind; [by apply Grayscale_image_no_nil|by intros [m h1] _].
  - destruct (Hinv eq_refl) as (img & Hi & Hu). rewrite Hi. cbn [nonnil bindO].
    rewrite image_Bounds_usable by done. cbn [bindO]. destruct (_ && _).
    + unfold grayscaleParallel. rewrite Hi. cbn [nonnil bindO].
      apply no_nil_bind; [by apply grayscaleParallel_image_no_nil|by intros [m h1] _].
    + unfold grayscaleDirect. rewrite Hi. cbn [nonnil bindO].
      apply no_nil_bind; [by apply Grayscale_image_no_nil|by intros [m h1] _].
  - destruct (String.eqb _ _); [done|].
    destruct (opentype_Parse E _) as [fnt|e]; [|done].
    destruct (opentype_NewFace E fnt _) as [face|e]; [|done].
    destruct (Hinv eq_refl) as (img & Hi & Hu). rewrite Hi. cbn [nonnil bindO].
    rewrite image_Bounds_usable by done. cbn [bindO].
    apply no_nil_bind; [apply image_NewRGBA_no_nil|intros [m h1] _].
    apply no_nil_bind; [by apply draw_Draw_no_nil|intros h2 _].
    destruct (face_Metrics E face) as [[mh ma] md]. by destruct (anchor _ _ _ _ _ _).
Qed.

(** ** Every processor has an error or an image *)

Lemma has_image_alloc s h p :
  has_image_unless_failed s -> (err p = None -> currentImage p <> None) ->
  has_image_unless_failed (snd (alloc s h p)).
Proof.
  intros Hs Hp ip q Hq. simpl in Hq.
  apply lookup_app_Some in Hq as [Hq|[_ Hq]]; [by eapply Hs|].
  apply list_lookup_singleton_Some in Hq as [_ <-]. done.
Qed.

Lemma has_usable_alloc s h p :
  has_usable_image_unless_failed s ->
  (err p = None -> exists img, currentImage p = Some img /\ usable img) ->
  has_usable_image_unless_failed (snd (alloc s h p)).
Proof.
  intros Hs Hp ip q Hq. simpl in Hq.
  apply lookup_app_Some in Hq as [Hq|[_ Hq]]; [by eapply Hs|].
  apply list_lookup_singleton_Some in Hq as [_ <-]. done.
Qed.

(** What the frame of a call keeps: a property of the image that every
    RGBA image has. *)
Lemma frame_keeps (P : option image_Image -> Prop) ip s s' :
  (forall m, P (Some (ImgRGBA m))) ->
  frame ip s s' ->
  (forall jp p, procs s !! jp = Some p -> err p = None -> P (currentImage p)) ->
  forall jp p, procs s' !! jp = Some p -> err p = None -> P (currentImage p).
Proof.
  intros HP (_ & Hlen & Hoth & Hat) Hs jp q Hq He.
  destruct (decide (jp = ip)) as [->|Hne].
  - destruct (lookup_lt_is_Some_2 (procs s) ip) as [p Hp].
    { rewrite <- Hlen. by eapply lookup_lt_Some. }
    destruct (Hat p Hp) as (p' & Hp' & Hcases).
    rewrite Hq in Hp'. inversion Hp'; subst p'.
    destruct Hcases as [[Hi He']|[He'|[m Hm]]]; [|done|rewrite Hm; apply HP].
    rewrite Hi. apply (Hs ip p Hp). congruence.
  - rewrite Hoth in Hq by done. by eapply Hs.
Qed.

Lemma has_image_frame ip s s' :
  frame ip s s' -> has_image_unless_failed s -> has_image_unless_failed s'.
Proof.
  intros Hf Hs. unfold has_image_unless_failed in *.
  by apply (frame_keeps (fun i => i <> None) ip s s').
Qed.

Lemma has_usable_frame ip s s' :
  frame ip s s' -> has_usable_image_unless_failed s -> has_usable_image_unless_failed s'.
Proof.
  intros Hf Hs. unfold has_usable_image_unless_failed in *.
  apply (frame_keeps (fun i => exists img, i = Some img /\ usable img) ip s s'); [|done..].
  intros m. by eexists.
Qed.

Lemma place_usable d h : usable (fst (place d h)).
Proof. by destruct d. Qed.

Lemma perform_has_image E a s s' :
  perform E a s = Ok s' -> has_image_unless_failed s -> has_image_unless_failed s'.
Proof.
  destruct a as [img|img opts|data|ip|c ip]; simpl.
  - intros [= <-] Hs. unfold New. destruct img; by apply has_image_alloc.
  - intros [= <-] Hs. unfold NewWithPerformanceOptions. destruct img; by apply has_image_alloc.
  - intros [= <-] Hs. unfold FromBytes.
    destruct (_ =? _)%nat; [by apply has_image_alloc|].
    destruct (decodeImage E data) as [d|e]; [|by apply has_image_alloc].
    destruct (place d (mem s)) as [img h]. by apply has_image_alloc.
  - intros H Hs. apply bindO_Ok in H as ([c s1] & Hc & [= <-]).
    unfold Clone in Hc. apply bindO_Ok in Hc as (p & Hp & [= <- <-]).
    apply has_image_alloc; [done|]. simpl.
    unfold deref in Hp. destruct (procs s !! ip) as [p0|] eqn:Hp0; [|done].
    inversion Hp; subst. by eapply Hs.
  - intros H Hs. apply bindO_Ok in H as ([r s1] & Hc & [= <-]).
    apply call_frame in Hc as [_ Hf]. by eapply has_image_frame.
Qed.

Lemma perform_has_usable E a s s' :
  (forall img, handed a = Some img -> usable img) ->
  perform E a s = Ok s' ->
  has_usable_image_unless_failed s -> has_usable_image_unless_failed s'.
Proof.
  destruct a as [img|img opts|data|ip|c ip]; simpl; intros Hgiven.
  - intros [= <-] Hs. unfold New. destruct img as [i|]; apply has_usable_alloc; try done.
    intros _. exists i. split; [done|]. by apply Hgiven.
  - intros [= <-] Hs. unfold NewWithPerformanceOptions.
    destruct img as [i|]; apply has_usable_alloc; try done.
    intros _. exists i. split; [done|]. by apply Hgiven.
  - intros [= <-] Hs. unfold FromBytes.
    destruct (_ =? _)%nat; [by apply has_usable_alloc|].
    destruct (decodeImage E data) as [d|e]; [|by apply has_usable_alloc].
    pose proof (place_usable d (mem s)) as Hu.
    destruct (place d (mem s)) as [img h]. apply has_usable_alloc; [done|].
    intros _. by exists img.
  - intros H Hs. apply bindO_Ok in H as ([c s1] & Hc & [= <-]).
    unfold Clone in Hc. apply bindO_Ok in Hc as (p & Hp & [= <- <-]).
    apply has_usable_alloc; [done|]. simpl.
    unfold deref in Hp. destruct (procs s !! ip) as [p0|] eqn:Hp0; [|done].
    inversion Hp; subst. by eapply Hs.
  - intros H Hs. apply bindO_Ok in H as ([r s1] & Hc & [= <-]).
    apply call_frame in Hc as [_ Hf]. by eapply has_usable_frame.
Qed.

(** C10. In every store a program reaches through [New],
    [NewWithPerformanceOptions], [FromBytes], [Clone] and the calls, a
    processor without an error has an image that is not the nil interface
    value, and [Image] never returns a nil image with a nil error.  When
    moreover no constructor was handed an interface value that holds a nil
    pointer, no call on a processor of such a store dereferences nil. *)
Theorem C10_error_or_image_unless_nil_pointer (E : Collaborators)
    (given : image_Image -> Prop) (s : Store) :
  reachable E given s ->
  has_image_unless_failed s /\
  (forall ip img e, Image ip s = Ok (img, e) -> img <> None \/ e <> None) /\
  ((forall img, given img -> usable img) ->
   forall c ip, (ip < length (procs s))%nat -> call E c ip s <> Panic NilDereference).
Proof.
  intros Hr.
  assert (has_image_unless_failed s /\
          ((forall img, given img -> usable img) -> has_usable_image_unless_failed s))
    as [Hs Hu].
  { induction Hr as [h|s s' a Hr [IH1 IH2] Hg Hp].
    - split; [|intros _]; intros ip p Hp; done.
    - split; [by eapply perform_has_image|]. intros Hgiven.
      apply (perform_has_usable E a s s'); [|done|by apply IH2].
      intros img Hi. apply Hgiven. by apply Hg. }
  split; [done|]. split.
  - intros ip img e Hi. unfold Image in Hi. apply bindO_Ok in Hi as (p & Hp & [= <- <-]).
    unfold deref in Hp. destruct (procs s !! ip) as [p0|] eqn:Hp0; [|done].
    inversion Hp; subst. destruct (err p) eqn:He; [by right|left]. by eapply Hs.
  - intros Hgiven c ip Hip. destruct (lookup_lt_is_Some_2 (procs s) ip Hip) as [p Hp].
    apply (call_no_nil E c ip s p Hp). by apply (Hu Hgiven ip p).
Qed.

Lemma C10_error_or_image_unless_nil_pointer_witness :
  has_image_unless_failed sample_store /\
  (forall ip img e, Image ip sample_store = Ok (img, e) -> img <> None \/ e <> None) /\
  ((forall img, usable img -> usable img) ->
   forall c ip, (ip < length (procs sample_store))%nat ->
     call sample_env c ip sample_store <> Panic NilDereference).
Proof.
  apply (C10_error_or_image_unless_nil_pointer sample_env usable sample_store).
  apply (reach_perform sample_env usable (mkStore sample_heap []) sample_store
           (ActNewWithPerformanceOptions (Some sample_image) (mkPerf 2 true 0))).
  - apply reach_start.
  - intros img [= <-]. discriminate.
  - reflexivity.
Defined.

(** [New] takes a nil pointer wrapped in an interface value for an image:
    the value is not nil, so no error is set, and the first transformation
    calls [Bounds] through the nil pointer. *)
Lemma C10_counterexample :
  exists s,
    reachable sample_env any_image s /\
    New sample_env (Some ImgNilPointer) (mkStore [] []) = (0%nat, s) /\
    Image 0 s = Ok (Some ImgNilPointer, None) /\
    Grayscale 0 s = Panic NilDereference /\
    (forall sched, GrayscaleFast sample_env sched 0 s = Panic NilDereference) /\
    Crop 0 0 0 1 1 s = Panic NilDereference /\
    Resize sample_env 0 1 1 s = Panic NilDereference /\
    AddTextWatermark sample_env "a" [] 0 s = Panic NilDereference.
Proof.
  eexists. split; [|split; [reflexivity|]].
  - apply (reach_perform sample_env any_image (mkStore [] []) _ (ActNew (Some ImgNilPointer)));
      [apply reach_start|done|reflexivity].
  - repeat split; reflexivity.
Qed.

(** ** The earlier revision *)

(** [Grayscale_earlier] is another conversion: its weights are those of
    [color.GrayModel], and it stores every pixel opaque.  On the sample
    image the pixel (100, 150, 200, 255) becomes 141 and the alpha 200 of
    the pixel (14, 14, 14, 200) becomes 255. *)
Example Grayscale_earlier_sample :
  exists s' dst,
    Grayscale_earlier 0 sample_store = Ok (0%nat, s') /\
    procs s' !! 0%nat = Some (mkIP (Some (ImgRGBA dst)) None (mkPerf 2 true 0)) /\
    pixel_at (mem s') (ImgRGBA dst) 0 1 = (141, 141, 141, 255) /\
    pixel_at (mem s') (ImgRGBA dst) 1 0 = (14, 14, 14, 255).
Proof.
  do 2 eexists. split; [vm_compute; reflexivity|]. split; [vm_compute; reflexivity|].
  split; vm_compute; reflexivity.
Qed.

(** * Further properties of the package *)

(** ** Format names *)

(** X1. Parsing the name of a format gives the format back for JPEG, PNG
    and GIF; every other value of the integer type is named unknown and
    parses to [FormatUnknown]. *)
Theorem X1_FormatFromString_of_String (unicode_ToLower : string -> string) (f : ImageFormat) :
  FormatFromString unicode_ToLower (ImageFormat_String f) = if named f then f else FormatUnknown.
Proof.
  unfold ImageFormat_String, named.
  destruct (Z.eqb_spec f FormatJPEG) as [->|H1]; [reflexivity|].
  destruct (Z.eqb_spec f FormatPNG) as [->|H2]; [reflexivity|].
  destruct (Z.eqb_spec f FormatGIF) as [->|H3]; reflexivity.
Qed.

Lemma lower_upper_byte c : lower_byte (upper_byte c) = lower_byte c.
Proof. by destruct c as [[] [] [] [] [] [] [] []]. Qed.

Lemma lower_lower_byte c : lower_byte (lower_byte c) = lower_byte c.
Proof. by destruct c as [[] [] [] [] [] [] [] []]. Qed.

Lemma upper_byte_ascii c :
  (Ascii.nat_of_ascii (upper_byte c) <? 128)%nat = (Ascii.nat_of_ascii c <? 128)%nat.
Proof. by destruct c as [[] [] [] [] [] [] [] []]. Qed.

Lemma lower_byte_ascii c :
  (Ascii.nat_of_ascii (lower_byte c) <? 128)%nat = (Ascii.nat_of_ascii c <? 128)%nat.
Proof. by destruct c as [[] [] [] [] [] [] [] []]. Qed.

(** Changing the case of the letters of an ASCII string does not change
    its lower-case form. *)
Lemma strings_ToLower_case unicode_ToLower s :
  isASCII s = true ->
  strings_ToLower unicode_ToLower (map_bytes upper_byte s) = strings_ToLower unicode_ToLower s /\
  strings_ToLower unicode_ToLower (map_bytes lower_byte s) = strings_ToLower unicode_ToLower s.
Proof.
  intros Hs. unfold strings_ToLower. rewrite Hs.
  assert (isASCII (map_bytes upper_byte s) = true /\ isASCII (map_bytes lower_byte s) = true /\
          map_bytes lower_byte (map_bytes upper_byte s) = map_bytes lower_byte s /\
          map_bytes lower_byte (map_bytes lower_byte s) = map_bytes lower_byte s)
    as (-> & -> & -> & ->); [|done].
  induction s as [|c s IH]; [done|]. simpl in *.
  apply andb_true_iff in Hs as [Hc Hs]. destruct (IH Hs) as (-> & -> & -> & ->).
  by rewrite upper_byte_ascii, lower_byte_ascii, Hc, lower_upper_byte, lower_lower_byte.
Qed.

(** X2. [FormatFromString] returns one of the four named tags.  When the
    tag is not the unknown one, its name is the lower-cased argument,
    but for jpg, which is named jpeg; and the name of the tag parses to the
    tag again.  In an ASCII string the case of the letters does not
    matter: the string in upper case and the string in lower case parse to
    the same tag as the string itself. *)
Theorem X2_FormatFromString_canonical (unicode_ToLower : string -> string) (s : string) :
  let f := FormatFromString unicode_ToLower s in
  (f = FormatUnknown \/ f = FormatJPEG \/ f = FormatPNG \/ f = FormatGIF) /\
  (f <> FormatUnknown ->
   ImageFormat_String f = strings_ToLower unicode_ToLower s \/
   (f = FormatJPEG /\ strings_ToLower unicode_ToLower s = "jpg"%string)) /\
  FormatFromString unicode_ToLower (ImageFormat_String f) = f /\
  (isASCII s = true ->
   FormatFromString unicode_ToLower (map_bytes upper_byte s) = f /\
   FormatFromString unicode_ToLower (map_bytes lower_byte s) = f).
Proof.
  assert (isASCII s = true ->
          FormatFromString unicode_ToLower (map_bytes upper_byte s)
            = FormatFromString unicode_ToLower s /\
          FormatFromString unicode_ToLower (map_bytes lower_byte s)
            = FormatFromString unicode_ToLower s) as Hcase.
  { intros Hs. destruct (strings_ToLower_case unicode_ToLower s Hs) as [Hu Hl].
    unfold FormatFromString. by rewrite Hu, Hl. }
  revert Hcase. unfold FormatFromString.
  destruct (String.eqb_spec (strings_ToLower unicode_ToLower s) "jpeg") as [->|H1]; simpl.
  { intros Hcase. split; [auto|]. split; [auto|]. split; [reflexivity|done]. }
  destruct (String.eqb_spec (strings_ToLower unicode_ToLower s) "jpg") as [->|H2]; simpl.
  { intros Hcase. split; [auto|]. split; [auto|]. split; [reflexivity|done]. }
  destruct (String.eqb_spec (strings_ToLower unicode_ToLower s) "png") as [->|H3]; simpl.
  { intros Hcase. split; [auto|]. split; [auto|]. split; [reflexivity|done]. }
  destruct (String.eqb_spec (strings_ToLower unicode_ToLower s) "gif") as [->|H4]; simpl.
  { intros Hcase. split; [auto 6|]. split; [auto|]. split; [reflexivity|done]. }
  intros Hcase. split; [auto|]. split; [done|]. split; [reflexivity|done].
Qed.

(** X3. [ToBytes] with a format given by name, on a processor without an
    error that has an image: jpeg and jpg go to the JPEG encoder at
    quality 90, png to the PNG encoder, and their errors come back
    wrapped; gif gives the GIF error; every other string gives the
    unsupported-format error, which names the format unknown. *)
Theorem X3_ToBytes_by_name (E : Collaborators) (unicode_ToLower : string -> string)
    (name : string) (s : Store) (ip : nat) (p : ImageProcessor) (img : image_Image) :
  procs s !! ip = Some p -> err p = None -> currentImage p = Some img ->
  let l := strings_ToLower unicode_ToLower name in
  let wrap := ErrWrap "failed to encode image to bytes" in
  ToBytes E ip (FormatFromString unicode_ToLower name) s =
  if String.eqb l "jpeg" || String.eqb l "jpg" then
    match jpeg_Encode E (mem s) img 90 with
    | inl bytes => Ok (Some bytes, None)
    | inr e => Ok (None, Some (wrap e))
    end
  else if String.eqb l "png" then
    match png_Encode E (mem s) img with
    | inl bytes => Ok (Some bytes, None)
    | inr e => Ok (None, Some (wrap e))
    end
  else if String.eqb l "gif" then Ok (None, Some (wrap ErrGIFEncoding))
  else Ok (None, Some (wrap (ErrUnsupportedFormat "unknown"))).
Proof.
  intros Hp He Hi l wrap. unfold ToBytes. rewrite (deref_Some _ _ _ Hp). cbn [bindO].
  rewrite He, Hi. unfold FormatFromString. fold l.
  destruct (String.eqb l "jpeg" || String.eqb l "jpg"); [reflexivity|].
  destruct (String.eqb l "png"); [reflexivity|].
  destruct (String.eqb l "gif"); reflexivity.
Qed.

Lemma X3_ToBytes_by_name_witness :
  let l := strings_ToLower (fun s => s) "GIF" in
  let wrap := ErrWrap "failed to encode image to bytes" in
  ToBytes sample_env 0 (FormatFromString (fun s => s) "GIF") sample_store =
  if String.eqb l "jpeg" || String.eqb l "jpg" then
    match jpeg_Encode sample_env (mem sample_store) sample_image 90 with
    | inl bytes => Ok (Some bytes, None)
    | inr e => Ok (None, Some (wrap e))
    end
  else if String.eqb l "png" then
    match png_Encode sample_env (mem sample_store) sample_image with
    | inl bytes => Ok (Some bytes, None)
    | inr e => Ok (None, Some (wrap e))
    end
  else if String.eqb l "gif" then Ok (None, Some (wrap ErrGIFEncoding))
  else Ok (None, Some (wrap (ErrUnsupportedFormat "unknown"))).
Proof.
  apply (X3_ToBytes_by_name sample_env (fun s => s) "GIF" sample_store 0
           (mkIP (Some sample_image) None (mkPerf 2 true 0)) sample_image); reflexivity.
Defined.

(** ** Constructors *)

(** No call clears or replaces an error, changes the image of a failed
    processor or touches the memory; [SetPerformanceOptions] is the only
    one that changes anything, the options. *)
Lemma failed_calls E cs ip s p e :
  procs s !! ip = Some p -> err p = Some e ->
  exists s' opts,
    calls E cs ip s = Ok s' /\
    procs s' !! ip = Some (mkIP (currentImage p) (Some e) opts) /\
    mem s' = mem s /\
    forall jp, jp <> ip -> procs s' !! jp = procs s !! jp.
Proof.
  revert s p. induction cs as [|c cs IH]; intros s p Hp He.
  - exists s, (perfOpts p). split; [done|]. split; [|done]. rewrite Hp. destruct p. simpl in *. by rewrite He.
  - pose proof (lookup_lt_Some _ _ _ Hp) as Hlt.
    destruct (chainable c) eqn:Hc.
    + destruct (IH s p Hp He) as (s' & opts & Hcs & Hr).
      exists s', opts. split; [|done]. simpl. by rewrite (call_failed E c s ip p e).
    + destruct c; try done. simpl. unfold SetPerformanceOptions.
      rewrite (deref_Some _ _ _ Hp). cbn [bindO snd].
      set (s1 := mkStore (mem s) (<[ip := mkIP (currentImage p) (err p) opts]> (procs s))).
      destruct (IH s1 (mkIP (currentImage p) (err p) opts)) as (s' & opts' & Hcs & Hp' & Hm & Hoth).
      { subst s1. simpl. by rewrite list_lookup_insert_eq. }
      { done. }
      exists s', opts'. split; [done|]. split; [done|]. split; [done|].
      intros jp Hj. rewrite Hoth by done. subst s1. simpl. by rewrite list_lookup_insert_ne.
Qed.

Lemma failed_reports E ip s img e opts format :
  procs s !! ip = Some (mkIP img (Some e) opts) ->
  Err ip s = Ok (Some e) /\ Image ip s = Ok (img, Some e) /\
  ToBytes E ip format s = Ok (None, Some e).
Proof.
  intros Hp. unfold Err, Image, ToBytes. by rewrite (deref_Some _ _ _ Hp).
Qed.

Lemma FromBytes_cases E data s :
  (data = [] /\
   FromBytes E data s = alloc s (mem s) (mkIP None (Some ErrEmptyInput) zeroPerf)) \/
  (exists e, data <> [] /\ image_Decode E data = inr e /\
     FromBytes E data s =
     alloc s (mem s) (mkIP None (Some (ErrWrap "failed to decode image" e)) zeroPerf)) \/
  (exists d, data <> [] /\ image_Decode E data = inl d /\
     FromBytes E data s =
     alloc s (snd (place d (mem s)))
           (mkIP (Some (fst (place d (mem s)))) None (DefaultPerformanceOptions E))).
Proof.
  unfold FromBytes, decodeImage. destruct data as [|b data]; [by left|right]. simpl.
  destruct (image_Decode E (b :: data)) as [d|e]; [right|left].
  - exists d. split; [done|]. split; [done|]. by destruct (place d (mem s)).
  - by exists e.
Qed.

Lemma place_extends d h : extends h (snd (place d h)).
Proof. destruct d; simpl; [by eexists|apply extends_refl]. Qed.

(** X4. [FromBytes] returns a new processor and leaves the others and
    the memory that was there as they were.  Empty data give the
    empty-input error and an undecodable image the decoder's error,
    wrapped; the processor then has no image, and after any calls [Err],
    [Image] and [ToBytes] still report that error.  Otherwise the processor
    has the decoded image, no error and the default options. *)
Theorem X4_FromBytes_ready_or_failed (E : Collaborators) (data : list Z) (s : Store) :
  let ip := fst (FromBytes E data s) in
  let s0 := snd (FromBytes E data s) in
  let failed e :=
    mem s0 = mem s /\
    forall cs, exists s',
      calls E cs ip s0 = Ok s' /\ mem s' = mem s /\
      Err ip s' = Ok (Some e) /\ Image ip s' = Ok (None, Some e) /\
      forall format, ToBytes E ip format s' = Ok (None, Some e) in
  ip = length (procs s) /\
  (forall jp p, procs s !! jp = Some p -> procs s0 !! jp = Some p) /\
  extends (mem s) (mem s0) /\
  (data = [] -> failed ErrEmptyInput) /\
  (forall e, data <> [] -> image_Decode E data = inr e ->
     failed (ErrWrap "failed to decode image" e)) /\
  (forall d, data <> [] -> image_Decode E data = inl d ->
     procs s0 !! ip =
       Some (mkIP (Some (fst (place d (mem s)))) None (DefaultPerformanceOptions E)) /\
     mem s0 = snd (place d (mem s)) /\
     Bounds (fst (place d (mem s))) =
       match d with DecodedRGBA rect _ => rect | DecodedOther bounds _ => bounds end).
Proof.
  intros ip s0 failed.
  assert (forall e opts, procs s0 !! ip = Some (mkIP None (Some e) opts) -> mem s0 = mem s ->
            failed e) as Hfailed.
  { intros e opts Hp Hm. split; [done|]. intros cs.
    destruct (failed_calls E cs ip s0 _ e Hp eq_refl) as (s' & opts' & Hcs & Hp' & Hm' & _).
    exists s'. split; [done|]. split; [congruence|].
    pose proof (fun format => failed_reports E ip s' None e opts' format Hp') as Hrep.
    destruct (Hrep FormatUnknown) as (H1 & H2 & _).
    split; [done|]. split; [done|]. intros format. apply Hrep. }
  clearbody failed.
  destruct (FromBytes_cases E data s) as [[Hd Heq] | [(e & Hd & Hdec & Heq) | (d & Hd & Hdec & Heq)]];
    subst ip s0; rewrite Heq in *; cbn [alloc fst snd procs mem] in *.
  - split; [done|]. split; [intros jp p Hp; by apply lookup_app_l_Some|].
    split; [apply extends_refl|]. split; [|split; [done|intros d Hne; done]].
    intros _. apply (Hfailed ErrEmptyInput zeroPerf); [by rewrite list_lookup_middle|done].
  - split; [done|]. split; [intros jp p Hp; by apply lookup_app_l_Some|].
    split; [apply extends_refl|]. split; [done|]. split; [|intros d ?; congruence].
    intros e' _ He'. assert (e' = e) as -> by congruence.
    apply (Hfailed (ErrWrap "failed to decode image" e) zeroPerf);
      [by rewrite list_lookup_middle|done].
  - split; [done|]. split; [intros jp p Hp; by apply lookup_app_l_Some|].
    split; [apply place_extends|]. split; [done|]. split; [intros e ?; congruence|].
    intros d' _ Hd'. assert (d' = d) as -> by congruence.
    split; [by rewrite list_lookup_middle|]. split; [done|]. by destruct d.
Qed.

(** X5. [New] and [NewWithPerformanceOptions] return a new processor and
    copy nothing: the memory and the other processors are as they were.
    With a nil image both give the same failed processor, whatever the
    options asked for; no later call panics on it or changes its error,
    and [Err], [Image] and [ToBytes] report that error.  With an image the
    processor holds that very image and no error, with the default options
    after [New] and the given ones after [NewWithPerformanceOptions]. *)
Theorem X5_New_nil_or_ready (E : Collaborators) (opts : PerformanceOptions) (s : Store) :
  (New E None s = NewWithPerformanceOptions None opts s /\
   let ip := fst (New E None s) in
   let s0 := snd (New E None s) in
   ip = length (procs s) /\ mem s0 = mem s /\
   (forall jp p, procs s !! jp = Some p -> procs s0 !! jp = Some p) /\
   forall cs, exists s',
     calls E cs ip s0 = Ok s' /\ mem s' = mem s /\
     Err ip s' = Ok (Some ErrNilImage) /\ Image ip s' = Ok (None, Some ErrNilImage) /\
     forall format, ToBytes E ip format s' = Ok (None, Some ErrNilImage)) /\
  (forall img,
     let ip := fst (New E (Some img) s) in
     let s0 := snd (New E (Some img) s) in
     let s1 := snd (NewWithPerformanceOptions (Some img) opts s) in
     ip = length (procs s) /\ fst (NewWithPerformanceOptions (Some img) opts s) = ip /\
     mem s0 = mem s /\ mem s1 = mem s /\
     (forall jp p, procs s !! jp = Some p -> procs s0 !! jp = Some p /\ procs s1 !! jp = Some p) /\
     procs s0 !! ip = Some (mkIP (Some img) None (DefaultPerformanceOptions E)) /\
     procs s1 !! ip = Some (mkIP (Some img) None opts) /\
     Image ip s0 = Ok (Some img, None) /\ Image ip s1 = Ok (Some img, None)).
Proof.
  split.
  - split; [done|]. cbn [New alloc fst snd procs mem].
    split; [done|]. split; [done|]. split; [intros jp p Hp; by apply lookup_app_l_Some|].
    intros cs.
    set (s0 := mkStore (mem s) (procs s ++ [mkIP None (Some ErrNilImage) zeroPerf])).
    assert (procs s0 !! length (procs s) = Some (mkIP None (Some ErrNilImage) zeroPerf)) as Hp
      by (subst s0; simpl; by rewrite list_lookup_middle).
    destruct (failed_calls E cs _ s0 _ ErrNilImage Hp eq_refl) as (s' & opts' & Hcs & Hp' & Hm' & _).
    exists s'. split; [done|]. split; [done|].
    pose proof (fun format => failed_reports E _ s' None ErrNilImage opts' format Hp') as Hrep.
    destruct (Hrep FormatUnknown) as (H1 & H2 & _).
    split; [done|]. split; [done|]. intros format. apply Hrep.
  - intros img. cbn [New NewWithPerformanceOptions alloc fst snd procs mem].
    split; [done|]. split; [done|]. split; [done|]. split; [done|].
    split; [intros jp p Hp; split; by apply lookup_app_l_Some|].
    unfold Image, deref. cbn [procs]. by rewrite !list_lookup_middle.
Qed.

(** ** Resize *)

Lemma fit_length n l : length (fit n l) = n.
Proof. unfold fit. rewrite length_take, length_app, length_replicate. lia. Qed.

Lemma overwrite_fresh (h : Heap) r (z : list Z) bytes :
  overwrite (h ++ [z]) (fresh_RGBA h r) bytes = h ++ [fit (length z) bytes].
Proof.
  unfold overwrite. cbn [fresh_RGBA Pix s_arr]. rewrite list_lookup_middle by done.
  rewrite insert_app_r_alt by done. by rewrite Nat.sub_diag.
Qed.

Lemma zeros_length r : length (zeros r) = Z.to_nat (4 * Dx r * Dy r).
Proof. unfold zeros. by rewrite length_replicate. Qed.

Lemma Resize_ok E (s : Store) (ip : nat) (p : ImageProcessor) (img : image_Image)
    (width height : Z) :
  procs s !! ip = Some p -> err p = None -> currentImage p = Some img ->
  wf_image (mem s) img -> 0 < width -> 0 < height ->
  let r0 := mkRect (Pt 0 0) (Pt width height) in
  let dst := fresh_RGBA (mem s) r0 in
  let bytes := catmullRom_Scale E (mem s ++ [zeros r0]) dst r0 img (Bounds img) in
  Resize E ip width height s =
  Ok (ip, set_image s (mem s ++ [fit (Z.to_nat (4 * width * height)) bytes]) ip p dst).
Proof.
  intros Hp He Hi Hwf Hw Hh r0 dst bytes.
  assert ((width <=? 0) || (height <=? 0) = false) as Hb
    by (apply orb_false_iff; rewrite !Z.leb_gt; done).
  assert (Dx r0 = width /\ Dy r0 = height) as [Hdx Hdy] by (unfold Dx, Dy; simpl; lia).
  unfold Resize. rewrite (deref_Some _ _ _ Hp). cbn [bindO]. rewrite He, Hb, Hi. cbn [nonnil bindO].
  erewrite image_Bounds_ok by done. cbn [bindO].
  rewrite (image_Rect_ordered 0 0) by lia. fold r0.
  unfold newRGBA. rewrite image_NewRGBA_ok by lia. cbn [bindO]. fold dst.
  subst dst. rewrite overwrite_fresh, zeros_length, Hdx, Hdy. done.
Qed.


(** X6. [Resize] with positive sizes whose pixel buffer is within the
    allocation limit, on a processor without an error whose image is well
    formed, returns, whatever the resampling kernel writes: the processor
    gets a fresh RGBA image with the rectangle [(0,0)-(width,height)],
    without padding, well formed, in one new array of [4 * width * height]
    bytes at the end of the memory; its error stays nil and its options
    stay; every image that was in memory shows the pixels it showed. *)
Theorem X6_Resize_makes_fresh_image (E : Collaborators) (s : Store) (ip : nat)
    (p : ImageProcessor) (img : image_Image) (width height : Z) :
  procs s !! ip = Some p -> err p = None -> currentImage p = Some img ->
  wf_image (mem s) img -> 0 < width -> 0 < height -> allocatable width height ->
  exists s' dst bytes,
    Resize E ip width height s = Ok (ip, s') /\
    procs s' !! ip = Some (mkIP (Some (ImgRGBA dst)) None (perfOpts p)) /\
    Rect dst = mkRect (Pt 0 0) (Pt width height) /\
    Stride dst = 4 * width /\
    Pix dst = mkSlice (length (mem s)) 0 (4 * width * height) /\
    mem s' = mem s ++ [bytes] /\
    Z.of_nat (length bytes) = 4 * width * height /\
    wf_RGBA (mem s') dst /\
    (forall jp, jp <> ip -> procs s' !! jp = procs s !! jp) /\
    (forall old x y, wf_image (mem s) old -> pixel_at (mem s') old x y = pixel_at (mem s) old x y).
Proof.
  intros Hp He Hi Hwf Hw Hh Hfits. pose proof (lookup_lt_Some _ _ _ Hp) as Hlt.
  set (r0 := mkRect (Pt 0 0) (Pt width height)).
  assert (Dx r0 = width /\ Dy r0 = height) as [Hdx Hdy] by (unfold Dx, Dy; simpl; lia).
  eexists _, (fresh_RGBA (mem s) r0), _.
  split; [by apply Resize_ok|]. cbn [set_image procs mem].
  split; [rewrite list_lookup_insert_eq by done; by rewrite He|].
  split; [done|]. split; [cbn; by rewrite Hdx|].
  split; [cbn; by rewrite Hdx, Hdy|]. split; [done|].
  split; [rewrite fit_length; lia|].
  split; [apply wf_fresh_RGBA; [lia..|rewrite fit_length, Hdx, Hdy; done]|].
  split; [intros jp Hj; by rewrite list_lookup_insert_ne|].
  intros old x y Hold. by apply pixel_at_old.
Qed.

Lemma X6_Resize_makes_fresh_image_witness :
  exists s' dst bytes,
    Resize sample_env 0 3 1 sample_store = Ok (0%nat, s') /\
    procs s' !! 0%nat = Some (mkIP (Some (ImgRGBA dst)) None (mkPerf 2 true 0)) /\
    Rect dst = mkRect (Pt 0 0) (Pt 3 1) /\
    Stride dst = 4 * 3 /\
    Pix dst = mkSlice (length (mem sample_store)) 0 (4 * 3 * 1) /\
    mem s' = mem sample_store ++ [bytes] /\
    Z.of_nat (length bytes) = 4 * 3 * 1 /\
    wf_RGBA (mem s') dst /\
    (forall jp, jp <> 0%nat -> procs s' !! jp = procs sample_store !! jp) /\
    (forall old x y, wf_image (mem sample_store) old ->
       pixel_at (mem s') old x y = pixel_at (mem sample_store) old x y).
Proof.
  apply (X6_Resize_makes_fresh_image sample_env sample_store 0
           (mkIP (Some sample_image) None (mkPerf 2 true 0)) sample_image 3 1);
    [reflexivity|reflexivity|reflexivity|exact sample_image_wf|lia|lia|].
  repeat split; vm_compute; congruence.
Defined.

(** ** Crop and Grayscale, step by step *)

(** What a successful [Crop] leaves. *)
Lemma Crop_spec (s : Store) (ip : nat) (p : ImageProcessor) (img : image_Image)
    (x y width height : Z) :
  procs s !! ip = Some p -> err p = None -> currentImage p = Some img ->
  wf_image (mem s) img -> 0 < width -> 0 < height ->
  X (Min (Bounds img)) <= x -> x + width <= X (Max (Bounds img)) ->
  Y (Min (Bounds img)) <= y -> y + height <= Y (Max (Bounds img)) ->
  exists s' dst,
    Crop ip x y width height s = Ok (ip, s') /\
    procs s' !! ip = Some (mkIP (Some (ImgRGBA dst)) None (perfOpts p)) /\
    Rect dst = mkRect (Pt 0 0) (Pt width height) /\
    wf_RGBA (mem s') dst /\
    extends (mem s) (mem s') /\
    (forall jp, jp <> ip -> procs s' !! jp = procs s !! jp) /\
    forall i j, 0 <= i < width -> 0 <= j < height ->
      pixel_at (mem s') (ImgRGBA dst) i j = pixel_at (mem s) img (x + i) (y + j).
Proof.
  intros Hp He Hi Hwf Hw Hh H1 H2 H3 H4. pose proof (lookup_lt_Some _ _ _ Hp) as Hlt.
  set (r0 := mkRect (Pt 0 0) (Pt width height)).
  set (F := fun i j => pixel_at (mem s) img (x + i) (y + j)).
  assert (Dx r0 = width /\ Dy r0 = height) as [Hdx Hdy] by (unfold Dx, Dy; simpl; lia).
  exists (set_image s (mem s ++ [render width height F]) ip p (fresh_RGBA (mem s) r0)),
         (fresh_RGBA (mem s) r0).
  split; [by apply Crop_inside|]. cbn [set_image procs mem].
  split; [rewrite list_lookup_insert_eq by done; by rewrite He|].
  split; [done|].
  split; [apply wf_fresh_RGBA; [lia..|by rewrite render_length, Hdx, Hdy]|].
  split; [by eexists|].
  split; [intros jp Hj; by rewrite list_lookup_insert_ne|].
  intros i j Hi' Hj'.
  pose proof (pixel_at_render (mem s) r0 F i j ltac:(lia) ltac:(lia)) as Hr.
  rewrite Hdx, Hdy in Hr. simpl in Hr. by rewrite !Z.add_0_l in Hr.
Qed.

(** What [Grayscale] leaves. *)
Lemma Grayscale_spec (s : Store) (ip : nat) (p : ImageProcessor) (img : image_Image) :
  procs s !! ip = Some p -> err p = None -> currentImage p = Some img ->
  wf_image (mem s) img ->
  exists s' dst,
    Grayscale ip s = Ok (ip, s') /\
    procs s' !! ip = Some (mkIP (Some (ImgRGBA dst)) None (perfOpts p)) /\
    Rect dst = Bounds img /\
    wf_RGBA (mem s') dst /\
    extends (mem s) (mem s') /\
    (forall jp, jp <> ip -> procs s' !! jp = procs s !! jp) /\
    forall x y, X (Min (Bounds img)) <= x < X (Max (Bounds img)) ->
                Y (Min (Bounds img)) <= y < Y (Max (Bounds img)) ->
      pixel_at (mem s') (ImgRGBA dst) x y = gray_of (pixel_at (mem s) img x y).
Proof.
  intros Hp He Hi Hwf. pose proof (lookup_lt_Some _ _ _ Hp) as Hlt.
  exists (set_image s (gray_heap (mem s) img) ip p (gray_image (mem s) img)),
         (gray_image (mem s) img).
  split; [by apply Grayscale_ok|]. cbn [set_image procs mem].
  split; [rewrite list_lookup_insert_eq by done; by rewrite He|].
  split; [done|]. split; [by apply gray_image_wf|].
  split; [rewrite gray_heap_extends; by eexists|].
  split; [intros jp Hj; by rewrite list_lookup_insert_ne|].
  intros x y Hx Hy.
  pose proof (gray_image_pixel (mem s) img (x - X (Min (Bounds img))) (y - Y (Min (Bounds img)))
                ltac:(unfold Dx; lia) ltac:(unfold Dy; lia)) as Hg.
  by replace (X (Min (Bounds img)) + (x - X (Min (Bounds img)))) with x in Hg by lia;
     replace (Y (Min (Bounds img)) + (y - Y (Min (Bounds img)))) with y in Hg by lia.
Qed.

(** X7. Two crops in a row are one crop: cropping [(x2, y2, w2, h2)] out
    of the crop [(x1, y1, w1, h1)] gives an image of the same rectangle and
    the same pixels as cropping [(x1 + x2, y1 + y2, w2, h2)] out of the
    source. *)
Theorem X7_Crop_of_Crop (s : Store) (ip : nat) (p : ImageProcessor) (img : image_Image)
    (x1 y1 w1 h1 x2 y2 w2 h2 : Z) :
  procs s !! ip = Some p -> err p = None -> currentImage p = Some img ->
  wf_image (mem s) img ->
  X (Min (Bounds img)) <= x1 -> x1 + w1 <= X (Max (Bounds img)) ->
  Y (Min (Bounds img)) <= y1 -> y1 + h1 <= Y (Max (Bounds img)) ->
  0 <= x2 -> x2 + w2 <= w1 -> 0 <= y2 -> y2 + h2 <= h1 -> 0 < w2 -> 0 < h2 ->
  exists s1 s2 s3 d2 d3,
    Crop ip x1 y1 w1 h1 s = Ok (ip, s1) /\
    Crop ip x2 y2 w2 h2 s1 = Ok (ip, s2) /\
    Crop ip (x1 + x2) (y1 + y2) w2 h2 s = Ok (ip, s3) /\
    procs s2 !! ip = Some (mkIP (Some (ImgRGBA d2)) None (perfOpts p)) /\
    procs s3 !! ip = Some (mkIP (Some (ImgRGBA d3)) None (perfOpts p)) /\
    Rect d2 = mkRect (Pt 0 0) (Pt w2 h2) /\ Rect d3 = Rect d2 /\
    forall i j, 0 <= i < w2 -> 0 <= j < h2 ->
      pixel_at (mem s2) (ImgRGBA d2) i j = pixel_at (mem s) img (x1 + x2 + i) (y1 + y2 + j) /\
      pixel_at (mem s3) (ImgRGBA d3) i j = pixel_at (mem s2) (ImgRGBA d2) i j.
Proof.
  intros Hp He Hi Hwf A1 A2 A3 A4 B1 B2 B3 B4 Hw2 Hh2.
  destruct (Crop_spec s ip p img x1 y1 w1 h1) as (s1 & d1 & Hc1 & Hp1 & Hr1 & Hwf1 & _ & _ & Hpix1);
    try done; try lia.
  destruct (Crop_spec s1 ip _ (ImgRGBA d1) x2 y2 w2 h2 Hp1)
    as (s2 & d2 & Hc2 & Hp2 & Hr2 & Hwf2 & _ & _ & Hpix2);
    try done; cbn [Bounds]; rewrite ?Hr1; simpl; try lia.
  destruct (Crop_spec s ip p img (x1 + x2) (y1 + y2) w2 h2)
    as (s3 & d3 & Hc3 & Hp3 & Hr3 & Hwf3 & _ & _ & Hpix3); try done; try lia.
  exists s1, s2, s3, d2, d3. repeat (split; [done|]). split; [congruence|].
  intros i j Hi' Hj'.
  rewrite Hpix3, Hpix2, Hpix1 by lia. split; f_equal; lia.
Qed.

Lemma X7_Crop_of_Crop_witness :
  exists s1 s2 s3 d2 d3,
    Crop 0 0 0 2 2 sample_store = Ok (0%nat, s1) /\
    Crop 0 1 1 1 1 s1 = Ok (0%nat, s2) /\
    Crop 0 (0 + 1) (0 + 1) 1 1 sample_store = Ok (0%nat, s3) /\
    procs s2 !! 0%nat = Some (mkIP (Some (ImgRGBA d2)) None (mkPerf 2 true 0)) /\
    procs s3 !! 0%nat = Some (mkIP (Some (ImgRGBA d3)) None (mkPerf 2 true 0)) /\
    Rect d2 = mkRect (Pt 0 0) (Pt 1 1) /\ Rect d3 = Rect d2 /\
    forall i j, 0 <= i < 1 -> 0 <= j < 1 ->
      pixel_at (mem s2) (ImgRGBA d2) i j = pixel_at (mem sample_store) sample_image (0 + 1 + i) (0 + 1 + j) /\
      pixel_at (mem s3) (ImgRGBA d3) i j = pixel_at (mem s2) (ImgRGBA d2) i j.
Proof.
  apply (X7_Crop_of_Crop sample_store 0 (mkIP (Some sample_image) None (mkPerf 2 true 0))
           sample_image 0 0 2 2 1 1 1 1);
    first [reflexivity | exact sample_image_wf | (vm_compute; congruence) | lia].
Defined.

(** X8. [Crop] and [Grayscale] commute: cropping and then converting
    gives an image of the same rectangle and the same pixels as converting
    and then cropping; pixel [(i, j)] is the gray of the source's pixel
    [(x + i, y + j)]. *)
Theorem X8_Crop_Grayscale_commute (s : Store) (ip : nat) (p : ImageProcessor)
    (img : image_Image) (x y width height : Z) :
  procs s !! ip = Some p -> err p = None -> currentImage p = Some img ->
  wf_image (mem s) img -> 0 < width -> 0 < height ->
  X (Min (Bounds img)) <= x -> x + width <= X (Max (Bounds img)) ->
  Y (Min (Bounds img)) <= y -> y + height <= Y (Max (Bounds img)) ->
  exists s1 sa s2 sb da db,
    Crop ip x y width height s = Ok (ip, s1) /\ Grayscale ip s1 = Ok (ip, sa) /\
    Grayscale ip s = Ok (ip, s2) /\ Crop ip x y width height s2 = Ok (ip, sb) /\
    procs sa !! ip = Some (mkIP (Some (ImgRGBA da)) None (perfOpts p)) /\
    procs sb !! ip = Some (mkIP (Some (ImgRGBA db)) None (perfOpts p)) /\
    Rect da = mkRect (Pt 0 0) (Pt width height) /\ Rect db = Rect da /\
    forall i j, 0 <= i < width -> 0 <= j < height ->
      pixel_at (mem sa) (ImgRGBA da) i j = gray_of (pixel_at (mem s) img (x + i) (y + j)) /\
      pixel_at (mem sb) (ImgRGBA db) i j = pixel_at (mem sa) (ImgRGBA da) i j.
Proof.
  intros Hp He Hi Hwf Hw Hh H1 H2 H3 H4.
  destruct (Crop_spec s ip p img x y width height) as (s1 & d1 & Hc1 & Hp1 & Hr1 & Hwf1 & _ & _ & Hpix1);
    try done.
  destruct (Grayscale_spec s1 ip _ (ImgRGBA d1) Hp1) as (sa & da & Hga & Hpa & Hra & Hwfa & _ & _ & Hpixa);
    try done.
  destruct (Grayscale_spec s ip p img) as (s2 & d2 & Hg2 & Hp2 & Hr2 & Hwf2 & _ & _ & Hpix2);
    try done.
  destruct (Crop_spec s2 ip _ (ImgRGBA d2) x y width height Hp2)
    as (sb & db & Hcb & Hpb & Hrb & Hwfb & _ & _ & Hpixb);
    try done; cbn [Bounds]; rewrite ?Hr2; try done.
  cbn [Bounds] in Hra, Hpixa. rewrite Hr1 in Hra, Hpixa. simpl in Hpixa.
  exists s1, sa, s2, sb, da, db. repeat (split; [done|]). split; [congruence|].
  intros i j Hi' Hj'.
  rewrite Hpixb, Hpixa, Hpix1, Hpix2 by lia. done.
Qed.

Lemma X8_Crop_Grayscale_commute_witness :
  exists s1 sa s2 sb da db,
    Crop 0 1 0 1 2 sample_store = Ok (0%nat, s1) /\ Grayscale 0 s1 = Ok (0%nat, sa) /\
    Grayscale 0 sample_store = Ok (0%nat, s2) /\ Crop 0 1 0 1 2 s2 = Ok (0%nat, sb) /\
    procs sa !! 0%nat = Some (mkIP (Some (ImgRGBA da)) None (mkPerf 2 true 0)) /\
    procs sb !! 0%nat = Some (mkIP (Some (ImgRGBA db)) None (mkPerf 2 true 0)) /\
    Rect da = mkRect (Pt 0 0) (Pt 1 2) /\ Rect db = Rect da /\
    forall i j, 0 <= i < 1 -> 0 <= j < 2 ->
      pixel_at (mem sa) (ImgRGBA da) i j =
        gray_of (pixel_at (mem sample_store) sample_image (1 + i) (0 + j)) /\
      pixel_at (mem sb) (ImgRGBA db) i j = pixel_at (mem sa) (ImgRGBA da) i j.
Proof.
  apply (X8_Crop_Grayscale_commute sample_store 0
           (mkIP (Some sample_image) None (mkPerf 2 true 0)) sample_image 1 0 1 2);
    first [reflexivity | exact sample_image_wf | (vm_compute; congruence) | lia].
Defined.

(** ** GrayscaleFast *)

(** X9. Where the parallel engine is not used (parallel processing off,
    or fewer pixels than the threshold), and where it is used on an image
    whose bounds start at the origin and that has a row, [GrayscaleFast]
    returns what [Grayscale] returns, whatever the order in which the
    goroutines run and however many there are: a fresh image of the same
    bounds with the gray of every source pixel. *)
Theorem X9_GrayscaleFast_agrees_with_Grayscale (E : Collaborators) (s : Store) (ip : nat)
    (p : ImageProcessor) (img : image_Image) :
  procs s !! ip = Some p -> err p = None -> currentImage p = Some img ->
  wf_image (mem s) img -> 1 <= runtime_NumCPU E ->
  (EnableParallelProcessing (perfOpts p) = true ->
   MinSizeForParallel (perfOpts p) <= Dx (Bounds img) * Dy (Bounds img) ->
   origin_rows (Bounds img)) ->
  exists s' dst,
    Grayscale ip s = Ok (ip, s') /\
    (forall sched, GrayscaleFast E sched ip s = Ok (ip, s')) /\
    procs s' !! ip = Some (mkIP (Some (ImgRGBA dst)) None (perfOpts p)) /\
    Rect dst = Bounds img /\
    forall x y, X (Min (Bounds img)) <= x < X (Max (Bounds img)) ->
                Y (Min (Bounds img)) <= y < Y (Max (Bounds img)) ->
      pixel_at (mem s') (ImgRGBA dst) x y = gray_of (pixel_at (mem s) img x y).
Proof.
  intros Hp He Hi Hwf Hcpu Hpar.
  destruct (Grayscale_spec s ip p img) as (s' & dst & Hg & Hp' & Hr & _ & _ & _ & Hpix); try done.
  exists s', dst. split; [done|]. split; [|done].
  intros sched. rewrite <- Hg. apply (GrayscaleFast_is_Grayscale E sched s ip p img); try done.
  intros Hen Hsz. destruct (Hpar Hen Hsz). done.
Qed.

Lemma X9_GrayscaleFast_agrees_with_Grayscale_witness :
  exists s' dst,
    Grayscale 0 sample_store = Ok (0%nat, s') /\
    (forall sched, GrayscaleFast sample_env sched 0 sample_store = Ok (0%nat, s')) /\
    procs s' !! 0%nat = Some (mkIP (Some (ImgRGBA dst)) None (mkPerf 2 true 0)) /\
    Rect dst = Bounds sample_image /\
    forall x y, X (Min (Bounds sample_image)) <= x < X (Max (Bounds sample_image)) ->
                Y (Min (Bounds sample_image)) <= y < Y (Max (Bounds sample_image)) ->
      pixel_at (mem s') (ImgRGBA dst) x y = gray_of (pixel_at (mem sample_store) sample_image x y).
Proof.
  apply (X9_GrayscaleFast_agrees_with_Grayscale sample_env sample_store 0
           (mkIP (Some sample_image) None (mkPerf 2 true 0)) sample_image);
    [reflexivity|reflexivity|reflexivity|exact sample_image_wf|simpl; lia|].
  intros _ _. split; [reflexivity|vm_compute; congruence].
Defined.

(** X10. The edge the parallel engine does not survive: an image without
    rows.  When the call is sent to the parallel engine (parallel
    processing on and a threshold of zero or less), the number of
    goroutines is clamped to zero rows and the division that sizes the
    strips panics; [Grayscale] returns on the same image. *)
Theorem X10_GrayscaleFast_without_rows (E : Collaborators) (sched : list nat) (s : Store)
    (ip : nat) (p : ImageProcessor) (img : image_Image) :
  procs s !! ip = Some p -> err p = None -> currentImage p = Some img ->
  wf_image (mem s) img -> Dy (Bounds img) = 0 ->
  EnableParallelProcessing (perfOpts p) = true -> MinSizeForParallel (perfOpts p) <= 0 ->
  1 <= runtime_NumCPU E ->
  GrayscaleFast E sched ip s = Panic DivideByZero /\
  exists s', Grayscale ip s = Ok (ip, s').
Proof.
  intros Hp He Hi Hwf Hrows Hen Hsz Hcpu. split.
  - destruct (wf_image_dims _ _ Hwf) as [Hx Hy].
    unfold GrayscaleFast. rewrite (deref_Some _ _ _ Hp). cbn [bindO]. rewrite He, Hi.
    cbn [nonnil bindO]. erewrite image_Bounds_ok by done. cbn [bindO].
    rewrite Hen, Hrows, Z.mul_0_r. cbn [andb].
    destruct (Z.leb_spec (MinSizeForParallel (perfOpts p)) 0); [|lia].
    unfold grayscaleParallel. rewrite Hi. cbn [nonnil bindO].
    unfold grayscaleParallel_image. erewrite image_Bounds_ok by done. cbn [bindO].
    rewrite toRGBA_ok by done. cbn [bindO].
    rewrite image_NewRGBA_ok by done. cbn [bindO]. rewrite Hrows.
    assert (numGoroutines (runtime_NumCPU E) (perfOpts p) 0 = 0) as ->; [|done].
    rewrite numGoroutines_min. destruct (MaxGoroutines (perfOpts p) <=? 0) eqn:Hm; [lia|].
    apply Z.leb_gt in Hm. lia.
  - destruct (Grayscale_spec s ip p img) as (s' & dst & Hg & _); try done. by exists s'.
Qed.

Lemma empty_image_wf :
  wf_image (mem empty_store) (ImgRGBA (mkRGBA (mkSlice 0 0 0) 0 (image_Rect 0 0 0 0))).
Proof.
  repeat split; try (vm_compute; congruence).
  exists []. repeat split; vm_compute; congruence.
Qed.

Lemma X10_GrayscaleFast_without_rows_witness :
  GrayscaleFast sample_env [] 0 empty_store = Panic DivideByZero /\
  exists s', Grayscale 0 empty_store = Ok (0%nat, s').
Proof.
  apply (X10_GrayscaleFast_without_rows sample_env [] empty_store 0
           (mkIP (Some (ImgRGBA (mkRGBA (mkSlice 0 0 0) 0 (image_Rect 0 0 0 0)))) None
                 (mkPerf 1 true 0))
           (ImgRGBA (mkRGBA (mkSlice 0 0 0) 0 (image_Rect 0 0 0 0))));
    first [reflexivity | exact empty_image_wf | (simpl; lia)].
Defined.

Lemma slice_get_panic h s i q : slice_get h s i = Panic q -> q = IndexOutOfRange.
Proof.
  unfold slice_get. destruct (in_len s i); [|by intros [= <-]].
  destruct (h !! s_arr s) as [a|]; [|by intros [= <-]].
  destruct (a !! _); [done|by intros [= <-]].
Qed.

Lemma slice_set_panic h s i v q : slice_set h s i v = Panic q -> q = IndexOutOfRange.
Proof.
  unfold slice_set. destruct (in_len s i); [|by intros [= <-]].
  destruct (h !! s_arr s) as [a|]; [|by intros [= <-]].
  destruct (_ <? _)%nat; [done|by intros [= <-]].
Qed.

Lemma bindO_Panic {A B} (m : outcome A) (k : A -> outcome B) q :
  bindO m k = Panic q -> m = Panic q \/ exists a, m = Ok a /\ k a = Panic q.
Proof. destruct m as [a|q']; simpl; [right; by exists a|intros [= <-]; by left]. Qed.

Lemma grayPixel_panic src dst srcIdx dstIdx h q :
  grayPixel src dst srcIdx dstIdx h = Panic q -> q = IndexOutOfRange.
Proof.
  unfold grayPixel. intros H.
  repeat (apply bindO_Panic in H as [H|(? & _ & H)]; [by eapply slice_get_panic|]).
  repeat (apply bindO_Panic in H as [H|(? & _ & H)]; [by eapply slice_set_panic|]).
  by eapply slice_set_panic.
Qed.

(** A loop one of whose iterations panics in every memory panics. *)
Lemma run_panics {I} (body : I -> Heap -> outcome Heap) p (i : I) l h :
  (forall j h q, body j h = Panic q -> q = p) ->
  (forall h, body i h = Panic p) -> i ∈ l ->
  run body l h = Panic p.
Proof.
  intros Hall Hi. revert h. induction l as [|j l IH]; intros h Hin; [by apply elem_of_nil in Hin|].
  simpl. destruct (body j h) as [h1|q] eqn:Hj; simpl.
  - apply elem_of_cons in Hin as [->|Hin]; [by rewrite Hi in Hj|by apply IH].
  - f_equal. by eapply Hall.
Qed.

(** So do goroutines one of which has such an iteration to do, under every
    schedule. *)
Lemma run_sched_panics {I} (body : I -> Heap -> outcome Heap) p (i : I) sched ws h :
  (forall j h q, body j h = Panic q -> q = p) ->
  (forall h, body i h = Panic p) -> i ∈ concat ws ->
  run_sched body sched ws h = Panic p.
Proof.
  intros Hall Hi. revert ws h. induction sched as [|g sched IH]; intros ws h Hin; cbn [run_sched].
  - by apply (run_panics body p i).
  - destruct (ws !! g) as [[|j rest]|] eqn:Hg; try (by apply IH).
    destruct (body j h) as [h1|q] eqn:Hj; simpl.
    + apply IH. rewrite (concat_pop ws g j rest Hg) in Hin.
      apply elem_of_cons in Hin as [->|Hin]; [by rewrite Hi in Hj|done].
    + f_equal. by eapply Hall.
Qed.

(** X11. An image whose bounds start to the right of the origin or below
    it, that has a pixel, and that is sent to the parallel engine:
    [GrayscaleFast] panics with an index out of range under every
    schedule, because the first pixel is looked for at
    [(0 - Min.Y) * Stride + (0 - Min.X) * 4], before the buffer; [Grayscale]
    returns on the same image. *)
Theorem X11_parallel_engine_off_origin (E : Collaborators) (sched : list nat) (s : Store)
    (ip : nat) (p : ImageProcessor) (img : image_Image) :
  procs s !! ip = Some p -> err p = None -> currentImage p = Some img ->
  wf_image (mem s) img -> (forall m, img = ImgRGBA m -> 0 < Stride m) ->
  1 <= Dx (Bounds img) -> 1 <= Dy (Bounds img) ->
  0 <= X (Min (Bounds img)) -> 0 <= Y (Min (Bounds img)) -> Min (Bounds img) <> Pt 0 0 ->
  EnableParallelProcessing (perfOpts p) = true ->
  MinSizeForParallel (perfOpts p) <= Dx (Bounds img) * Dy (Bounds img) ->
  1 <= runtime_NumCPU E ->
  GrayscaleFast E sched ip s = Panic IndexOutOfRange /\
  exists s', Grayscale ip s = Ok (ip, s').
Proof.
  intros Hp He Hi Hwf Hstride Hw Hh Hx0 Hy0 Hmin Hen Hsz Hcpu. split.
  - unfold GrayscaleFast. rewrite (deref_Some _ _ _ Hp). cbn [bindO]. rewrite He, Hi.
    cbn [nonnil bindO]. erewrite image_Bounds_ok by done. cbn [bindO].
    rewrite Hen. cbn [andb].
    destruct (Z.leb_spec (MinSizeForParallel (perfOpts p)) (Dx (Bounds img) * Dy (Bounds img)));
      [|lia].
    unfold grayscaleParallel. rewrite Hi. cbn [nonnil bindO].
    unfold grayscaleParallel_image. erewrite image_Bounds_ok by done. cbn [bindO].
    rewrite toRGBA_ok by done. cbn [bindO].
    rewrite image_NewRGBA_ok by lia. cbn [bindO].
    pose proof (numGoroutines_range (runtime_NumCPU E) (perfOpts p) _ Hcpu Hh) as Hn.
    destruct (Z.eqb_spec (numGoroutines (runtime_NumCPU E) (perfOpts p) (Dy (Bounds img))) 0);
      [lia|].
    rewrite (run_sched_panics _ IndexOutOfRange (0, 0)); [done| | |].
    + intros [y x] h q. apply grayPixel_panic.
    + intros h. unfold grayscaleParallel_body, grayPixel.
      assert (0 < Stride (as_RGBA (mem s) img)) as Hs.
      { destruct img as [m|b at_|]; [by apply Hstride| |done]. cbn. cbn in Hw. lia. }
      assert ((0 - Y (Min (Bounds img))) * Stride (as_RGBA (mem s) img)
              + (0 - X (Min (Bounds img))) * 4 + 0 * 4 < 0) as Hneg.
      { destruct (Min (Bounds img)) as [mx my] eqn:Hm. simpl in *.
        assert (mx <> 0 \/ my <> 0) as [?|?]
          by (destruct (decide (mx = 0)); [right; congruence|by left]); nia. }
      unfold slice_get at 1.
      destruct (in_len _ _) eqn:Hin; [|done]. apply in_len_true in Hin. lia.
    + apply strips_cover; [done|]. split; simpl; lia.
  - destruct (Grayscale_spec s ip p img) as (s' & dst & Hg & _); try done. by exists s'.
Qed.

Lemma offset_image_wf : wf_image (mem offset_store) offset_image.
Proof.
  repeat split; try (vm_compute; congruence).
  exists [100; 150; 200; 255]. repeat split; vm_compute; congruence.
Qed.

Lemma X11_parallel_engine_off_origin_witness :
  GrayscaleFast sample_env [] 0 offset_store = Panic IndexOutOfRange /\
  exists s', Grayscale 0 offset_store = Ok (0%nat, s').
Proof.
  apply (X11_parallel_engine_off_origin sample_env [] offset_store 0
           (mkIP (Some offset_image) None (mkPerf 1 true 0)) offset_image);
    first [reflexivity | exact offset_image_wf | (vm_compute; congruence) | (simpl; lia)
          | (intros m [= <-]; reflexivity)].
Defined.

(** X12. [SetPerformanceOptions] changes the options of its processor
    and nothing else, on a failed processor too: the image, the error, the
    other processors and the memory are as they were.  With parallel
    processing turned off this way, [GrayscaleFast] returns what
    [Grayscale] returns on every well-formed image, wherever its bounds
    start and with or without rows. *)
Theorem X12_SetPerformanceOptions_only_options (E : Collaborators) (s : Store) (ip : nat)
    (p : ImageProcessor) (opts : PerformanceOptions) :
  procs s !! ip = Some p ->
  exists s1,
    SetPerformanceOptions ip opts s = Ok (ip, s1) /\
    procs s1 !! ip = Some (mkIP (currentImage p) (err p) opts) /\
    mem s1 = mem s /\
    (forall jp, jp <> ip -> procs s1 !! jp = procs s !! jp) /\
    (EnableParallelProcessing opts = false -> wf_proc s ip ->
     exists s',
       Grayscale ip s1 = Ok (ip, s') /\
       forall sched, GrayscaleFast E sched ip s1 = Ok (ip, s')).
Proof.
  intros Hp. pose proof (lookup_lt_Some _ _ _ Hp) as Hlt.
  eexists. split; [unfold SetPerformanceOptions; by rewrite (deref_Some _ _ _ Hp)|].
  cbn [procs mem].
  assert (<[ip := mkIP (currentImage p) (err p) opts]> (procs s) !! ip
          = Some (mkIP (currentImage p) (err p) opts)) as Hp1
    by (by rewrite list_lookup_insert_eq).
  split; [done|]. split; [done|].
  split; [intros jp Hj; by rewrite list_lookup_insert_ne|].
  intros Hoff (p0 & Hp0 & Hr). rewrite Hp in Hp0. inversion Hp0; subst p0; clear Hp0.
  set (s1 := mkStore (mem s) (<[ip := mkIP (currentImage p) (err p) opts]> (procs s))).
  destruct (err p) as [e|] eqn:He.
  - exists s1. split; [by apply (call_failed E CallGrayscale s1 ip _ e Hp1)|].
    intros sched. by apply (call_failed E (CallGrayscaleFast sched) s1 ip _ e Hp1).
  - destruct (Hr eq_refl) as (img & Hi & Hwf & _).
    destruct (Grayscale_spec s1 ip _ img Hp1) as (s' & dst & Hg & _); try done.
    exists s'. split; [done|]. intros sched. rewrite <- Hg. unfold GrayscaleFast, Grayscale.
    rewrite (deref_Some s1 ip _ Hp1). cbn [bindO err currentImage perfOpts]. rewrite Hi, Hoff.
    cbn [nonnil bindO andb]. erewrite image_Bounds_ok by done. cbn [bindO andb].
    unfold grayscaleDirect. cbn [currentImage]. rewrite ?Hi. done.
Qed.

Lemma X12_SetPerformanceOptions_only_options_witness :
  exists s1,
    SetPerformanceOptions 0 (mkPerf 8 false 0) offset_store = Ok (0%nat, s1) /\
    procs s1 !! 0%nat = Some (mkIP (Some offset_image) None (mkPerf 8 false 0)) /\
    mem s1 = mem offset_store /\
    (forall jp, jp <> 0%nat -> procs s1 !! jp = procs offset_store !! jp) /\
    (EnableParallelProcessing (mkPerf 8 false 0) = false -> wf_proc offset_store 0 ->
     exists s',
       Grayscale 0 s1 = Ok (0%nat, s') /\
       forall sched, GrayscaleFast sample_env sched 0 s1 = Ok (0%nat, s')).
Proof.
  apply (X12_SetPerformanceOptions_only_options sample_env offset_store 0
           (mkIP (Some offset_image) None (mkPerf 1 true 0)) (mkPerf 8 false 0)).
  reflexivity.
Defined.

(** ** The text watermark *)

Lemma AddTextWatermark_ok E text options (s : Store) (ip : nat) (p : ImageProcessor)
    (img : image_Image) fnt face :
  procs s !! ip = Some p -> err p = None -> currentImage p = Some img ->
  wf_image (mem s) img ->
  String.eqb text EmptyString = false ->
  opentype_Parse E (FontBytes (configure E text options)) = inl fnt ->
  opentype_NewFace E fnt (FontSize (configure E text options)) = inl face ->
  let cfg := configure E text options in
  let dst := fresh_RGBA (mem s) (Bounds img) in
  let copy := pixels_of (mem s) img in
  let drawn := drawer_DrawString E face (Color cfg) (watermark_dot E face cfg (Bounds img))
                                 (Text cfg) (mem s ++ [copy]) dst in
  AddTextWatermark E text options ip s =
  Ok (ip, set_image s (mem s ++ [fit (length copy) drawn]) ip p dst).
Proof.
  intros Hp He Hi Hwf Ht Hparse Hface cfg dst copy drawn.
  destruct (wf_image_dims _ _ Hwf) as [Hx Hy].
  unfold AddTextWatermark. rewrite (deref_Some _ _ _ Hp). cbn [bindO]. rewrite He, Ht.
  fold (configure E text options). fold cfg. unfold cfg at 1. rewrite Hparse.
  unfold cfg at 1. rewrite Hface. rewrite Hi. cbn [nonnil bindO].
  erewrite image_Bounds_ok by done. cbn [bindO].
  unfold newRGBA. rewrite image_NewRGBA_ok by done. cbn [bindO].
  rewrite draw_Draw_fresh; [|done..|].
  2:{ intros _. unfold Dx, Dy in *. lia. }
  cbn [bindO]. fold (pixels_of (mem s) img). fold copy. fold dst.
  subst drawn. unfold watermark_dot.
  destruct (face_Metrics E face) as [[mh ma] md].
  destruct (anchor cfg (Bounds img) _ _ _ _) as [ax ay].
  subst dst. by rewrite overwrite_fresh.
Qed.


Lemma pixels_of_length h img :
  length (pixels_of h img) = Z.to_nat (4 * Dx (Bounds img) * Dy (Bounds img)).
Proof. unfold pixels_of. apply render_length. Qed.

Lemma pixels_of_pixel h img x y :
  X (Min (Bounds img)) <= x < X (Max (Bounds img)) ->
  Y (Min (Bounds img)) <= y < Y (Max (Bounds img)) ->
  pixel_at (h ++ [pixels_of h img]) (ImgRGBA (fresh_RGBA h (Bounds img))) x y = pixel_at h img x y.
Proof.
  intros Hx Hy. unfold pixels_of.
  pose proof (pixel_at_render h (Bounds img)
                (fun x y => pixel_at h img (X (Min (Bounds img)) + x) (Y (Min (Bounds img)) + y))
                (x - X (Min (Bounds img))) (y - Y (Min (Bounds img)))
                ltac:(unfold Dx; lia) ltac:(unfold Dy; lia)) as Hr.
  simpl in Hr.
  by replace (X (Min (Bounds img)) + (x - X (Min (Bounds img)))) with x in Hr by lia;
     replace (Y (Min (Bounds img)) + (y - Y (Min (Bounds img)))) with y in Hr by lia.
Qed.




(** X14. When [AddTextWatermark] succeeds, the text is drawn on a copy:
    the drawer is handed a fresh image of the source's bounds that shows
    the source's pixels, the colour and the text of the configuration, and
    the starting point computed from the position, the offsets and the
    font metrics; the processor gets that image with the bytes the drawer
    leaves.  The source and every other image in memory show the pixels
    they showed; if the drawer leaves the copy as it is, the new image
    shows the source's pixels. *)
Theorem X14_AddTextWatermark_draws_on_copy (E : Collaborators) (text : string)
    (options : list WatermarkOption) (s : Store) (ip : nat) (p : ImageProcessor)
    (img : image_Image) :
  procs s !! ip = Some p -> err p = None -> currentImage p = Some img ->
  wf_image (mem s) img -> watermark_error E text options = None ->
  let cfg := configure E text options in
  let dst := fresh_RGBA (mem s) (Bounds img) in
  let inside x y := X (Min (Bounds img)) <= x < X (Max (Bounds img)) /\
                    Y (Min (Bounds img)) <= y < Y (Max (Bounds img)) in
  exists s' face copy drawn,
    AddTextWatermark E text options ip s = Ok (ip, s') /\
    procs s' !! ip = Some (mkIP (Some (ImgRGBA dst)) None (perfOpts p)) /\
    wf_RGBA (mem s ++ [copy]) dst /\
    (forall x y, inside x y ->
       pixel_at (mem s ++ [copy]) (ImgRGBA dst) x y = pixel_at (mem s) img x y) /\
    drawn = drawer_DrawString E face (Color cfg) (watermark_dot E face cfg (Bounds img))
                              (Text cfg) (mem s ++ [copy]) dst /\
    mem s' = mem s ++ [fit (length copy) drawn] /\
    (forall old x y, wf_image (mem s) old -> pixel_at (mem s') old x y = pixel_at (mem s) old x y) /\
    (drawn = copy ->
     forall x y, inside x y -> pixel_at (mem s') (ImgRGBA dst) x y = pixel_at (mem s) img x y).
Proof.
  intros Hp He Hi Hwf Hwe cfg dst inside. pose proof (lookup_lt_Some _ _ _ Hp) as Hlt.
  destruct (wf_image_dims _ _ Hwf) as [Hx Hy].
  unfold watermark_error in Hwe.
  destruct (String.eqb text EmptyString) eqn:Ht; [done|].
  destruct (opentype_Parse E _) as [fnt|e0] eqn:Hparse; [|done].
  destruct (opentype_NewFace E fnt _) as [face|e0] eqn:Hface; [|done].
  eexists _, face, (pixels_of (mem s) img), _.
  split; [by eapply AddTextWatermark_ok|]. cbn [set_image procs mem].
  split; [rewrite list_lookup_insert_eq by done; by rewrite He|].
  split; [apply wf_fresh_RGBA; [done..|apply pixels_of_length]|].
  split; [intros x y [Hx' Hy']; by apply pixels_of_pixel|].
  split; [done|]. split; [done|].
  split; [intros old x y Hold; by apply pixel_at_old|].
  intros Hd x y [Hx' Hy']. subst cfg dst. rewrite Hd.
  unfold fit. rewrite take_app_length. by apply pixels_of_pixel.
Qed.

Lemma X14_AddTextWatermark_draws_on_copy_witness :
  let cfg := configure sample_env "gopiq" [WithPosition PositionCenter] in
  let dst := fresh_RGBA (mem sample_store) (Bounds sample_image) in
  let inside x y := X (Min (Bounds sample_image)) <= x < X (Max (Bounds sample_image)) /\
                    Y (Min (Bounds sample_image)) <= y < Y (Max (Bounds sample_image)) in
  exists s' face copy drawn,
    AddTextWatermark sample_env "gopiq" [WithPosition PositionCenter] 0 sample_store
      = Ok (0%nat, s') /\
    procs s' !! 0%nat = Some (mkIP (Some (ImgRGBA dst)) None (mkPerf 2 true 0)) /\
    wf_RGBA (mem sample_store ++ [copy]) dst /\
    (forall x y, inside x y ->
       pixel_at (mem sample_store ++ [copy]) (ImgRGBA dst) x y
       = pixel_at (mem sample_store) sample_image x y) /\
    drawn = drawer_DrawString sample_env face (Color cfg)
              (watermark_dot sample_env face cfg (Bounds sample_image))
              (Text cfg) (mem sample_store ++ [copy]) dst /\
    mem s' = mem sample_store ++ [fit (length copy) drawn] /\
    (forall old x y, wf_image (mem sample_store) old ->
       pixel_at (mem s') old x y = pixel_at (mem sample_store) old x y) /\
    (drawn = copy ->
     forall x y, inside x y ->
       pixel_at (mem s') (ImgRGBA dst) x y = pixel_at (mem sample_store) sample_image x y).
Proof.
  apply (X14_AddTextWatermark_draws_on_copy sample_env "gopiq" [WithPosition PositionCenter]
           sample_store 0 (mkIP (Some sample_image) None (mkPerf 2 true 0)) sample_image);
    [reflexivity|reflexivity|reflexivity|exact sample_image_wf|reflexivity].
Defined.

Lemma configure_snoc E text options o :
  configure E text (options ++ [o]) = o (configure E text options).
Proof. unfold configure. by rewrite fold_left_app. Qed.

(** X15. The options of the watermark are applied in the order given, on
    top of the defaults (the Go font at 24 points, white at half opacity,
    bottom right, offsets of 10) and of the text.  An option of the package
    never changes the text, and a later option overrides an earlier one of
    its kind.  The font path is never read: a [WithFontPath] at the end of
    the options changes nothing of what [AddTextWatermark] does. *)
Theorem X15_watermark_options (E : Collaborators) (text : string)
    (options : list WatermarkOption) :
  configure E text [] =
    mkWC text EmptyString (goregular_TTF E) (float64_of_int 24)
         (mkColor16 65535 65535 65535 32896) PositionBottomRight
         (float64_of_int 10) (float64_of_int 10) /\
  (forall o, configure E text (options ++ [o]) = o (configure E text options)) /\
  (Forall package_option options -> Text (configure E text options) = text) /\
  (forall cfg,
     (forall a b, WithFontPath b (WithFontPath a cfg) = WithFontPath b cfg) /\
     (forall a b, WithFontBytes b (WithFontBytes a cfg) = WithFontBytes b cfg) /\
     (forall a b, WithFontSize b (WithFontSize a cfg) = WithFontSize b cfg) /\
     (forall a b, WithColor b (WithColor a cfg) = WithColor b cfg) /\
     (forall a b, WithPosition b (WithPosition a cfg) = WithPosition b cfg) /\
     (forall a a' b b', WithOffset b b' (WithOffset a a' cfg) = WithOffset b b' cfg)) /\
  (forall path ip s,
     AddTextWatermark E text (options ++ [WithFontPath path]) ip s =
     AddTextWatermark E text options ip s).
Proof.
  split; [done|]. split; [intros o; apply configure_snoc|]. split; [|split; [done|]].
  - induction options as [|o options IH] using rev_ind; [done|].
    intros Hall. apply Forall_app in Hall as [Hall Ho].
    apply (proj1 (Forall_singleton _ _)) in Ho.
    rewrite configure_snoc. inversion Ho; subst; simpl; by apply IH.
  - intros path ip s. unfold AddTextWatermark. rewrite fold_left_app. simpl.
    destruct (deref s ip) as [p|]; [|done]. cbn [bindO].
    destruct (err p); [done|]. destruct (String.eqb text EmptyString); [done|].
    destruct (opentype_Parse E _) as [fnt|e]; [|done].
    destruct (opentype_NewFace E fnt _) as [face|e]; [|done].
    destruct (nonnil (currentImage p)) as [img|]; [|done]. cbn [bindO].
    destruct (newRGBA (Bounds img) (mem s)) as [[m h1]|]; [|done]. cbn [bindO].
    destruct (draw_Draw m (Bounds img) img (Min (Bounds img)) h1) as [h2|]; [|done].
    cbn [bindO]. reflexivity.
Qed.

(** X16. Where the text starts.  The start point depends on the image
    through its width and its height only, not on where its bounds start.
    A position that is none of the five named ones leaves it at zero.
    With [PositionCenter] the offsets are not used: a [WithOffset] before a
    final [WithPosition PositionCenter] changes nothing of what
    [AddTextWatermark] does. *)
Theorem X16_watermark_placement (E : Collaborators) (text : string)
    (options : list WatermarkOption) :
  (forall cfg b1 b2 textWidth textHeight ascent descent,
     Dx b1 = Dx b2 -> Dy b1 = Dy b2 ->
     anchor cfg b1 textWidth textHeight ascent descent =
     anchor cfg b2 textWidth textHeight ascent descent) /\
  (forall cfg b textWidth textHeight ascent descent face,
     ~ (0 <= Position cfg <= 4) ->
     anchor cfg b textWidth textHeight ascent descent = (S754_zero false, S754_zero false) /\
     watermark_dot E face cfg b = Pt 0 0) /\
  (forall x y ip s,
     AddTextWatermark E text (options ++ [WithOffset x y; WithPosition PositionCenter]) ip s =
     AddTextWatermark E text (options ++ [WithPosition PositionCenter]) ip s).
Proof.
  split; [|split].
  - intros cfg b1 b2 tw th a d Hx Hy. unfold anchor. by rewrite Hx, Hy.
  - intros cfg b tw th a d face Hpos.
    assert (forall tw th a d, anchor cfg b tw th a d = (S754_zero false, S754_zero false)) as Ha.
    { intros tw' th' a' d'. unfold anchor.
      unfold PositionTopLeft, PositionTopRight, PositionBottomLeft, PositionBottomRight,
        PositionCenter.
      destruct (Z.eqb_spec (Position cfg) 0); [lia|].
      destruct (Z.eqb_spec (Position cfg) 1); [lia|].
      destruct (Z.eqb_spec (Position cfg) 2); [lia|].
      destruct (Z.eqb_spec (Position cfg) 3); [lia|].
      destruct (Z.eqb_spec (Position cfg) 4); [lia|]. done. }
    split; [apply Ha|]. unfold watermark_dot.
    destruct (face_Metrics E face) as [[mh ma] md]. by rewrite Ha.
  - intros x y ip s. unfold AddTextWatermark. rewrite !fold_left_app. simpl.
    destruct (deref s ip) as [p|]; [|done]. cbn [bindO].
    destruct (err p); [done|]. destruct (String.eqb text EmptyString); [done|].
    destruct (opentype_Parse E _) as [fnt|e]; [|done].
    destruct (opentype_NewFace E fnt _) as [face|e]; [|done].
    destruct (nonnil (currentImage p)) as [img|]; [|done]. cbn [bindO].
    destruct (newRGBA (Bounds img) (mem s)) as [[m h1]|]; [|done]. cbn [bindO].
    destruct (draw_Draw m (Bounds img) img (Min (Bounds img)) h1) as [h2|]; [|done].
    cbn [bindO]. reflexivity.
Qed.

(** ** Chains of calls *)


















(** ** The earlier revision of Grayscale *)

Lemma run_map {I J} (f : I -> J) (body : J -> Heap -> outcome Heap) l h :
  run body (map f l) h = run (fun i => body (f i)) l h.
Proof.
  revert h. induction l as [|i l IH]; intros h; [done|]. simpl.
  destruct (body (f i) h); [apply IH|done].
Qed.

Lemma Zrange_shift lo hi : Zrange lo hi = map (Z.add lo) (Zrange 0 (hi - lo)).
Proof.
  unfold Zrange. rewrite map_map, Z.sub_0_r. apply map_ext. intros k. lia.
Qed.

Lemma for_pixels_map (f g : Z -> Z) ys xs :
  for_pixels (map f ys) (map g xs) = map (fun yx => (f (fst yx), g (snd yx))) (for_pixels ys xs).
Proof.
  unfold for_pixels. induction ys as [|y ys IH]; [done|]. simpl.
  rewrite map_app, IH. f_equal. by rewrite !map_map.
Qed.

Lemma At_old (h0 t : Heap) img x y : wf_image h0 img -> At (h0 ++ t) img x y = At h0 img x y.
Proof.
  intros Hwf. destruct img as [m|b at_|]; [|done..]. simpl.
  destruct Hwf as (Hv & _). apply slice_valid_lt in Hv.
  by rewrite !slice_get_old.
Qed.

Lemma Grayscale_earlier_body_paints h img :
  wf_image h img ->
  paints h (Dx (Bounds img)) (Dy (Bounds img))
    (fun x y => gray_opaque (color_at h img (X (Min (Bounds img)) + x) (Y (Min (Bounds img)) + y)))
    (fun yx => Grayscale_earlier_body img (fresh_RGBA h (Bounds img))
                 (Y (Min (Bounds img)) + fst yx, X (Min (Bounds img)) + snd yx)).
Proof.
  intros Hwf [y x] dc [Hy Hx] Hlen. simpl in Hy, Hx. cbn [fst snd].
  unfold Grayscale_earlier_body.
  destruct (At_ok h img (X (Min (Bounds img)) + x) (Y (Min (Bounds img)) + y) Hwf
              ltac:(unfold Dx in *; lia) ltac:(unfold Dy in *; lia)) as [HAt _].
  rewrite At_old, HAt by done. cbn [bindO]. unfold Set_Gray.
  rewrite (proj2 (Point_In_true _ _ _)) by (cbn [fresh_RGBA Rect]; unfold Dx, Dy in *; lia).
  pose proof (PixOffset_rel (fresh_RGBA h (Bounds img)) x y) as Hp.
  cbn [fresh_RGBA Rect Stride] in Hp. rewrite Hp. cbn [fresh_RGBA Pix].
  replace (y * (4 * Dx (Bounds img)) + x * 4) with (4 * (y * Dx (Bounds img) + x)) by lia.
  apply set_pixel_fresh; simpl; try done; nia.
Qed.

Lemma Grayscale_earlier_ok (s : Store) (ip : nat) (p : ImageProcessor) (img : image_Image) :
  procs s !! ip = Some p -> err p = None -> currentImage p = Some img ->
  wf_image (mem s) img ->
  let b := Bounds img in
  let F := fun x y => gray_opaque (color_at (mem s) img (X (Min b) + x) (Y (Min b) + y)) in
  Grayscale_earlier ip s =
  Ok (ip, set_image s (mem s ++ [render (Dx b) (Dy b) F]) ip p (fresh_RGBA (mem s) b)).
Proof.
  intros Hp He Hi Hwf b F. destruct (wf_image_dims _ _ Hwf) as [Hx Hy].
  unfold Grayscale_earlier. rewrite (deref_Some _ _ _ Hp). cbn [bindO]. rewrite He, Hi.
  cbn [nonnil bindO]. erewrite image_Bounds_ok by done. cbn [bindO]. fold b. unfold newRGBA. rewrite image_NewRGBA_ok by done. cbn [bindO].
  rewrite (Zrange_shift (Y (Min b))), (Zrange_shift (X (Min b))), for_pixels_map, run_map.
  unfold zeros. fold (Dx b) (Dy b).
  erewrite run_fill; [done|by apply Grayscale_earlier_body_paints|done..| |].
  - by apply for_pixels_in_image.
  - intros y x [Hy' Hx']. apply elem_of_for_pixels. by rewrite !elem_of_Zrange.
Qed.

Lemma Grayscale_earlier_spec (s : Store) (ip : nat) (p : ImageProcessor) (img : image_Image) :
  procs s !! ip = Some p -> err p = None -> currentImage p = Some img ->
  wf_image (mem s) img ->
  exists s' dst,
    Grayscale_earlier ip s = Ok (ip, s') /\
    procs s' !! ip = Some (mkIP (Some (ImgRGBA dst)) None (perfOpts p)) /\
    Rect dst = Bounds img /\
    wf_RGBA (mem s') dst /\
    forall x y, X (Min (Bounds img)) <= x < X (Max (Bounds img)) ->
                Y (Min (Bounds img)) <= y < Y (Max (Bounds img)) ->
      pixel_at (mem s') (ImgRGBA dst) x y = gray_opaque (color_at (mem s) img x y).
Proof.
  intros Hp He Hi Hwf. pose proof (lookup_lt_Some _ _ _ Hp) as Hlt.
  destruct (wf_image_dims _ _ Hwf) as [Hx Hy].
  eexists _, (fresh_RGBA (mem s) (Bounds img)).
  split; [by apply Grayscale_earlier_ok|]. cbn [set_image procs mem].
  split; [rewrite list_lookup_insert_eq by done; by rewrite He|].
  split; [done|]. split; [apply wf_fresh_RGBA; [done..|apply render_length]|].
  intros x y Hx' Hy'.
  pose proof (pixel_at_render (mem s) (Bounds img)
                (fun x y => gray_opaque (color_at (mem s) img (X (Min (Bounds img)) + x)
                                                  (Y (Min (Bounds img)) + y)))
                (x - X (Min (Bounds img))) (y - Y (Min (Bounds img)))
                ltac:(unfold Dx; lia) ltac:(unfold Dy; lia)) as Hr.
  simpl in Hr.
  replace (X (Min (Bounds img)) + (x - X (Min (Bounds img)))) with x in Hr by lia.
  by replace (Y (Min (Bounds img)) + (y - Y (Min (Bounds img)))) with y in Hr by lia.
Qed.

(** X19. The earlier revision of [Grayscale], which goes through [At],
    [color.GrayModel] and [Set]: on a processor without an error whose
    image is well formed, wherever its bounds start, the processor gets a
    fresh RGBA image of the same bounds; each pixel has the gray level
    [(19595*r + 38470*g + 7471*b + 2^15) >> 24] of the source's 16-bit
    colour in its three colour channels and is opaque, whatever the alpha
    of the source; the source is as it was. *)
Theorem X19_Grayscale_earlier_gray_model (s : Store) (ip : nat) (p : ImageProcessor)
    (img : image_Image) :
  procs s !! ip = Some p -> err p = None -> currentImage p = Some img ->
  wf_image (mem s) img ->
  exists s' dst bytes,
    Grayscale_earlier ip s = Ok (ip, s') /\
    procs s' !! ip = Some (mkIP (Some (ImgRGBA dst)) None (perfOpts p)) /\
    Rect dst = Bounds img /\
    wf_RGBA (mem s') dst /\
    mem s' = mem s ++ [bytes] /\
    forall x y, X (Min (Bounds img)) <= x < X (Max (Bounds img)) ->
                Y (Min (Bounds img)) <= y < Y (Max (Bounds img)) ->
      exists c,
        At (mem s) img x y = Ok c /\
        (forall m r g b a, img = ImgRGBA m -> pixel_at (mem s) img x y = (r, g, b, a) ->
           c = mkColor16 (r * 257) (g * 257) (b * 257) (a * 257)) /\
        let gray := Z.shiftr (19595 * c_r c + 38470 * c_g c + 7471 * c_b c + 2 ^ 15) 24 mod 256 in
        pixel_at (mem s') (ImgRGBA dst) x y = (gray, gray, gray, 255) /\
        pixel_at (mem s') img x y = pixel_at (mem s) img x y.
Proof.
  intros Hp He Hi Hwf. pose proof (lookup_lt_Some _ _ _ Hp) as Hlt.
  destruct (wf_image_dims _ _ Hwf) as [Hx Hy].
  eexists _, (fresh_RGBA (mem s) (Bounds img)), _.
  split; [by apply Grayscale_earlier_ok|]. cbn [set_image procs mem].
  split; [rewrite list_lookup_insert_eq by done; by rewrite He|].
  split; [done|]. split; [apply wf_fresh_RGBA; [done..|apply render_length]|].
  split; [done|]. intros x y Hx' Hy'.
  destruct (At_ok (mem s) img x y Hwf Hx' Hy') as [HAt Hrgba].
  exists (color_at (mem s) img x y). split; [done|]. split.
  { intros m r g b a Hm Hpx. rewrite (Hrgba m Hm), Hpx. done. }
  split; [|by apply pixel_at_old].
  pose proof (pixel_at_render (mem s) (Bounds img)
                (fun x y => gray_opaque (color_at (mem s) img (X (Min (Bounds img)) + x)
                                                  (Y (Min (Bounds img)) + y)))
                (x - X (Min (Bounds img))) (y - Y (Min (Bounds img)))
                ltac:(unfold Dx; lia) ltac:(unfold Dy; lia)) as Hr.
  simpl in Hr.
  replace (X (Min (Bounds img)) + (x - X (Min (Bounds img)))) with x in Hr by lia.
  replace (Y (Min (Bounds img)) + (y - Y (Min (Bounds img)))) with y in Hr by lia.
  rewrite Hr. done.
Qed.

Lemma X19_Grayscale_earlier_gray_model_witness :
  exists s' dst bytes,
    Grayscale_earlier 0 sample_store = Ok (0%nat, s') /\
    procs s' !! 0%nat = Some (mkIP (Some (ImgRGBA dst)) None (mkPerf 2 true 0)) /\
    Rect dst = Bounds sample_image /\
    wf_RGBA (mem s') dst /\
    mem s' = mem sample_store ++ [bytes] /\
    forall x y, X (Min (Bounds sample_image)) <= x < X (Max (Bounds sample_image)) ->
                Y (Min (Bounds sample_image)) <= y < Y (Max (Bounds sample_image)) ->
      exists c,
        At (mem sample_store) sample_image x y = Ok c /\
        (forall m r g b a, sample_image = ImgRGBA m ->
           pixel_at (mem sample_store) sample_image x y = (r, g, b, a) ->
           c = mkColor16 (r * 257) (g * 257) (b * 257) (a * 257)) /\
        let gray := Z.shiftr (19595 * c_r c + 38470 * c_g c + 7471 * c_b c + 2 ^ 15) 24 mod 256 in
        pixel_at (mem s') (ImgRGBA dst) x y = (gray, gray, gray, 255) /\
        pixel_at (mem s') sample_image x y = pixel_at (mem sample_store) sample_image x y.
Proof.
  apply (X19_Grayscale_earlier_gray_model sample_store 0
           (mkIP (Some sample_image) None (mkPerf 2 true 0)) sample_image);
    [reflexivity|reflexivity|reflexivity|exact sample_image_wf].
Defined.

Lemma GrayModel_Convert_range c : 0 <= GrayModel_Convert c < 256.
Proof. unfold GrayModel_Convert. by apply Z.mod_pos_bound. Qed.

(** The gray model sends a gray colour to its level. *)
Lemma GrayModel_Convert_gray y a :
  0 <= y < 256 -> GrayModel_Convert (mkColor16 (y * 257) (y * 257) (y * 257) a) = y.
Proof.
  intros Hy. unfold GrayModel_Convert. cbn [c_r c_g c_b].
  rewrite Z.shiftr_div_pow2 by lia.
  assert ((19595 * (y * 257) + 38470 * (y * 257) + 7471 * (y * 257) + Z.shiftl 1 15) / 2 ^ 24 = y)
    as ->; [|by apply Z.mod_small].
  symmetry. apply (Z.div_unique _ _ y (65536 * y + 32768)); [lia|].
  change (Z.shiftl 1 15) with 32768. change (2 ^ 24) with 16777216. lia.
Qed.

(** X20. The earlier revision of [Grayscale] is idempotent: applied to
    its own result it gives an image of the same bounds and the same
    pixels, since the gray model sends an opaque gray colour to its own
    level. *)
Theorem X20_Grayscale_earlier_idempotent (s : Store) (ip : nat) (p : ImageProcessor)
    (img : image_Image) :
  procs s !! ip = Some p -> err p = None -> currentImage p = Some img ->
  wf_image (mem s) img ->
  exists s1 s2 d1 d2,
    Grayscale_earlier ip s = Ok (ip, s1) /\
    Grayscale_earlier ip s1 = Ok (ip, s2) /\
    procs s1 !! ip = Some (mkIP (Some (ImgRGBA d1)) None (perfOpts p)) /\
    procs s2 !! ip = Some (mkIP (Some (ImgRGBA d2)) None (perfOpts p)) /\
    Rect d1 = Bounds img /\ Rect d2 = Bounds img /\
    forall x y, X (Min (Bounds img)) <= x < X (Max (Bounds img)) ->
                Y (Min (Bounds img)) <= y < Y (Max (Bounds img)) ->
      pixel_at (mem s2) (ImgRGBA d2) x y = pixel_at (mem s1) (ImgRGBA d1) x y.
Proof.
  intros Hp He Hi Hwf.
  destruct (Grayscale_earlier_spec s ip p img) as (s1 & d1 & Hg1 & Hp1 & Hr1 & Hwf1 & Hpix1);
    try done.
  destruct (Grayscale_earlier_spec s1 ip _ (ImgRGBA d1) Hp1)
    as (s2 & d2 & Hg2 & Hp2 & Hr2 & Hwf2 & Hpix2); try done.
  cbn [Bounds] in Hr2, Hpix2. rewrite Hr1 in Hr2, Hpix2.
  exists s1, s2, d1, d2. repeat (split; [done|]).
  intros x y Hx Hy. rewrite Hpix2, Hpix1 by done.
  destruct (At_ok (mem s1) (ImgRGBA d1) x y Hwf1) as [_ Hc];
    [cbn [Bounds]; by rewrite Hr1..|].
  rewrite (Hc d1 eq_refl), Hpix1 by done. unfold gray_opaque.
  by rewrite GrayModel_Convert_gray by apply GrayModel_Convert_range.
Qed.

Lemma X20_Grayscale_earlier_idempotent_witness :
  exists s1 s2 d1 d2,
    Grayscale_earlier 0 sample_store = Ok (0%nat, s1) /\
    Grayscale_earlier 0 s1 = Ok (0%nat, s2) /\
    procs s1 !! 0%nat = Some (mkIP (Some (ImgRGBA d1)) None (mkPerf 2 true 0)) /\
    procs s2 !! 0%nat = Some (mkIP (Some (ImgRGBA d2)) None (mkPerf 2 true 0)) /\
    Rect d1 = Bounds sample_image /\ Rect d2 = Bounds sample_image /\
    forall x y, X (Min (Bounds sample_image)) <= x < X (Max (Bounds sample_image)) ->
                Y (Min (Bounds sample_image)) <= y < Y (Max (Bounds sample_image)) ->
      pixel_at (mem s2) (ImgRGBA d2) x y = pixel_at (mem s1) (ImgRGBA d1) x y.
Proof.
  apply (X20_Grayscale_earlier_idempotent sample_store 0
           (mkIP (Some sample_image) None (mkPerf 2 true 0)) sample_image);
    [reflexivity|reflexivity|reflexivity|exact sample_image_wf].
Defined.

(** ** The pool of RGBA buffers *)

Lemma same_shape_refl h : same_shape h h.
Proof. intros j a Ha. by exists a. Qed.

Lemma same_shape_trans h1 h2 h3 : same_shape h1 h2 -> same_shape h2 h3 -> same_shape h1 h3.
Proof.
  intros H12 H23 j a Ha. destruct (H12 j a Ha) as (a2 & Ha2 & L2).
  destruct (H23 j a2 Ha2) as (a3 & Ha3 & L3). exists a3. split; [done|congruence].
Qed.

Lemma same_shape_app h t : same_shape h (h ++ t).
Proof. intros j a Ha. exists a. split; [by apply lookup_app_l_Some|done]. Qed.

Lemma slice_valid_shape h h' s : same_shape h h' -> slice_valid h s -> slice_valid h' s.
Proof.
  intros Hs (a & Ha & Hr). destruct (Hs _ _ Ha) as (a' & Ha' & Hl).
  exists a'. split; [done|]. by rewrite Hl.
Qed.

Lemma wf_RGBA_shape h h' m : same_shape h h' -> wf_RGBA h m -> wf_RGBA h' m.
Proof. intros Hs (Hv & Hr). split; [by eapply slice_valid_shape|done]. Qed.

Lemma peek_lookup h s i a v :
  h !! s_arr s = Some a -> 0 <= i < s_len s -> a !! Z.to_nat (s_off s + i) = Some v ->
  peek h s i = v.
Proof.
  intros Ha Hi Hv. unfold peek, slice_get.
  destruct (in_len s i) eqn:Hin; [|apply not_true_iff_false in Hin; rewrite in_len_true in Hin; lia].
  by rewrite Ha, Hv.
Qed.

(** The loop that clears the first bytes of a slice. *)
Lemma clear_run h s lo hi :
  slice_valid h s -> 0 <= lo -> hi <= s_len s ->
  exists h' a a',
    run (fun i h => slice_set h s i 0) (Zrange lo hi) h = Ok h' /\
    length h' = length h /\
    (forall j, j <> s_arr s -> h' !! j = h !! j) /\
    h !! s_arr s = Some a /\ h' !! s_arr s = Some a' /\ length a' = length a /\
    (forall i, lo <= i < hi -> a' !! Z.to_nat (s_off s + i) = Some 0) /\
    (forall k, ~ (lo <= Z.of_nat k - s_off s < hi) -> a' !! k = a !! k).
Proof.
  intros Hv Hlo Hhi.
  remember (Z.to_nat (hi - lo)) as n eqn:Hn. revert h lo Hv Hlo Hn.
  induction n as [|n IH]; intros h lo Hv Hlo Hn.
  - destruct Hv as (a & Ha & Hr). exists h, a, a.
    unfold Zrange. rewrite <- Hn. simpl.
    repeat split; try done. intros i Hi. lia.
  - destruct Hv as (a & Ha & Ho & Hl & Hb).
    assert (Zrange lo hi = lo :: Zrange (lo + 1) hi) as ->.
    { unfold Zrange. rewrite <- Hn. replace (Z.to_nat (hi - (lo + 1))) with n by lia.
      simpl. f_equal; [lia|]. rewrite <- seq_shift, map_map. apply map_ext. intros k. lia. }
    cbn [run]. unfold slice_set at 1.
    destruct (in_len s lo) eqn:Hin;
      [|apply not_true_iff_false in Hin; rewrite in_len_true in Hin; lia].
    rewrite Ha. destruct (Nat.ltb_spec (Z.to_nat (s_off s + lo)) (length a)); [|lia].
    cbn [bindO].
    set (a1 := <[Z.to_nat (s_off s + lo) := 0]> a).
    set (h1 := <[s_arr s := a1]> h).
    assert (h1 !! s_arr s = Some a1) as Ha1
      by (subst h1; rewrite list_lookup_insert_eq; [done|by eapply lookup_lt_Some]).
    assert (length a1 = length a) as Hl1 by (subst a1; by rewrite length_insert).
    destruct (IH h1 (lo + 1)) as (h' & a0 & a' & Hrun & Hlen & Hoth & Ha0 & Ha' & Hla & Hz & Hk);
      [exists a1; rewrite Hl1; done|lia|lia|].
    rewrite Ha1 in Ha0. inversion Ha0; subst a0; clear Ha0.
    exists h', a, a'. split; [done|]. split; [subst h1; by rewrite Hlen, length_insert|].
    split; [intros j Hj; rewrite Hoth by done; subst h1; by rewrite list_lookup_insert_ne|].
    split; [done|]. split; [done|]. split; [congruence|]. split.
    + intros i Hi. destruct (decide (i = lo)) as [->|Hne].
      * rewrite Hk by lia. subst a1. by rewrite list_lookup_insert_eq.
      * apply Hz. lia.
    + intros k Hk'. rewrite Hk by lia. subst a1. rewrite list_lookup_insert_ne; [done|lia].
Qed.

Lemma blank_of_zero_bytes h m :
  wf_RGBA h m -> Stride m = 4 * Dx (Rect m) ->
  (forall i, 0 <= i < 4 * Dx (Rect m) * Dy (Rect m) -> peek h (Pix m) i = 0) ->
  blank h m.
Proof.
  intros Hwf Hs Hz x y Hx Hy.
  pose proof (pixel_at_RGBA h m (x - X (Min (Rect m))) (y - Y (Min (Rect m))) Hwf
                ltac:(unfold Dx; lia) ltac:(unfold Dy; lia)) as Hp.
  replace (X (Min (Rect m)) + (x - X (Min (Rect m)))) with x in Hp by lia.
  replace (Y (Min (Rect m)) + (y - Y (Min (Rect m)))) with y in Hp by lia.
  rewrite Hp. unfold peek4. unfold Dx, Dy in *.
  rewrite !Hz; [done|nia..].
Qed.

Lemma fresh_blank (h : Heap) r :
  0 <= Dx r -> 0 <= Dy r ->
  wf_RGBA (h ++ [zeros r]) (fresh_RGBA h r) /\ blank (h ++ [zeros r]) (fresh_RGBA h r).
Proof.
  intros Hx Hy.
  assert (wf_RGBA (h ++ [zeros r]) (fresh_RGBA h r)) as Hwf
    by (apply wf_fresh_RGBA; [done..|apply zeros_length]).
  split; [done|]. apply blank_of_zero_bytes; [done..|].
  intros i Hi. cbn [fresh_RGBA Pix Rect] in *.
  apply peek_fresh; [done|]. unfold zeros. apply lookup_replicate_2. lia.
Qed.

(** What [getPooledRGBA] does with the image [Get] handed it. *)
Lemma fit_pooled (m : image_RGBA) (bounds : image_Rectangle) (pool : Pool) (h : Heap) :
  wf_RGBA h m -> 0 <= Dx bounds -> 0 <= Dy bounds ->
  exists img h',
    (if (Dx (Rect m) <? Dx bounds) || (Dy (Rect m) <? Dy bounds) then
       let* '(img, h) := image_NewRGBA bounds h in
       Ok (img, pool, h)
     else
       let pixelsNeeded := Dx bounds * Dy bounds * 4 in
       if s_len (Pix m) <? pixelsNeeded then
         let '(pix, h) := make h pixelsNeeded in
         Ok (mkRGBA pix (4 * Dx bounds) bounds, pool, h)
       else
         let* h := run (fun i h => slice_set h (Pix m) i 0) (Zrange 0 pixelsNeeded) h in
         Ok (mkRGBA (Pix m) (4 * Dx bounds) bounds, pool, h)) = Ok (img, pool, h') /\
    Rect img = bounds /\ Stride img = 4 * Dx bounds /\
    wf_RGBA h' img /\ blank h' img /\ same_shape h h' /\
    (forall j, j <> s_arr (Pix m) -> (j < length h)%nat -> h' !! j = h !! j) /\
    (Pix img = Pix m /\ length h' = length h \/
     img = fresh_RGBA h bounds /\ h' = h ++ [zeros bounds]).
Proof.
  intros Hwf Hx Hy.
  assert (let r := bounds in
          exists img h', image_NewRGBA bounds h = Ok (img, h') /\
            Rect img = bounds /\ Stride img = 4 * Dx bounds /\
            wf_RGBA h' img /\ blank h' img /\ same_shape h h' /\
            (forall j, j <> s_arr (Pix m) -> (j < length h)%nat -> h' !! j = h !! j) /\
            (Pix img = Pix m /\ length h' = length h \/
             img = fresh_RGBA h bounds /\ h' = h ++ [zeros bounds])) as Hfresh.
  { exists (fresh_RGBA h bounds), (h ++ [zeros bounds]).
    destruct (fresh_blank h bounds Hx Hy) as [Hw Hb].
    split; [by apply image_NewRGBA_ok|]. split; [done|]. split; [done|].
    split; [done|]. split; [done|]. split; [apply same_shape_app|].
    split; [intros j _ Hj; by rewrite lookup_app_l|]. by right. }
  destruct ((Dx (Rect m) <? Dx bounds) || (Dy (Rect m) <? Dy bounds)) eqn:Hsmall.
  - destruct Hfresh as (img & h' & Hn & Hr). exists img, h'. by rewrite Hn.
  - apply orb_false_iff in Hsmall as [Hdx%Z.ltb_ge Hdy%Z.ltb_ge]. cbn zeta.
    destruct (Z.ltb_spec (s_len (Pix m)) (Dx bounds * Dy bounds * 4)) as [Hshort|Hlong].
    + destruct Hfresh as (img & h' & Hn & Hr). apply image_NewRGBA_inv in Hn as [-> ->].
      exists (fresh_RGBA h bounds), (h ++ [zeros bounds]). split; [|done].
      unfold make, fresh_RGBA, zeros.
      by replace (Dx bounds * Dy bounds * 4) with (4 * Dx bounds * Dy bounds) by lia.
    + destruct (clear_run h (Pix m) 0 (Dx bounds * Dy bounds * 4))
        as (h' & a & a' & Hrun & Hlen & Hoth & Ha & Ha' & Hla & Hz & Hk);
        [apply Hwf|lia|lia|].
      rewrite Hrun. cbn [bindO].
      exists (mkRGBA (Pix m) (4 * Dx bounds) bounds), h'. split; [done|].
      split; [done|]. split; [done|].
      assert (same_shape h h') as Hshape.
      { intros j b Hb. destruct (decide (j = s_arr (Pix m))) as [->|Hj].
        - exists a'. split; [done|]. congruence.
        - exists b. split; [by rewrite Hoth|done]. }
      assert (wf_RGBA h' (mkRGBA (Pix m) (4 * Dx bounds) bounds)) as Hwf'.
      { destruct Hwf as (Hv & _). split; [by eapply slice_valid_shape|].
        cbn [Rect Stride Pix]. split; [lia|]. split; [lia|]. split; [lia|]. intros ? ?. nia. }
      split; [done|]. split.
      { apply blank_of_zero_bytes; [done..|]. cbn [Rect Pix]. intros i Hi.
        eapply peek_lookup; [done|lia|apply Hz; lia]. }
      split; [done|]. split; [intros j Hj _; by apply Hoth|]. by left.
Qed.

(** [New] of the pool: a fresh image of some rectangle. *)
Lemma rgbaPool_New_ok h :
  exists r, rgbaPool_New h = Ok (fresh_RGBA h r, h ++ [zeros r]) /\ 0 <= Dx r /\ 0 <= Dy r.
Proof.
  exists (image_Rect 0 0 100 100).
  assert (0 <= Dx (image_Rect 0 0 100 100) /\ 0 <= Dy (image_Rect 0 0 100 100)) as [H1 H2]
    by (split; vm_compute; congruence).
  split; [|done]. unfold rgbaPool_New. by apply image_NewRGBA_ok.
Qed.

(** X21. [getPooledRGBA] returns for every rectangle without a negative
    side whose pixel buffer is within the allocation limit and every pool
    of well-formed images, whichever image [Get] hands out: the image
    returned has the rectangle asked for, no padding, is
    well formed and shows transparent black everywhere, whatever the
    pooled buffer held.  It is the pooled buffer, cleared in place, or a
    new array; no array but the pooled buffer is written, no array changes
    its length, and the images left in the pool stay well formed. *)
Theorem X21_getPooledRGBA_blank (pick : option nat) (bounds : image_Rectangle) (pool : Pool)
    (h : Heap) :
  Forall (wf_RGBA h) pool -> 0 <= Dx bounds -> 0 <= Dy bounds ->
  allocatable (Dx bounds) (Dy bounds) ->
  exists img pool' h',
    getPooledRGBA pick bounds pool h = Ok (img, pool', h') /\
    Rect img = bounds /\ Stride img = 4 * Dx bounds /\
    wf_RGBA h' img /\ blank h' img /\
    same_shape h h' /\ Forall (wf_RGBA h') pool' /\
    (pool' = pool \/ exists k, pick = Some k /\ pool' = delete k pool) /\
    ((exists k m, pick = Some k /\ pool !! k = Some m /\ Pix img = Pix m /\
        length h' = length h /\ forall j, j <> s_arr (Pix m) -> h' !! j = h !! j) \/
     (length h <= s_arr (Pix img))%nat /\ extends h h').
Proof.
  intros Hpool Hx Hy _. unfold getPooledRGBA.
  destruct (rgbaPool_New_ok h) as (r100 & HNew & Hx100 & Hy100).
  assert (rgbaPool_Get pick pool h =
          match pick ≫= (fun k => pool !! k) with
          | Some img => Ok (img, delete (default 0%nat pick) pool, h)
          | None => Ok (fresh_RGBA h r100, pool, h ++ [zeros r100])
          end) as ->.
  { unfold rgbaPool_Get. rewrite HNew. destruct pick as [k|]; [|done]. simpl.
    by destruct (pool !! k). }
  clear HNew.
  destruct (pick ≫= (fun k => pool !! k)) as [m|] eqn:Hget; cbn [bindO].
  - destruct pick as [k|]; [|done]. simpl in Hget.
    pose proof (proj1 (Forall_lookup _ _) Hpool _ _ Hget) as Hwf.
    destruct (fit_pooled m bounds (delete k pool) h Hwf Hx Hy)
      as (img & h' & Heq & Hr & Hs & Hw & Hb & Hshape & Hoth & Hcase).
    exists img, (delete k pool), h'. cbn [default]. split; [exact Heq|].
    repeat (split; [done|]).
    split.
    { apply Forall_delete. eapply Forall_impl; [done|]. intros m'. by apply wf_RGBA_shape. }
    split; [right; by exists k|].
    destruct Hcase as [[Hpix Hlen]|[-> ->]].
    + left. exists k, m. repeat (split; [done|]). intros j Hj.
      destruct (decide (j < length h)%nat); [by apply Hoth|].
      rewrite !lookup_ge_None_2; [done|lia..].
    + right. split; [done|by eexists].
  - destruct (fresh_blank h r100) as [Hwf _]; [done..|].
    destruct (fit_pooled (fresh_RGBA h r100) bounds pool (h ++ [zeros r100]) Hwf Hx Hy)
      as (img & h' & Heq & Hr & Hs & Hw & Hb & Hshape & Hoth & Hcase).
    exists img, pool, h'. split; [exact Heq|].
    repeat (split; [done|]).
    assert (same_shape h h') as Hsh by (eapply same_shape_trans; [apply same_shape_app|done]).
    split; [done|].
    split; [eapply Forall_impl; [done|]; intros m'; by apply wf_RGBA_shape|].
    split; [by left|]. right.
    assert (extends h h') as Hext.
    { destruct Hcase as [[Hpix Hlen]|[_ ->]]; [|exists ([zeros r100] ++ [zeros bounds]); by rewrite app_assoc].
      rewrite length_app in Hlen. simpl in Hlen.
      destruct (lookup_lt_is_Some_2 h' (length h) ltac:(lia)) as [c Hc].
      exists [c]. apply list_eq. intros j.
      destruct (decide (j = length h)) as [->|Hj].
      - by rewrite Hc, list_lookup_middle.
      - destruct (decide (j < length h)%nat).
        + rewrite Hoth by (cbn; rewrite ?length_app; simpl; lia). by rewrite !lookup_app_l.
        + rewrite !lookup_ge_None_2; [done|rewrite ?length_app; simpl; lia..]. }
    split; [|done].
    destruct Hcase as [[Hpix _]|[-> _]]; [rewrite Hpix; done|].
    cbn. rewrite length_app. simpl. lia.
Qed.

Lemma sample_pool_wf : Forall (wf_RGBA sample_heap) [mkRGBA (mkSlice 0 0 16) 8 (image_Rect 0 0 2 2)].
Proof. apply Forall_cons_2; [exact sample_image_wf|apply Forall_nil_2]. Qed.

Lemma X21_getPooledRGBA_blank_witness :
  exists img pool' h',
    getPooledRGBA (Some 0%nat) (image_Rect 5 5 6 7)
                  [mkRGBA (mkSlice 0 0 16) 8 (image_Rect 0 0 2 2)] sample_heap
      = Ok (img, pool', h') /\
    Rect img = image_Rect 5 5 6 7 /\ Stride img = 4 * Dx (image_Rect 5 5 6 7) /\
    wf_RGBA h' img /\ blank h' img /\
    same_shape sample_heap h' /\ Forall (wf_RGBA h') pool' /\
    (pool' = [mkRGBA (mkSlice 0 0 16) 8 (image_Rect 0 0 2 2)] \/
     exists k, Some 0%nat = Some k /\
               pool' = delete k [mkRGBA (mkSlice 0 0 16) 8 (image_Rect 0 0 2 2)]) /\
    ((exists k m, Some 0%nat = Some k /\
        [mkRGBA (mkSlice 0 0 16) 8 (image_Rect 0 0 2 2)] !! k = Some m /\ Pix img = Pix m /\
        length h' = length sample_heap /\
        forall j, j <> s_arr (Pix m) -> h' !! j = sample_heap !! j) \/
     (length sample_heap <= s_arr (Pix img))%nat /\ extends sample_heap h').
Proof.
  apply (X21_getPooledRGBA_blank (Some 0%nat) (image_Rect 5 5 6 7)
           [mkRGBA (mkSlice 0 0 16) 8 (image_Rect 0 0 2 2)] sample_heap);
    [exact sample_pool_wf|vm_compute; congruence|vm_compute; congruence|].
  repeat split; vm_compute; congruence.
Defined.

Lemma rgbaPool_Get_last (pool : Pool) img h :
  rgbaPool_Get (Some (length pool)) (rgbaPool_Put img pool) h = Ok (img, pool, h).
Proof.
  unfold rgbaPool_Get, rgbaPool_Put. rewrite list_lookup_middle by done. do 3 f_equal.
  induction pool as [|m pool IH]; simpl; [done|by f_equal].
Qed.

(** X22. An image put back with [returnPooledRGBA] and found again by
    [getPooledRGBA] is reused when it is large enough: for a rectangle that
    fits in the pooled image (whose rows do not overlap), the image
    returned has the pooled buffer, no array is made, no other array is
    written, and the pool is as it was before the image was put back.  An
    image of more than 2000 * 2000 pixels is not put in the pool. *)
Theorem X22_pool_reuses_buffer (img : image_RGBA) (pool : Pool) (bounds : image_Rectangle)
    (h : Heap) :
  wf_RGBA h img -> 4 * Dx (Rect img) <= Stride img ->
  0 <= Dx bounds <= Dx (Rect img) -> 0 <= Dy bounds <= Dy (Rect img) ->
  (Dx (Rect img) * Dy (Rect img) <= 4000000 ->
   exists h',
     getPooledRGBA (Some (length pool)) bounds (returnPooledRGBA img pool) h =
     Ok (mkRGBA (Pix img) (4 * Dx bounds) bounds, pool, h') /\
     length h' = length h /\
     (forall j, j <> s_arr (Pix img) -> h' !! j = h !! j) /\
     blank h' (mkRGBA (Pix img) (4 * Dx bounds) bounds)) /\
  (4000000 < Dx (Rect img) * Dy (Rect img) -> returnPooledRGBA img pool = pool).
Proof.
  intros Hwf Hstride Hx Hy. split.
  - intros Hsmall. unfold returnPooledRGBA.
    destruct (Z.leb_spec (Dx (Rect img) * Dy (Rect img)) (2000 * 2000)); [|lia].
    unfold getPooledRGBA. rewrite rgbaPool_Get_last. cbn [bindO].
    destruct (Z.ltb_spec (Dx (Rect img)) (Dx bounds)); [lia|].
    destruct (Z.ltb_spec (Dy (Rect img)) (Dy bounds)); [lia|]. cbn [orb]. cbn zeta.
    assert (Dx bounds * Dy bounds * 4 <= s_len (Pix img)) as Hlen.
    { destruct Hwf as ((a0 & _ & _ & Hl0 & _) & Hdx & Hdy & _ & Hl).
      destruct (decide (0 < Dx (Rect img) /\ 0 < Dy (Rect img))) as [[? ?]|?].
      - specialize (Hl ltac:(done) ltac:(done)).
        assert (Dx bounds * Dy bounds <= Dx (Rect img) * Dy (Rect img)) by nia.
        assert ((Dy (Rect img) - 1) * (4 * Dx (Rect img)) <= (Dy (Rect img) - 1) * Stride img)
          by nia.
        lia.
      - assert (Dx bounds * Dy bounds = 0) by nia. lia. }
    destruct (Z.ltb_spec (s_len (Pix img)) (Dx bounds * Dy bounds * 4)); [lia|].
    destruct (clear_run h (Pix img) 0 (Dx bounds * Dy bounds * 4))
      as (h' & a & a' & Hrun & Hlen' & Hoth & Ha & Ha' & Hla & Hz & Hk);
      [apply Hwf|lia|lia|].
    rewrite Hrun. cbn [bindO]. exists h'. split; [done|]. split; [done|]. split; [done|].
    assert (same_shape h h') as Hshape.
    { intros j b Hb. destruct (decide (j = s_arr (Pix img))) as [->|Hj].
      - exists a'. split; [done|]. congruence.
      - exists b. split; [by rewrite Hoth|done]. }
    apply blank_of_zero_bytes; [|done|].
    + destruct Hwf as (Hv & _). split; [by eapply slice_valid_shape|].
      cbn [Rect Stride Pix]. split; [lia|]. split; [lia|]. split; [lia|]. intros ? ?. nia.
    + cbn [Rect Pix]. intros i Hi. eapply peek_lookup; [done|lia|apply Hz; lia].
  - intros Hlarge. unfold returnPooledRGBA.
    destruct (Z.leb_spec (Dx (Rect img) * Dy (Rect img)) (2000 * 2000)); [lia|done].
Qed.

Lemma X22_pool_reuses_buffer_witness :
  (Dx (Rect (mkRGBA (mkSlice 0 0 16) 8 (image_Rect 0 0 2 2))) *
   Dy (Rect (mkRGBA (mkSlice 0 0 16) 8 (image_Rect 0 0 2 2))) <= 4000000 ->
   exists h',
     getPooledRGBA (Some (length (@nil image_RGBA))) (image_Rect 5 5 6 7)
                   (returnPooledRGBA (mkRGBA (mkSlice 0 0 16) 8 (image_Rect 0 0 2 2)) [])
                   sample_heap =
     Ok (mkRGBA (Pix (mkRGBA (mkSlice 0 0 16) 8 (image_Rect 0 0 2 2)))
                (4 * Dx (image_Rect 5 5 6 7)) (image_Rect 5 5 6 7), [], h') /\
     length h' = length sample_heap /\
     (forall j, j <> s_arr (Pix (mkRGBA (mkSlice 0 0 16) 8 (image_Rect 0 0 2 2))) ->
        h' !! j = sample_heap !! j) /\
     blank h' (mkRGBA (Pix (mkRGBA (mkSlice 0 0 16) 8 (image_Rect 0 0 2 2)))
                      (4 * Dx (image_Rect 5 5 6 7)) (image_Rect 5 5 6 7))) /\
  (4000000 < Dx (Rect (mkRGBA (mkSlice 0 0 16) 8 (image_Rect 0 0 2 2))) *
             Dy (Rect (mkRGBA (mkSlice 0 0 16) 8 (image_Rect 0 0 2 2))) ->
   returnPooledRGBA (mkRGBA (mkSlice 0 0 16) 8 (image_Rect 0 0 2 2)) [] = []).
Proof.
  apply (X22_pool_reuses_buffer (mkRGBA (mkSlice 0 0 16) 8 (image_Rect 0 0 2 2)) []
           (image_Rect 5 5 6 7) sample_heap);
    [exact sample_image_wf|vm_compute; congruence|vm_compute; split; congruence..].
Defined.

(** ** From a constructor to ToBytes *)




